(** * X-AnyLabeling chat panel: answer extraction, coordinate conversion,
      streaming coordination and annotation persistence

    Source files embedded here:
    - [convert_vlm_r1_ovd_to_xlabel.py] (stand-alone converter),
    - [anylabeling/views/labeling/widgets/chatbot_dialog.py] (chat dialog),
    - [anylabeling/services/auto_labeling/qwen_vl.py] (Qwen-VL service).

    Python values are modelled as follows.  A [str] is the list of its code
    points ([N]).  A JSON number is a Python [int] (a [Z]) or a [float]; a
    finite float is idealised as the exact rational its literal denotes, and
    [NaN], [Infinity] and [-Infinity], which [json.loads] accepts, are kept
    apart.  A [dict] is an association list with distinct keys in insertion
    order.  Exceptions are explicit: a computation returns [Ok v] or
    [Raise e]. *)

From stdpp Require Import gmap.
From Stdlib Require Import String Ascii.
From Stdlib Require Import List ZArith NArith QArith Qreduction Bool Lia Lqa DecimalString.
From Stdlib Require DecimalFacts DecimalPos.
Import ListNotations.

Local Open Scope N_scope.
Local Open Scope list_scope.

(** ** Text *)

Abbreviation text := (list N).

(** A Rocq string literal read as Python text. *)
Definition py (s : string) : text := map N_of_ascii (list_ascii_of_string s).

(** The same, with every apostrophe of the literal standing for a double
    quote (code point 34), so that JSON documents can be written down. *)
Definition pyq (s : string) : text :=
  map (fun c => if c =? 39 then 34 else c) (py s).

Fixpoint text_eqb (a b : text) : bool :=
  match a, b with
  | [], [] => true
  | x :: a', y :: b' => (x =? y) && text_eqb a' b'
  | _, _ => false
  end.

Fixpoint starts_with (p s : text) : bool :=
  match p, s with
  | [], _ => true
  | x :: p', y :: s' => (x =? y) && starts_with p' s'
  | _ :: _, [] => false
  end.

(** [needle in s] *)
Fixpoint contains (needle s : text) : bool :=
  starts_with needle s ||
  match s with
  | [] => false
  | _ :: s' => contains needle s'
  end.

Fixpoint span {A} (p : A -> bool) (l : list A) : list A * list A :=
  match l with
  | x :: l' => if p x then let (a, b) := span p l' in (x :: a, b) else ([], l)
  | [] => ([], [])
  end.

(** ** Exceptions *)

Inductive exn := JSONDecodeError | TypeError | ValueError | OSError.

Inductive result (A : Type) := Ok (a : A) | Raise (e : exn).
Arguments Ok {A} a.
Arguments Raise {A} e.

Definition bind {A B} (m : result A) (k : A -> result B) : result B :=
  match m with Ok a => k a | Raise e => Raise e end.

(** [try: m  except json.JSONDecodeError: h]: only that exception is caught. *)
Definition except_JSONDecodeError {A} (m : result A) (h : result A) : result A :=
  match m with
  | Raise JSONDecodeError => h
  | _ => m
  end.

Notation "x <- m ;; k" := (bind m (fun x => k))
  (at level 100, m at next level, right associativity).

(** ** Python numbers and JSON values *)

Inductive number :=
| PyInt (z : Z)
| PyFloat (q : Q)
| PyNaN
| PyInf (negative : bool).

Unset Elimination Schemes.
Inductive json :=
| JNull
| JBool (b : bool)
| JNum (n : number)
| JStr (s : text)
| JArr (items : list json)
| JObj (d : list (text * json)).
Set Elimination Schemes.

Definition dict := list (text * json).

Fixpoint dict_get (k : text) (d : dict) : option json :=
  match d with
  | [] => None
  | (k', v) :: d' => if text_eqb k k' then Some v else dict_get k d'
  end.

(** [key in d] *)
Definition dict_has (k : text) (d : dict) : bool :=
  match dict_get k d with Some _ => true | None => false end.

(** [d[k] = v]: an existing key keeps its position. *)
Fixpoint dict_set (k : text) (v : json) (d : dict) : dict :=
  match d with
  | [] => [(k, v)]
  | (k', v') :: d' =>
      if text_eqb k k' then (k', v) :: d' else (k', v') :: dict_set k v d'
  end.

(** [dict(pairs)] *)
Definition dict_of_pairs (pairs : list (text * json)) : dict :=
  fold_left (fun d kv => dict_set (fst kv) (snd kv) d) pairs [].

(** ** [json.loads]

    The decoder of Python's [json] package, given as a tokenizer followed by
    a parser of the token list.  Every failure is a [JSONDecodeError].
    Limits of the interpreter (recursion depth, size of integer literals)
    are not part of the model. *)

Inductive token :=
| TLBrace | TRBrace | TLBrack | TRBrack | TColon | TComma
| TStr (s : text)
| TNum (n : number)
| TNull | TTrue | TFalse.

(** [WHITESPACE = ' \t\n\r'] *)
Definition is_json_ws (c : N) : bool :=
  (c =? 32) || (c =? 9) || (c =? 10) || (c =? 13).

Definition is_digit09 (c : N) : bool := (48 <=? c) && (c <=? 57).

Definition digits_value (ds : text) : Z :=
  fold_left (fun acc c => (10 * acc + (Z.of_N c - 48))%Z) ds 0%Z.

Definition pow10 (e : Z) : Q :=
  if (0 <=? e)%Z then inject_Z (10 ^ e) else Qmake 1 (Z.to_pos (10 ^ (- e))).

(** [NUMBER_RE]: an optional minus sign, then [0] or a non-zero digit
    followed by digits; optionally a dot and digits; optionally [e] or [E],
    a sign and digits. *)
Definition scan_integer (s : text) : option (bool * text * text) :=
  let '(neg, s1) :=
    match s with
    | c :: s' => if c =? 45 then (true, s') else (false, s)
    | [] => (false, s)
    end in
  match s1 with
  | c :: s2 =>
      if c =? 48 then Some (neg, [c], s2)
      else if is_digit09 c then
        let (ds, s3) := span is_digit09 s1 in Some (neg, ds, s3)
      else None
  | [] => None
  end.

Definition scan_frac (s : text) : option (text * text) :=
  match s with
  | c :: s1 =>
      if c =? 46 then
        match span is_digit09 s1 with
        | ([], _) => None
        | (ds, s2) => Some (ds, s2)
        end
      else None
  | [] => None
  end.

Definition scan_exp (s : text) : option (Z * text) :=
  match s with
  | c :: s1 =>
      if (c =? 101) || (c =? 69) then
        let '(sign, s2) :=
          match s1 with
          | d :: s' =>
              if d =? 43 then (1%Z, s')
              else if d =? 45 then ((-1)%Z, s')
              else (1%Z, s1)
          | [] => (1%Z, s1)
          end in
        match span is_digit09 s2 with
        | ([], _) => None
        | (ds, s3) => Some ((sign * digits_value ds)%Z, s3)
        end
      else None
  | [] => None
  end.

Definition signed (neg : bool) (z : Z) : Z := if neg then (- z)%Z else z.

(** A literal with a fraction or an exponent is a float, otherwise an int. *)
Definition scan_number (s : text) : option (number * text) :=
  match scan_integer s with
  | None => None
  | Some (neg, ds, s1) =>
      let '(frac, s2) :=
        match scan_frac s1 with
        | Some (fs, r) => (Some fs, r)
        | None => (None, s1)
        end in
      let '(ex, s3) :=
        match scan_exp s2 with
        | Some (e, r) => (Some e, r)
        | None => (None, s2)
        end in
      match frac, ex with
      | None, None => Some (PyInt (signed neg (digits_value ds)), s3)
      | _, _ =>
          let fs := match frac with Some fs => fs | None => [] end in
          let e := match ex with Some e => e | None => 0%Z end in
          let m := signed neg (digits_value (ds ++ fs)) in
          Some (PyFloat (Qred (inject_Z m * pow10 (e - Z.of_nat (length fs)))), s3)
      end
  end.

Definition hex_val (c : N) : option N :=
  if is_digit09 c then Some (c - 48)
  else if (97 <=? c) && (c <=? 102) then Some (c - 87)
  else if (65 <=? c) && (c <=? 70) then Some (c - 55)
  else None.

(** [_decode_uXXXX] *)
Definition decode_uXXXX (a b c d : N) : option N :=
  match hex_val a, hex_val b, hex_val c, hex_val d with
  | Some x, Some y, Some z, Some w => Some (((x * 16 + y) * 16 + z) * 16 + w)
  | _, _, _, _ => None
  end.

(** [BACKSLASH]: the one-letter escapes. *)
Definition backslash (e : N) : option N :=
  if e =? 34 then Some 34
  else if e =? 92 then Some 92
  else if e =? 47 then Some 47
  else if e =? 98 then Some 8
  else if e =? 102 then Some 12
  else if e =? 110 then Some 10
  else if e =? 114 then Some 13
  else if e =? 116 then Some 9
  else None.

Definition is_high_surrogate (u : N) : bool := (55296 <=? u) && (u <=? 56319).
Definition is_low_surrogate (u : N) : bool := (56320 <=? u) && (u <=? 57343).

Definition cons_to {A B} (x : A) (r : option (list A * B)) : option (list A * B) :=
  match r with Some (l, b) => Some (x :: l, b) | None => None end.

(** [scanstring] (strict mode), called after the opening quote: the decoded
    string and the text after the closing quote. *)
Fixpoint scanstring (s : text) : option (text * text) :=
  match s with
  | [] => None
  | c :: s1 =>
      if c =? 34 then Some ([], s1)
      else if c =? 92 then
        match s1 with
        | [] => None
        | e :: s2 =>
            if e =? 117 then
              match s2 with
              | h1 :: h2 :: h3 :: h4 :: s3 =>
                  match decode_uXXXX h1 h2 h3 h4 with
                  | None => None
                  | Some uni =>
                      match s3 with
                      | b :: u :: l1 :: l2 :: l3 :: l4 :: s4 =>
                          if is_high_surrogate uni && (b =? 92) && (u =? 117) then
                            match decode_uXXXX l1 l2 l3 l4 with
                            | None => None
                            | Some uni2 =>
                                if is_low_surrogate uni2 then
                                  cons_to (65536 + ((uni - 55296) * 1024 + (uni2 - 56320)))
                                          (scanstring s4)
                                else cons_to uni (scanstring s3)
                            end
                          else cons_to uni (scanstring s3)
                      | _ =>
                          if is_high_surrogate uni && starts_with [92; 117] s3 then None
                          else cons_to uni (scanstring s3)
                      end
                  end
              | _ => None
              end
            else
              match backslash e with
              | Some x => cons_to x (scanstring s2)
              | None => None
              end
        end
      else if c <? 32 then None
      else cons_to c (scanstring s1)
  end.

Definition scan_keyword (s : text) : option (token * text) :=
  if starts_with (py "null") s then Some (TNull, skipn 4 s)
  else if starts_with (py "true") s then Some (TTrue, skipn 4 s)
  else if starts_with (py "false") s then Some (TFalse, skipn 5 s)
  else
    match scan_number s with
    | Some (n, r) => Some (TNum n, r)
    | None =>
        if starts_with (py "NaN") s then Some (TNum PyNaN, skipn 3 s)
        else if starts_with (py "Infinity") s then Some (TNum (PyInf false), skipn 8 s)
        else if starts_with (py "-Infinity") s then Some (TNum (PyInf true), skipn 9 s)
        else None
    end.

Definition map_tokens (t : token) (r : option (list token)) : option (list token) :=
  match r with Some ts => Some (t :: ts) | None => None end.

Fixpoint tokenize (fuel : nat) (s : text) : option (list token) :=
  match fuel with
  | O => None
  | S fuel' =>
      match s with
      | [] => Some []
      | c :: s1 =>
          if is_json_ws c then tokenize fuel' s1
          else if c =? 123 then map_tokens TLBrace (tokenize fuel' s1)
          else if c =? 125 then map_tokens TRBrace (tokenize fuel' s1)
          else if c =? 91 then map_tokens TLBrack (tokenize fuel' s1)
          else if c =? 93 then map_tokens TRBrack (tokenize fuel' s1)
          else if c =? 58 then map_tokens TColon (tokenize fuel' s1)
          else if c =? 44 then map_tokens TComma (tokenize fuel' s1)
          else if c =? 34 then
            match scanstring s1 with
            | Some (str, r) => map_tokens (TStr str) (tokenize fuel' r)
            | None => None
            end
          else
            match scan_keyword s with
            | Some (t, r) => map_tokens t (tokenize fuel' r)
            | None => None
            end
      end
  end.

Fixpoint parse_value (fuel : nat) (ts : list token) : option (json * list token) :=
  match fuel with
  | O => None
  | S f =>
      match ts with
      | TNull :: r => Some (JNull, r)
      | TTrue :: r => Some (JBool true, r)
      | TFalse :: r => Some (JBool false, r)
      | TNum n :: r => Some (JNum n, r)
      | TStr s :: r => Some (JStr s, r)
      | TLBrack :: TRBrack :: r => Some (JArr [], r)
      | TLBrack :: r => parse_elements f r []
      | TLBrace :: TRBrace :: r => Some (JObj [], r)
      | TLBrace :: r => parse_members f r []
      | _ => None
      end
  end
with parse_elements (fuel : nat) (ts : list token) (acc : list json)
  : option (json * list token) :=
  match fuel with
  | O => None
  | S f =>
      match parse_value f ts with
      | Some (v, TComma :: r) => parse_elements f r (v :: acc)
      | Some (v, TRBrack :: r) => Some (JArr (rev (v :: acc)), r)
      | _ => None
      end
  end
with parse_members (fuel : nat) (ts : list token) (acc : list (text * json))
  : option (json * list token) :=
  match fuel with
  | O => None
  | S f =>
      match ts with
      | TStr k :: TColon :: r =>
          match parse_value f r with
          | Some (v, TComma :: r') => parse_members f r' ((k, v) :: acc)
          | Some (v, TRBrace :: r') =>
              Some (JObj (dict_of_pairs (rev ((k, v) :: acc))), r')
          | _ => None
          end
      | _ => None
      end
  end.

Definition json_loads (s : text) : result json :=
  match tokenize (S (length s)) s with
  | None => Raise JSONDecodeError
  | Some ts =>
      match parse_value (2 * length ts + 2) ts with
      | Some (v, []) => Ok v
      | _ => Raise JSONDecodeError
      end
  end.

(** ** Regular expressions

    The fragment of Python's [re] used by the sources, with its backtracking
    semantics: alternatives are tried in priority order (a greedy repetition
    takes as much as it can first, a lazy one as little), the first complete
    match wins, and a capturing group records the text it spanned. *)

Inductive regex :=
| Lit (l : text)
| Cls (p : N -> bool)
| Rep (greedy : bool) (at_least_one : bool) (p : N -> bool)
| Opt (r : regex)
| Seq (r1 r2 : regex)
| Alt (r1 r2 : regex)
| Group (r : regex)
| Look (r : regex)
| Dollar.

Definition captures := list text.

Fixpoint rep {R} (greedy : bool) (p : N -> bool) (s : text) (k : text -> option R)
  : option R :=
  match s with
  | c :: s' =>
      if p c then
        if greedy then
          match rep greedy p s' k with Some r => Some r | None => k s end
        else
          match k s with Some r => Some r | None => rep greedy p s' k end
      else k s
  | [] => k []
  end.

(** [$] without [re.MULTILINE]: the end of the text, or just before a line
    feed that ends the text. *)
Definition at_end (s : text) : bool :=
  match s with
  | [] => true
  | [c] => c =? 10
  | _ => false
  end.

Fixpoint rmatch (r : regex) (s : text) (caps : captures)
  (k : text -> captures -> option (text * captures)) : option (text * captures) :=
  match r with
  | Lit l => if starts_with l s then k (skipn (length l) s) caps else None
  | Cls p =>
      match s with
      | c :: s' => if p c then k s' caps else None
      | [] => None
      end
  | Rep greedy true p =>
      match s with
      | c :: s' => if p c then rep greedy p s' (fun s'' => k s'' caps) else None
      | [] => None
      end
  | Rep greedy false p => rep greedy p s (fun s'' => k s'' caps)
  | Opt r1 =>
      match rmatch r1 s caps k with
      | Some m => Some m
      | None => k s caps
      end
  | Seq r1 r2 => rmatch r1 s caps (fun s' caps' => rmatch r2 s' caps' k)
  | Alt r1 r2 =>
      match rmatch r1 s caps k with
      | Some m => Some m
      | None => rmatch r2 s caps k
      end
  | Look r1 =>
      match rmatch r1 s caps (fun _ caps' => Some (s, caps')) with
      | Some (_, caps') => k s caps'
      | None => None
      end
  | Group r1 =>
      rmatch r1 s caps
        (fun s' caps' => k s' (caps' ++ [firstn (length s - length s') s]))
  | Dollar => if at_end s then k s caps else None
  end.

(** A match starting at the head of [s]: the text left and the groups. *)
Definition match_here (r : regex) (s : text) : option (text * captures) :=
  rmatch r s [] (fun s' caps => Some (s', caps)).

(** [re.findall]: the groups of the successive leftmost matches; [skip]
    counts the characters still covered by the previous match.  (None of the
    patterns below matches the empty text.) *)
Fixpoint findall_from (r : regex) (s : text) (skip : nat) : list captures :=
  match s with
  | [] =>
      match skip, match_here r [] with
      | O, Some (_, caps) => [caps]
      | _, _ => []
      end
  | _ :: s' =>
      match skip with
      | S n => findall_from r s' n
      | O =>
          match match_here r s with
          | Some (rest, caps) =>
              caps :: findall_from r s' (length s - length rest - 1)
          | None => findall_from r s' 0
          end
      end
  end.

Definition findall (r : regex) (s : text) : list captures := findall_from r s 0.

(** [re.search]: the text spanned by the leftmost match. *)
Fixpoint search (r : regex) (s : text) : option text :=
  match match_here r s with
  | Some (rest, _) => Some (firstn (length s - length rest) s)
  | None =>
      match s with
      | [] => None
      | _ :: s' => search r s'
      end
  end.

(** [re.sub] with a constant replacement. *)
Fixpoint sub_from (r : regex) (repl : text) (s : text) (skip : nat) : text :=
  match s with
  | [] => []
  | c :: s' =>
      match skip with
      | S n => sub_from r repl s' n
      | O =>
          match match_here r s with
          | Some (rest, _) => repl ++ sub_from r repl s' (length s - length rest - 1)
          | None => c :: sub_from r repl s' 0
          end
      end
  end.

Definition re_sub (r : regex) (repl : text) (s : text) : text := sub_from r repl s 0.

Definition group1 (caps : captures) : text := nth 0%nat caps [].
Definition group2 (caps : captures) : text := nth 1%nat caps [].

(** *** Character classes *)

(** [\s] on a [str]: the Unicode white space. *)
Definition is_space (c : N) : bool :=
  ((9 <=? c) && (c <=? 13)) || ((28 <=? c) && (c <=? 32))
  || (c =? 133) || (c =? 160) || (c =? 5760)
  || ((8192 <=? c) && (c <=? 8202))
  || (c =? 8232) || (c =? 8233) || (c =? 8239) || (c =? 8287) || (c =? 12288).

Definition is_ascii_alpha (c : N) : bool :=
  ((65 <=? c) && (c <=? 90)) || ((97 <=? c) && (c <=? 122)).

(** [.] with [re.DOTALL], and without it. *)
Definition any_char (c : N) : bool := true.
Definition not_newline (c : N) : bool := negb (c =? 10).

Section Extraction.

(** The Unicode character database beyond ASCII is a table of the Python
    interpreter: which code points from 128 on are alphanumeric, and which
    are decimal digits (with their value). *)
Variable unicode_alnum : N -> bool.
Variable unicode_decimal : N -> option N.

(** [\w] *)
Definition is_word (c : N) : bool :=
  if c <? 128 then is_ascii_alpha c || is_digit09 c || (c =? 95)
  else unicode_alnum c.

Definition decimal_value (c : N) : option N :=
  if c <? 128 then (if is_digit09 c then Some (c - 48) else None)
  else unicode_decimal c.

(** [\d] *)
Definition is_decimal (c : N) : bool :=
  match decimal_value c with Some _ => true | None => false end.

(** *** The patterns of the sources *)

Definition fence : text := py "```".

(** Fence, optional word, white space, lazy group, white space, fence;
    compiled with [re.DOTALL]. *)
Definition code_block_pattern : regex :=
  Seq (Lit fence)
 (Seq (Opt (Rep true true is_word))
 (Seq (Rep true false is_space)
 (Seq (Group (Rep false false any_char))
 (Seq (Rep true false is_space)
      (Lit fence))))).

(** [<answer>(.*?)</answer>] with [re.DOTALL]. *)
Definition answer_pattern : regex :=
  Seq (Lit (py "<answer>"))
 (Seq (Group (Rep false false any_char))
      (Lit (py "</answer>"))).

(** [[^\s$]]: neither white space nor a dollar sign. *)
Definition label_char (c : N) : bool := negb (is_space c) && negb (c =? 36).

(** [bbox2d\s+([^\s$]+?)\s*$(.*?)$], compiled without flags: both [$] are
    end-of-text anchors. *)
Definition bbox2d_pattern : regex :=
  Seq (Lit (py "bbox2d"))
 (Seq (Rep true true is_space)
 (Seq (Group (Rep false true label_char))
 (Seq (Rep true false is_space)
 (Seq Dollar
 (Seq (Group (Rep false false not_newline))
      Dollar))))).

(** [(\d+(?:\.\d+)?)] *)
Definition coord_pattern : regex :=
  Group (Seq (Rep true true is_decimal)
             (Opt (Seq (Lit [46]) (Rep true true is_decimal)))).

(** *** [extract_bbox_data]

    [convert_vlm_r1_ovd_to_xlabel.extract_bbox_data] and
    [ChatbotDialog._extract_bbox_data] are the same code. *)

Definition is_detection (item : json) : bool :=
  match item with
  | JObj d => dict_has (py "bbox_2d") d && dict_has (py "label") d
  | _ => false
  end.

(** The block every stage runs on a decoded value: the detections of a
    list, or the value itself when it is a detection. *)
Definition collect (data : json) : list json :=
  match data with
  | JArr items => filter is_detection items
  | JObj _ => if is_detection data then [data] else []
  | _ => []
  end.

Definition try_loads (s : text) (otherwise : result (list json)) : result (list json) :=
  except_JSONDecodeError (data <- json_loads s ;; Ok (collect data)) otherwise.

(** The loop over code blocks: the first block that decodes is used and
    ends the loop. *)
Fixpoint first_block (blocks : list text) : result (list json) :=
  match blocks with
  | [] => Ok []
  | block :: rest => try_loads block (first_block rest)
  end.

Definition code_blocks (s : text) : list text :=
  map group1 (findall code_block_pattern s).

Definition is_empty {A} (l : list A) : bool :=
  match l with [] => true | _ => false end.

(** The loop over answer tags. *)
Fixpoint first_answer (answers : list text) : result (list json) :=
  match answers with
  | [] => Ok []
  | a :: rest =>
      try_loads a
        (found <- first_block (code_blocks a) ;;
         if is_empty found then first_answer rest else Ok found)
  end.

(** [len] *)
Definition py_len (v : json) : result nat :=
  match v with
  | JArr l => Ok (length l)
  | JObj d => Ok (length d)
  | JStr s => Ok (length s)
  | _ => Raise TypeError
  end.

Definition decimal_digits (s : text) : Z :=
  fold_left
    (fun acc c =>
       match decimal_value c with
       | Some d => (10 * acc + Z.of_N d)%Z
       | None => acc
       end) s 0%Z.

(** [float] on the decimal literals that [coord_pattern] produces (digits,
    optionally a dot and digits); any other text is rejected here. *)
Definition py_float (s : text) : result number :=
  match span is_decimal s with
  | ([], _) => Raise ValueError
  | (ip, []) => Ok (PyFloat (inject_Z (decimal_digits ip)))
  | (ip, c :: fp) =>
      if (c =? 46) && negb (is_empty fp) && forallb is_decimal fp then
        Ok (PyFloat (Qred (inject_Z (decimal_digits (ip ++ fp))
                           * pow10 (- Z.of_nat (length fp)))))
      else Raise ValueError
  end.

Fixpoint map_result {A B} (f : A -> result B) (l : list A) : result (list B) :=
  match l with
  | [] => Ok []
  | x :: l' => y <- f x ;; ys <- map_result f l' ;; Ok (y :: ys)
  end.

(** The dictionary built by the last stage. *)
Definition detection (label : text) (coords : json) : json :=
  JObj [(py "label", JStr label); (py "bbox_2d", coords)].

(** One iteration of the last stage's loop over the matches. *)
Definition bbox2d_match (bbox_data : list json) (label coords_str : text)
  : result (list json) :=
  except_JSONDecodeError
    (coords <- json_loads (py "[" ++ coords_str ++ py "]") ;;
     n <- py_len coords ;;
     if (n =? 4)%nat then Ok (bbox_data ++ [detection label coords])
     else Ok bbox_data)
    (let coord_matches := map group1 (findall coord_pattern coords_str) in
     if (length coord_matches =? 4)%nat then
       coords <- map_result py_float coord_matches ;;
       Ok (bbox_data ++ [detection label (JArr (map JNum coords))])
     else Ok bbox_data).

Fixpoint bbox2d_matches (bbox_data : list json) (matches : list captures)
  : result (list json) :=
  match matches with
  | [] => Ok bbox_data
  | m :: rest =>
      bbox_data' <- bbox2d_match bbox_data (group1 m) (group2 m) ;;
      bbox2d_matches bbox_data' rest
  end.

(** The four stages; each is run only while [bbox_data] is still empty. *)
Definition stage1 (assistant_content : text) : result (list json) :=
  try_loads assistant_content (Ok []).

Definition stage2 (assistant_content : text) : result (list json) :=
  first_block (code_blocks assistant_content).

Definition stage3 (assistant_content : text) : result (list json) :=
  first_answer (map group1 (findall answer_pattern assistant_content)).

Definition stage4 (assistant_content : text) : result (list json) :=
  bbox2d_matches [] (findall bbox2d_pattern assistant_content).

Definition unless_found (bbox_data : list json) (stage : result (list json))
  : result (list json) :=
  if is_empty bbox_data then stage else Ok bbox_data.

Definition extract_bbox_data (assistant_content : text) : result (list json) :=
  bbox_data <- stage1 assistant_content ;;
  bbox_data <- unless_found bbox_data (stage2 assistant_content) ;;
  bbox_data <- unless_found bbox_data (stage3 assistant_content) ;;
  unless_found bbox_data (stage4 assistant_content).

End Extraction.

(** The document of the first testable property, and its record. *)
Definition cat_json : text := pyq "{'label':'cat','bbox_2d':[10,20,30,40]}".

Definition cat_record : json :=
  JObj [(py "label", JStr (py "cat"));
        (py "bbox_2d",
         JArr [JNum (PyInt 10); JNum (PyInt 20); JNum (PyInt 30); JNum (PyInt 40)])].

(** A fenced code block: fence, language tag, white space, body, white
    space, fence. *)
Definition fenced (lang ws1 body ws2 : text) : text :=
  fence ++ lang ++ ws1 ++ body ++ ws2 ++ fence.

(** No fence starts inside [before] when a fence follows it. *)
Definition opens_no_fence (before : text) : bool :=
  negb (contains fence (before ++ [96; 96])).

(** ** Arithmetic on Python numbers *)

(** [a < b]; every comparison with [NaN] is false. *)
Definition num_lt (a b : number) : bool :=
  match a, b with
  | PyNaN, _ | _, PyNaN => false
  | PyInf true, PyInf true => false
  | PyInf true, _ => true
  | _, PyInf true => false
  | PyInf false, _ => false
  | _, PyInf false => true
  | PyInt x, PyInt y => (x <? y)%Z
  | PyInt x, PyFloat q => negb (Qle_bool q (inject_Z x))
  | PyFloat p, PyInt y => negb (Qle_bool (inject_Z y) p)
  | PyFloat p, PyFloat q => negb (Qle_bool q p)
  end.

(** [a <= b] *)
Definition num_le (a b : number) : bool :=
  match a, b with
  | PyNaN, _ | _, PyNaN => false
  | PyInf true, _ => true
  | _, PyInf false => true
  | _, PyInf true => false
  | PyInf false, _ => false
  | PyInt x, PyInt y => (x <=? y)%Z
  | PyInt x, PyFloat q => Qle_bool (inject_Z x) q
  | PyFloat p, PyInt y => Qle_bool p (inject_Z y)
  | PyFloat p, PyFloat q => Qle_bool p q
  end.

(** [min(a, b)] returns [a] unless [b < a]; [max(a, b)] returns [a] unless
    [b > a]. *)
Definition py_min (a b : number) : number := if num_lt b a then b else a.
Definition py_max (a b : number) : number := if num_lt a b then b else a.

(** [a * n] for an [int] [n]; a float product is the exact product. *)
Definition num_mul (a : number) (n : Z) : number :=
  match a with
  | PyInt x => PyInt (x * n)
  | PyFloat q => PyFloat (Qred (q * inject_Z n))
  | PyNaN => PyNaN
  | PyInf neg =>
      if (n =? 0)%Z then PyNaN
      else if (0 <? n)%Z then PyInf neg else PyInf (negb neg)
  end.

(** ** Shapes of the annotation document

    Of a shape dictionary the label, the points and the shape type are kept;
    its other fields are constants. *)

Record shape := {
  label : json;
  points : list (number * number);
  shape_type : text
}.

Definition rectangle (lbl : json) (pts : list (number * number)) : shape :=
  {| label := lbl; points := pts; shape_type := py "rectangle" |}.

(** *** [convert_entry_to_xlabel] (stand-alone converter), loop body *)

Definition convert_entry_to_xlabel_shape (lbl : json) (x1 y1 x2 y2 : number)
  (image_width image_height : Z) : shape :=
  let x1 := py_max (PyInt 0) (py_min x1 (PyInt image_width)) in
  let y1 := py_max (PyInt 0) (py_min y1 (PyInt image_height)) in
  let x2 := py_max (PyInt 0) (py_min x2 (PyInt image_width)) in
  let y2 := py_max (PyInt 0) (py_min y2 (PyInt image_height)) in
  let xmin := py_min x1 x2 in
  let xmax := py_max x1 x2 in
  let ymin := py_min y1 y2 in
  let ymax := py_max y1 y2 in
  rectangle lbl [(xmin, ymin); (xmax, ymin); (xmax, ymax); (xmin, ymax)].

(** *** [ChatbotDialog._convert_vlm_r1_ovd_entry_to_xlabel], loop body *)

Definition is_normalized (coord : number) : bool :=
  num_le (PyInt 0) coord && num_le coord (PyInt 1).

Definition convert_vlm_r1_ovd_entry_shape (lbl : json) (bbox : list number)
  (image_width image_height : Z) : option shape :=
  match bbox with
  | [b0; b1; b2; b3] =>
      let '(x1, y1, x2, y2) :=
        if forallb is_normalized bbox then
          (num_mul b0 image_width, num_mul b1 image_height,
           num_mul b2 image_width, num_mul b3 image_height)
        else (b0, b1, b2, b3) in
      let x1 := py_max (PyInt 0) (py_min (PyInt image_width) x1) in
      let y1 := py_max (PyInt 0) (py_min (PyInt image_height) y1) in
      let x2 := py_max (PyInt 0) (py_min (PyInt image_width) x2) in
      let y2 := py_max (PyInt 0) (py_min (PyInt image_height) y2) in
      Some (rectangle lbl [(x1, y1); (x2, y1); (x2, y2); (x1, y2)])
  | _ => None
  end.

(** *** [ChatbotDialog.generate_xlabel_from_assistant_response], loop body *)

Definition generate_xlabel_from_assistant_response_shape (lbl : json) (x1 y1 x2 y2 : number)
  (image_width image_height : Z) : shape :=
  let x1 := py_max (PyInt 0) (py_min x1 (PyInt image_width)) in
  let y1 := py_max (PyInt 0) (py_min y1 (PyInt image_height)) in
  let x2 := py_max (PyInt 0) (py_min x2 (PyInt image_width)) in
  let y2 := py_max (PyInt 0) (py_min y2 (PyInt image_height)) in
  rectangle lbl [(x1, y1); (x2, y1); (x2, y2); (x1, y2)].

(** The default image size of the three functions. *)
Definition default_width : Z := 1024.
Definition default_height : Z := 538.

(** ** [QwenVL.postprocess] (Qwen-VL service) *)

Definition brace_pattern : regex :=
  Seq (Lit (py "{")) (Seq (Rep true false any_char) (Lit (py "}"))).

Definition bracket_pattern : regex :=
  Seq (Lit (py "[")) (Seq (Rep true false any_char) (Lit (py "]"))).

Definition loads_or_none (s : text) : option json :=
  match json_loads s with
  | Ok v => Some v
  | Raise _ => None
  end.

(** [extract_json_from_response]: every exception gives [None]. *)
Definition extract_json_from_response (response_text : text) : option json :=
  match search brace_pattern response_text with
  | Some m => loads_or_none m
  | None =>
      match search bracket_pattern response_text with
      | Some m => loads_or_none m
      | None => None
      end
  end.

(** Truth value of a decoded value. *)
Definition truthy (v : json) : bool :=
  match v with
  | JNull => false
  | JBool b => b
  | JNum (PyInt z) => negb (z =? 0)%Z
  | JNum (PyFloat q) => negb (Qeq_bool q 0)
  | JNum _ => true
  | JStr s => negb (is_empty s)
  | JArr l => negb (is_empty l)
  | JObj d => negb (is_empty d)
  end.

(** [d.get(k, default)] *)
Definition get_default (k : string) (default : json) (d : dict) : json :=
  match dict_get (py k) d with
  | Some v => v
  | None => default
  end.

(** Iterating a decoded value: the items of a list, the keys of a dict, the
    characters of a string; anything else is not iterable. *)
Definition py_iter (v : json) : result (list json) :=
  match v with
  | JArr l => Ok l
  | JObj d => Ok (map (fun kv => JStr (fst kv)) d)
  | JStr s => Ok (map (fun c => JStr [c]) s)
  | _ => Raise TypeError
  end.

(** An argument of [QPointF]: a number (a [bool] is an [int]). *)
Definition as_real (v : json) : result number :=
  match v with
  | JNum n => Ok n
  | JBool b => Ok (PyInt (Z.b2z b))
  | _ => Raise TypeError
  end.

Definition qpoint (x y : json) : result (number * number) :=
  a <- as_real x ;; b <- as_real y ;; Ok (a, b).

(** The state of a loop that appends to [shapes] inside the function's
    [try]: an exception leaves the loop with the shapes appended so far. *)
Inductive progress := Going (shapes : list shape) | Stopped (shapes : list shape).

Definition shapes_of (p : progress) : list shape :=
  match p with Going l => l | Stopped l => l end.

Definition append_shape (shapes : list shape) (r : result shape) : progress :=
  match r with
  | Ok sh => Going (shapes ++ [sh])
  | Raise _ => Stopped shapes
  end.

Definition object_label (obj : dict) : json :=
  get_default "label"
    (get_default "class" (get_default "category" (JStr (py "object")) obj) obj) obj.

Definition object_bbox (obj : dict) : json :=
  get_default "bbox"
    (get_default "bounding_box" (get_default "box" JNull obj) obj) obj.

Definition object_points (obj : dict) : json :=
  get_default "points"
    (get_default "landmarks" (get_default "keypoints" JNull obj) obj) obj.

(** The corners read from a truthy [bbox]; [None] is the [continue]. *)
Definition bbox_corners (bbox : json) : option (json * json * json * json) :=
  match bbox with
  | JArr [xmin; ymin; xmax; ymax] => Some (xmin, ymin, xmax, ymax)
  | JObj b =>
      Some (get_default "xmin" (get_default "x1" (JNum (PyInt 0)) b) b,
            get_default "ymin" (get_default "y1" (JNum (PyInt 0)) b) b,
            get_default "xmax" (get_default "x2" (JNum (PyInt 0)) b) b,
            get_default "ymax" (get_default "y2" (JNum (PyInt 0)) b) b)
  | _ => None
  end.

Definition point_shape (lbl x y : json) : result shape :=
  p <- qpoint x y ;;
  Ok {| label := lbl; points := [p]; shape_type := py "point" |}.

Definition add_point_data (p : progress) (point_data : json) : progress :=
  match p with
  | Stopped _ => p
  | Going shapes =>
      match point_data with
      | JObj d =>
          append_shape shapes
            (point_shape (get_default "label" (JStr (py "point")) d)
               (get_default "x" (JNum (PyInt 0)) d)
               (get_default "y" (JNum (PyInt 0)) d))
      | JArr [x; y] => append_shape shapes (point_shape (JStr (py "point")) x y)
      | _ => p
      end
  end.

Definition add_points (shapes : list shape) (obj : dict) : progress :=
  let pts := object_points obj in
  if truthy pts then
    match pts with
    | JArr l => fold_left add_point_data l (Going shapes)
    | _ => Going shapes
    end
  else Going shapes.

(** One iteration of the loop over [objects]. *)
Definition add_object (p : progress) (obj : json) : progress :=
  match p with
  | Stopped _ => p
  | Going shapes =>
      match obj with
      | JObj d =>
          let lbl := object_label d in
          let bbox := object_bbox d in
          if truthy bbox then
            match bbox_corners bbox with
            | None => Going shapes
            | Some (xmin, ymin, xmax, ymax) =>
                match
                  append_shape shapes
                    (p1 <- qpoint xmin ymin ;;
                     p2 <- qpoint xmax ymax ;;
                     Ok (rectangle lbl [p1; p2]))
                with
                | Going shapes' => add_points shapes' d
                | stopped => stopped
                end
            end
          else add_points shapes d
      | _ => p
      end
  end.

Section Postprocess.

(** [str] of a decoded value (used for the label of a classification). *)
Variable py_str : json -> text.

(** The shapes made from the decoded response. *)
Definition postprocess_data (response_data : json) (image_width image_height : Z)
  : list shape :=
  let run (objects : json) :=
    match py_iter objects with
    | Ok l => shapes_of (fold_left add_object l (Going []))
    | Raise _ => []
    end in
  match response_data with
  | JObj d =>
      if dict_has (py "objects") d then run (get_default "objects" JNull d)
      else if dict_has (py "results") d then run (get_default "results" JNull d)
      else if dict_has (py "detections") d then run (get_default "detections" JNull d)
      else if dict_has (py "categories") d then
        let category :=
          get_default "category" (get_default "categories" JNull d) d in
        if truthy category then
          [rectangle (JStr (py_str category))
             [(PyInt 0, PyInt 0); (PyInt image_width, PyInt image_height)]]
        else []
      else run (JArr [response_data])
  | JArr _ => run response_data
  | _ => []
  end.

Definition postprocess (response_text : text) (image_width image_height : Z)
  : list shape :=
  match extract_json_from_response response_text with
  | None => []
  | Some response_data =>
      if truthy response_data
      then postprocess_data response_data image_width image_height
      else []
  end.

End Postprocess.

(** ** The chat dialog: history and streaming turns *)

Inductive role := System | User | Assistant.

Record message := {
  msg_role : role;
  msg_content : text;
  msg_image : option text
}.

(** The foreground state of [ChatbotDialog] that a turn reads and writes.
    [loading_message] is [None] when there is no loading widget, and
    otherwise holds the text of its [content_label] if that label exists. *)
Record dialog := {
  chat_history : list message;
  loading_message : option (option text);
  streaming : bool;
  filename : option text
}.

(** [@image\s*(?=\S|$)] *)
Definition image_token_pattern : regex :=
  Seq (Lit (py "@image"))
 (Seq (Rep true false is_space)
      (Look (Alt (Cls (fun c => negb (is_space c))) Dollar))).

Fixpoint lstrip (s : text) : text :=
  match s with
  | c :: s' => if is_space c then lstrip s' else s
  | [] => []
  end.

(** [str.strip] *)
Definition strip (s : text) : text := rev (lstrip (rev (lstrip s))).

(** [add_message], as far as the history goes. *)
Definition add_message (r : role) (content : text) (delete_last_message : bool)
  (d : dialog) : dialog :=
  let '(content, image) :=
    match r with
    | User =>
        if contains (py "@image") content || contains (py "<image>") content
        then (strip (re_sub image_token_pattern (py "<image>") content), filename d)
        else (content, None)
    | _ => (content, None)
    end in
  {| chat_history :=
       if delete_last_message then removelast (chat_history d)
       else chat_history d ++
            [{| msg_role := r; msg_content := content; msg_image := image |}];
     loading_message := loading_message d;
     streaming := streaming d;
     filename := filename d |}.

Definition set_loading_message (l : option (option text)) (d : dialog) : dialog :=
  {| chat_history := chat_history d; loading_message := l;
     streaming := streaming d; filename := filename d |}.

Definition set_streaming (b : bool) (d : dialog) : dialog :=
  {| chat_history := chat_history d; loading_message := loading_message d;
     streaming := b; filename := filename d |}.

(** The signals of the stream handler, queued to the foreground. *)
Inductive signal :=
| TextUpdate (t : text)
| Finished (success : bool)
| Loading (is_loading : bool)
| ErrorOccurred (error_message : text).

(** [update_output] *)
Definition update_output (t : text) (d : dialog) : dialog :=
  match loading_message d with
  | Some lbl =>
      let current_text := match lbl with Some c => c | None => [] end in
      set_loading_message (Some (Some (current_text ++ t))) d
  | None => d
  end.

(** [on_stream_finished], as far as the dialog state goes (on success it
    also saves the history and writes the annotation file, see below). *)
Definition on_stream_finished (success : bool) (d : dialog) : dialog :=
  let d :=
    match success, loading_message d with
    | true, Some lbl =>
        let final_text := match lbl with Some c => c | None => [] end in
        add_message Assistant final_text false (set_loading_message None d)
    | _, _ => d
    end in
  set_streaming false d.

(** [handle_error] *)
Definition handle_error (error_message : text) (d : dialog) : dialog :=
  match loading_message d with
  | Some _ =>
      add_message Assistant (py "Error: " ++ error_message) true
        (set_loading_message None d)
  | None => d
  end.

(** The slot connected to each signal. *)
Definition deliver (sg : signal) (d : dialog) : dialog :=
  match sg with
  | TextUpdate t => update_output t d
  | Finished success => on_stream_finished success d
  | ErrorOccurred m => handle_error m d
  | Loading _ => d
  end.

(** What the model-access client yields: chunks, each with an optional
    [delta.content], until the stream ends or raises. *)
Inductive response :=
| Chunk (content : option text) (rest : response)
| EndOfStream
| Failure (error : text).

(** The position of the worker thread inside [stream_generation]. *)
Inductive worker_pc :=
| WStart (r : response)
| WNext (r : response)
| WCheck (content : option text) (rest : response)
| WAppend (content : text) (rest : response)
| WEmitFinished
| WStopLoading
| WReportError (error : text)
| WEmitFailed
| WDone.

(** The position of the thread running [check_for_cancellation]. *)
Inductive poller_pc :=
| PNotStarted
| PPoll
| PSeen
| PReportError
| PEmitFailed
| PStopLoading
| PDone.

(** Modelled from the spec: the stream handler class ([StreamingHandler],
    module [anylabeling.views.labeling.chatbot]) is not among the sources.
    Following the session state and the channel of the specification, it
    holds the accumulated text and the stop flag; [append_text] adds a chunk
    to the accumulated text and sends it, [report_error] sends the error
    message, [reset] clears text and flag, and every signal emitted is
    queued, in order, for the foreground.  [emitted] and [delivered] log
    the signals sent by the threads and handled by the foreground. *)
Record system := {
  gui : dialog;
  current_message : text;
  stop_requested : bool;
  queue : list signal;
  emitted : list signal;
  delivered : list signal;
  worker : worker_pc;
  poller : poller_pc
}.

(** Modelled from the spec: emitting a signal of the stream handler
    ([StreamingHandler] is not among the sources) puts it on the channel. *)
Definition emit (sg : signal) (st : system) : system :=
  {| gui := gui st; current_message := current_message st;
     stop_requested := stop_requested st;
     queue := queue st ++ [sg]; emitted := emitted st ++ [sg];
     delivered := delivered st;
     worker := worker st; poller := poller st |}.

Definition set_worker (w : worker_pc) (st : system) : system :=
  {| gui := gui st; current_message := current_message st;
     stop_requested := stop_requested st; queue := queue st;
     emitted := emitted st; delivered := delivered st;
     worker := w; poller := poller st |}.

Definition set_poller (p : poller_pc) (st : system) : system :=
  {| gui := gui st; current_message := current_message st;
     stop_requested := stop_requested st; queue := queue st;
     emitted := emitted st; delivered := delivered st;
     worker := worker st; poller := p |}.

(** Modelled from the spec: [StreamingHandler.append_text] (not among the
    sources) adds the chunk to the accumulated text and sends it. *)
Definition append_text (t : text) (st : system) : system :=
  emit (TextUpdate t)
    {| gui := gui st; current_message := current_message st ++ t;
       stop_requested := stop_requested st; queue := queue st;
       emitted := emitted st; delivered := delivered st;
       worker := worker st; poller := poller st |}.

(** Modelled from the spec: [StreamingHandler.report_error] (not among the
    sources) sends the error message. *)
Definition report_error (m : text) (st : system) : system :=
  emit (ErrorOccurred m) st.

Definition cancelled_by_user : text := py "Request cancelled by user".

(** One step of the worker thread in [stream_generation]. *)
Definition stream_generation_step (st : system) : system :=
  match worker st with
  | WStart r => set_worker (WNext r) (set_poller PPoll (emit (Loading true) st))
  | WNext (Chunk c rest) => set_worker (WCheck c rest) st
  | WNext EndOfStream => set_worker WEmitFinished st
  | WNext (Failure e) => set_worker (WReportError e) st
  | WCheck c rest =>
      if stop_requested st then set_worker WEmitFinished st
      else
        match c with
        | Some (x :: t) => set_worker (WAppend (x :: t) rest) st
        | _ => set_worker (WNext rest) st
        end
  | WAppend t rest => set_worker (WNext rest) (append_text t st)
  | WEmitFinished => set_worker WStopLoading (emit (Finished true) st)
  | WStopLoading => set_worker WDone (emit (Loading false) st)
  | WReportError e => set_worker WEmitFailed (report_error e st)
  | WEmitFailed => set_worker WDone (emit (Finished false) st)
  | WDone => st
  end.

(** One step of [check_for_cancellation]. *)
Definition check_for_cancellation_step (st : system) : system :=
  match poller st with
  | PNotStarted => st
  | PPoll => if stop_requested st then set_poller PSeen st else st
  | PSeen =>
      if is_empty (current_message st) then set_poller PReportError st
      else set_poller PEmitFailed st
  | PReportError => set_poller PEmitFailed (report_error cancelled_by_user st)
  | PEmitFailed => set_poller PStopLoading (emit (Finished false) st)
  | PStopLoading => set_poller PDone (emit (Loading false) st)
  | PDone => st
  end.

(** [stop_generation], the slot of the stop button. *)
Definition stop_generation (st : system) : system :=
  {| gui := gui st; current_message := current_message st;
     stop_requested := true; queue := queue st; emitted := emitted st;
     delivered := delivered st; worker := worker st; poller := poller st |}.

(** The foreground event loop takes the oldest queued signal. *)
Definition foreground_step (st : system) : system :=
  match queue st with
  | [] => st
  | sg :: q =>
      {| gui := deliver sg (gui st); current_message := current_message st;
         stop_requested := stop_requested st; queue := q;
         emitted := emitted st; delivered := delivered st ++ [sg];
         worker := worker st; poller := poller st |}
  end.

(** [start_generation] with the user's text and the response the client
    will produce; [None] when the call returns at once. *)
Definition start_generation (user_input : text) (r : response) (d : dialog)
  : option system :=
  if streaming d then None
  else
    let user_message := strip user_input in
    if is_empty user_message then None
    else
      let d := add_message User user_message false d in
      let d := set_streaming true d in
      let d := set_loading_message (Some None) d in
      Some {| gui := d; current_message := []; stop_requested := false;
              queue := []; emitted := []; delivered := [];
              worker := WStart r; poller := PNotStarted |}.

(** Who moves next; a schedule is one interleaving of a turn. *)
Inductive actor := WorkerThread | PollerThread | StopButton | Foreground.

Definition step (a : actor) (st : system) : system :=
  match a with
  | WorkerThread => stream_generation_step st
  | PollerThread => check_for_cancellation_step st
  | StopButton => stop_generation st
  | Foreground => foreground_step st
  end.

Definition run (schedule : list actor) (st : system) : system :=
  fold_left (fun s a => step a s) schedule st.

(** ** Writing annotation documents *)

(** The files of the output directory: path to content. *)
Abbreviation files := (gmap text text).

(** [write k]: the device accepts [k] more writes and then fails; [None]
    is a device that does not fail. *)
Definition budget := option nat.

(** [f.write(chunk)] for every chunk, on the file [open(path, 'w')] gave. *)
Fixpoint write_chunks (fs : files) (path : text) (chunks : list text) (b : budget)
  : files * result unit :=
  match chunks with
  | [] => (fs, Ok tt)
  | chunk :: rest =>
      match b with
      | Some O => (fs, Raise OSError)
      | _ =>
          let content := default [] (fs !! path) in
          write_chunks (<[path := content ++ chunk]> fs) path rest
            (option_map Nat.pred b)
      end
  end.

(** [with open(path, 'w') as f: <write chunks>]: opening for writing
    truncates the file. *)
Definition open_w_and_write (fs : files) (path : text) (chunks : list text) (b : budget)
  : files * result unit :=
  write_chunks (<[path := []]> fs) path chunks b.

Section Encoder.

(** [float.__repr__] of a finite float. *)
Variable float_repr : Q -> text.

Definition int_repr (z : Z) : text := py (NilEmpty.string_of_int (Z.to_int z)).

Definition number_repr (n : number) : text :=
  match n with
  | PyInt z => int_repr z
  | PyFloat q => float_repr q
  | PyNaN => py "NaN"
  | PyInf false => py "Infinity"
  | PyInf true => py "-Infinity"
  end.

Definition hex_digit (n : N) : N := if n <? 10 then 48 + n else 87 + n.

(** [ESCAPE_DCT] of [json.encoder], for [ensure_ascii=False]. *)
Definition escape_char (c : N) : text :=
  if c =? 92 then [92; 92]
  else if c =? 34 then [92; 34]
  else if c =? 8 then [92; 98]
  else if c =? 12 then [92; 102]
  else if c =? 10 then [92; 110]
  else if c =? 13 then [92; 114]
  else if c =? 9 then [92; 116]
  else if c <? 32 then [92; 117; 48; 48; hex_digit (c / 16); hex_digit (c mod 16)]
  else [c].

(** [encode_basestring] *)
Definition encode_basestring (s : text) : text :=
  [34] ++ flat_map escape_char s ++ [34].

Definition newline_indent (level : nat) : text := [10] ++ repeat 32 (2 * level)%nat.

(** The chunks [json.dump(o, f, ensure_ascii=False, indent=2)] writes: the
    generator of [json.encoder._make_iterencode]. *)
Fixpoint iterencode (level : nat) (o : json) : list text :=
  match o with
  | JNull => [py "null"]
  | JBool true => [py "true"]
  | JBool false => [py "false"]
  | JNum n => [number_repr n]
  | JStr s => [encode_basestring s]
  | JArr [] => [py "[]"]
  | JArr (first :: others) =>
      let sep := py "," ++ newline_indent (S level) in
      let item (buf : text) (v : json) : list text :=
        match v with
        | JArr _ | JObj _ => buf :: iterencode (S level) v
        | _ => [buf ++ concat (iterencode (S level) v)]
        end in
      item (py "[" ++ newline_indent (S level)) first
      ++ (fix rest (l : list json) : list text :=
            match l with
            | [] => []
            | v :: l' => item sep v ++ rest l'
            end) others
      ++ [newline_indent level; py "]"]
  | JObj [] => [py "{}"]
  | JObj ((k0, v0) :: others) =>
      let sep := py "," ++ newline_indent (S level) in
      [py "{"; newline_indent (S level)]
      ++ [encode_basestring k0; py ": "] ++ iterencode (S level) v0
      ++ (fix rest (l : list (text * json)) : list text :=
            match l with
            | [] => []
            | (k, v) :: l' =>
                [sep; encode_basestring k; py ": "] ++ iterencode (S level) v ++ rest l'
            end) others
      ++ [newline_indent level; py "}"]
  end.

(** [json.dump(data, f, ensure_ascii=False, indent=2)] inside
    [with open(path, 'w', encoding='utf-8') as f]. *)
Definition dump_to_path (fs : files) (path : text) (data : json) (b : budget)
  : files * result unit :=
  open_w_and_write fs path (iterencode 0 data) b.

Definition message_json (m : message) : json :=
  JObj [(py "role",
         JStr (match msg_role m with
               | System => py "system" | User => py "user"
               | Assistant => py "assistant" end));
        (py "content", JStr (msg_content m));
        (py "image", match msg_image m with Some i => JStr i | None => JNull end)].

(** [save_chat_history_with_prefix], given the path of the prefixed file
    and the history kept in the parent's [other_data].  Every exception is
    logged and dropped, so the files are all that remains. *)
Definition updated_document (fs : files) (chatbot_filepath : text)
  (history : list message) : result json :=
  loaded <- match fs !! chatbot_filepath with
            | Some content => json_loads content
            | None => Ok (JObj [])
            end ;;
  match loaded with
  | JObj label_file_data =>
      Ok (JObj (dict_set (py "chat_history") (JArr (map message_json history))
                  label_file_data))
  | _ => Raise TypeError
  end.

Definition save_chat_history_with_prefix (fs : files) (chatbot_filepath : text)
  (history : list message) (b : budget) : files :=
  match updated_document fs chatbot_filepath history with
  | Ok data => fst (dump_to_path fs chatbot_filepath data b)
  | Raise _ => fs
  end.

End Encoder.

(** ** Predicates and data of the statements *)

(** [lo <= x <= hi] *)
Definition within (lo hi x : number) : bool := num_le lo x && num_le x hi.

Definition in_image (w h : Z) (p : number * number) : Prop :=
  within (PyInt 0) (PyInt w) (fst p) = true /\
  within (PyInt 0) (PyInt h) (snd p) = true.

Definition half : number := PyFloat (1 # 2).
Definition one : number := PyFloat 1.

Definition turn (user_input : text) (r : response) (schedule : list actor) (d : dialog)
  : option system :=
  option_map (run schedule) (start_generation user_input r d).

(** The text of the chunks among some signals, in order. *)
Definition chunks_of (l : list signal) : text :=
  flat_map (fun sg => match sg with TextUpdate t => t | _ => [] end) l.

Definition empty_dialog : dialog :=
  {| chat_history := []; loading_message := None; streaming := false;
     filename := Some (py "cat.png") |}.

Definition two_chunks : response :=
  Chunk (Some (py "Hel")) (Chunk (Some (py "lo")) EndOfStream).

Definition user_says (t : string) : message :=
  {| msg_role := User; msg_content := py t; msg_image := None |}.

Definition assistant_says (t : string) : message :=
  {| msg_role := Assistant; msg_content := py t; msg_image := None |}.

(** The worker accumulates the first chunk, the user presses stop, the
    poller sees the flag and emits its terminal signal, then the worker
    gets the second chunk, sees the flag, leaves the loop and emits its
    own; the foreground handles every signal. *)
Definition stop_after_first_chunk : list actor :=
  [WorkerThread; WorkerThread; WorkerThread; WorkerThread;
   Foreground; Foreground;
   StopButton;
   PollerThread; PollerThread; PollerThread; PollerThread;
   Foreground; Foreground;
   WorkerThread; WorkerThread; WorkerThread; WorkerThread;
   Foreground; Foreground].

(** The user presses stop while the worker still waits for the first chunk;
    the chunk arrives and the worker, which tests the flag at every chunk,
    sees it before the poller, which tests it every 100 ms. *)
Definition stop_before_first_chunk_worker_first : list actor :=
  [WorkerThread; Foreground;
   StopButton;
   WorkerThread; WorkerThread; WorkerThread; WorkerThread;
   Foreground; Foreground;
   PollerThread; PollerThread; PollerThread; PollerThread; PollerThread;
   Foreground; Foreground; Foreground].

(** The same, with the poller seeing the flag first. *)
Definition stop_before_first_chunk_poller_first : list actor :=
  [WorkerThread; Foreground;
   StopButton;
   PollerThread; PollerThread; PollerThread; PollerThread; PollerThread;
   Foreground; Foreground; Foreground;
   WorkerThread; WorkerThread; WorkerThread; WorkerThread;
   Foreground; Foreground].

(** How many chunks a device with budget [b] takes. *)
Definition accepted (b : budget) (chunks : list text) : nat :=
  match b with
  | None => length chunks
  | Some k => Nat.min k (length chunks)
  end.

Definition completes (b : budget) (chunks : list text) : bool :=
  match b with
  | None => true
  | Some k => (length chunks <=? k)%nat
  end.

(** The claim of an atomic write, for one call of
    [save_chat_history_with_prefix]: afterwards the target holds the whole
    new document or what it held before. *)
Definition atomic_save (float_repr : Q -> text) (fs : files) (path : text)
  (history : list message) (b : budget) : Prop :=
  forall data,
    updated_document fs path history = Ok data ->
    let fs' := save_chat_history_with_prefix float_repr fs path history b in
    fs' !! path = Some (concat (iterencode float_repr 0 data)) \/
    fs' !! path = fs !! path.

Definition saved_before : files :=
  {[ py "chatbot_cat.json" := pyq "{'version': '4.0', 'shapes': [], 'chat_history': []}" ]}.

Definition lacks (keys : list text) (d : dict) : Prop :=
  Forall (fun k => dict_get k d = None) keys.

Definition box_and_point_keys : list text :=
  [py "bbox"; py "bounding_box"; py "box"; py "points"; py "landmarks"; py "keypoints"].

Definition stops_at {A} (p : A -> bool) (s : list A) : Prop :=
  match s with
  | c :: _ => p c = false
  | [] => True
  end.

(** [P] holds of every non-empty tail of [a]. *)
Fixpoint all_tails (P : text -> Prop) (a : text) : Prop :=
  match a with
  | [] => True
  | _ :: a' => P a /\ all_tails P a'
  end.

(** Text in which every double quote is the second character of a
    backslash pair. *)
Inductive escaped : text -> Prop :=
| escaped_nil : escaped []
| escaped_plain (c : N) (p : text) : c <> 34 -> escaped p -> escaped (c :: p)
| escaped_pair (e : N) (p : text) : escaped p -> escaped (92 :: e :: p).

Definition not_quote_nor_backslash (c : N) : Prop := c <> 34 /\ c <> 92.

Definition no_backquote (c : N) : Prop := c <> 96.

Definition plain (c : N) : Prop := is_space c = false /\ c <> 96.

Definition cat_json_tail : text := pyq "label':'cat','bbox_2d':[10,20,30,40]}".

(** ** Further predicates and data of the statements *)

(** A record the callers can index with both keys. *)
Definition has_box_and_label (item : json) : Prop :=
  exists d box lbl,
    item = JObj d /\
    dict_get (py "bbox_2d") d = Some box /\ dict_get (py "label") d = Some lbl.

(** [a == b] on numbers. *)
Definition num_eqb (a b : number) : bool := num_le a b && num_le b a.

(** The foreground handling some signals one after the other. *)
Definition handle (signals : list signal) (d : dialog) : dialog :=
  fold_left (fun d sg => deliver sg d) signals d.

(** The text of the loading message's label, empty while it has none. *)
Definition label_text (lbl : option text) : text :=
  match lbl with Some c => c | None => [] end.

Definition assistant_message (content : text) : message :=
  {| msg_role := Assistant; msg_content := content; msg_image := None |}.

(** The chunks of a response that carry text, and how the response ends. *)
Fixpoint contents (r : response) : list text :=
  match r with
  | Chunk (Some (x :: t)) rest => (x :: t) :: contents rest
  | Chunk _ rest => contents rest
  | EndOfStream | Failure _ => []
  end.

Fixpoint outcome (r : response) : option text :=
  match r with
  | Chunk _ rest => outcome rest
  | EndOfStream => None
  | Failure e => Some e
  end.

Definition closing (o : option text) : list signal :=
  match o with
  | None => [Finished true; Loading false]
  | Some e => [ErrorOccurred e; Finished false]
  end.

(** What [stream_generation] sends when nobody asks it to stop. *)
Definition signals_of (r : response) : list signal :=
  Loading true :: map TextUpdate (contents r) ++ closing (outcome r).

(** What the worker has still to send from where it stands. *)
Definition pending (w : worker_pc) : list signal :=
  match w with
  | WStart r => signals_of r
  | WNext r => map TextUpdate (contents r) ++ closing (outcome r)
  | WCheck c rest => map TextUpdate (contents (Chunk c rest)) ++ closing (outcome rest)
  | WAppend t rest => TextUpdate t :: map TextUpdate (contents rest) ++ closing (outcome rest)
  | WEmitFinished => [Finished true; Loading false]
  | WStopLoading => [Loading false]
  | WReportError e => [ErrorOccurred e; Finished false]
  | WEmitFailed => [Finished false]
  | WDone => []
  end.

(** How many steps the worker has still to take. *)
Fixpoint steps_from_next (r : response) : nat :=
  match r with
  | Chunk (Some (_ :: _)) rest => 3 + steps_from_next rest
  | Chunk _ rest => 2 + steps_from_next rest
  | EndOfStream | Failure _ => 3
  end.

Definition steps_left (w : worker_pc) : nat :=
  match w with
  | WStart r => 1 + steps_from_next r
  | WNext r => steps_from_next r
  | WCheck (Some (_ :: _)) rest => 2 + steps_from_next rest
  | WCheck _ rest => 1 + steps_from_next rest
  | WAppend _ rest => 1 + steps_from_next rest
  | WEmitFinished => 2
  | WStopLoading => 1
  | WReportError _ => 2
  | WEmitFailed => 1
  | WDone => 0
  end.

Definition is_terminal (sg : signal) : bool :=
  match sg with Finished _ => true | _ => false end.

(** The worker runs to its end, then the foreground empties the channel. *)
Definition worker_then_foreground (r : response) : list actor :=
  repeat WorkerThread (steps_left (WStart r))
  ++ repeat Foreground (length (signals_of r)).

(** The state of a turn in which nobody has pressed the stop button: the
    flag is down, the poller waits, the worker has sent what it had to send
    so far, the channel is first-in first-out and the dialog has handled
    what was delivered. *)
Definition unstopped (r : response) (d0 : dialog) (st : system) : Prop :=
  stop_requested st = false /\
  (poller st = PNotStarted \/ poller st = PPoll) /\
  emitted st ++ pending (worker st) = signals_of r /\
  emitted st = delivered st ++ queue st /\
  gui st = handle (delivered st) d0.

Definition image_token : text := py "@image".
Definition image_tag : text := py "<image>".

Definition user_message (content : text) (image : option text) : message :=
  {| msg_role := User; msg_content := content; msg_image := image |}.

(** The rectangle of an object of the response that has a box of four
    numbers and no points. *)
Definition plain_box (obj : json) : option shape :=
  match obj with
  | JObj d =>
      match object_bbox d with
      | JArr [JNum a; JNum b; JNum c; JNum e] =>
          if truthy (object_points d) then None
          else Some (rectangle (object_label d) [(a, b); (c, e)])
      | _ => None
      end
  | _ => None
  end.

(** An object whose box has four entries, one of them not a number. *)
Definition broken_box (obj : json) : bool :=
  match obj with
  | JObj d =>
      match object_bbox d with
      | JArr [x1; y1; x2; y2] =>
          match map_result as_real [x1; y1; x2; y2] with
          | Raise _ => true
          | Ok _ => false
          end
      | _ => false
      end
  | _ => false
  end.

(** An opening character, a greedy [.*] with [re.DOTALL], a closing
    character: the shape of [brace_pattern] and [bracket_pattern]. *)
Definition delimited (o c : N) : regex :=
  Seq (Lit [o]) (Seq (Rep true false any_char) (Lit [c])).

(** Objects with a box, for the statements. *)
Definition box_object (lbl : string) (x1 y1 x2 y2 : json) : json :=
  JObj [(py "label", JStr (py lbl)); (py "bbox", JArr [x1; y1; x2; y2])].

(** The tokens of a value, as the decoder reads them back. *)
Fixpoint tokens (v : json) : list token :=
  match v with
  | JNull => [TNull]
  | JBool true => [TTrue]
  | JBool false => [TFalse]
  | JNum n => [TNum n]
  | JStr s => [TStr s]
  | JArr [] => [TLBrack; TRBrack]
  | JArr (first :: others) =>
      TLBrack :: tokens first
      ++ flat_map (fun v => TComma :: tokens v) others ++ [TRBrack]
  | JObj [] => [TLBrace; TRBrace]
  | JObj ((k0, v0) :: others) =>
      TLBrace :: TStr k0 :: TColon :: tokens v0
      ++ flat_map (fun kv => TComma :: TStr (fst kv) :: TColon :: tokens (snd kv)) others
      ++ [TRBrace]
  end.

Fixpoint distinct (keys : list text) : bool :=
  match keys with
  | [] => true
  | k :: keys' => negb (existsb (text_eqb k) keys') && distinct keys'
  end.

(** Values whose objects have distinct keys and that hold no finite float
    (of a finite float only its [repr] is written, and floats are idealised
    here). *)
Fixpoint plain_value (v : json) : bool :=
  match v with
  | JNum (PyFloat _) => false
  | JArr items => forallb plain_value items
  | JObj d => distinct (map fst d) && forallb (fun kv => plain_value (snd kv)) d
  | _ => true
  end.

(** Text after which a number literal is over. *)
Definition ends_number (rest : text) : bool :=
  match rest with
  | [] => true
  | c :: _ => negb (is_digit09 c) && negb (c =? 46) && negb (c =? 101) && negb (c =? 69)
  end.

Definition tokenizes (s : text) (ts : list token) : Prop :=
  exists fuel, tokenize fuel s = Some ts.

Definition parses (ts : list token) (v : json) (r : list token) : Prop :=
  exists f0, forall f, (f0 <= f)%nat -> parse_value f ts = Some (v, r).

(** The characters of a decimal numeral. *)
Fixpoint digit_chars (d : Decimal.uint) : text :=
  match d with
  | Decimal.Nil => []
  | Decimal.D0 l => 48 :: digit_chars l
  | Decimal.D1 l => 49 :: digit_chars l
  | Decimal.D2 l => 50 :: digit_chars l
  | Decimal.D3 l => 51 :: digit_chars l
  | Decimal.D4 l => 52 :: digit_chars l
  | Decimal.D5 l => 53 :: digit_chars l
  | Decimal.D6 l => 54 :: digit_chars l
  | Decimal.D7 l => 55 :: digit_chars l
  | Decimal.D8 l => 56 :: digit_chars l
  | Decimal.D9 l => 57 :: digit_chars l
  end.

Definition digit_step (acc : Z) (c : N) : Z := (10 * acc + (Z.of_N c - 48))%Z.

(** The one-character tokens. *)
Definition punctuation (c : N) : option token :=
  if c =? 123 then Some TLBrace
  else if c =? 125 then Some TRBrace
  else if c =? 91 then Some TLBrack
  else if c =? 93 then Some TRBrack
  else if c =? 58 then Some TColon
  else if c =? 44 then Some TComma
  else None.

Definition separator (level : nat) : text := py "," ++ newline_indent (S level).

Section Encoded.

Variable float_repr : Q -> text.

(** The text [json.dump] writes. *)
Definition encoded (level : nat) (v : json) : text :=
  concat (iterencode float_repr level v).

(** What the tokenizer makes of the text written for a value, whatever
    follows it. *)
Definition reads_back (v : json) : Prop :=
  plain_value v = true ->
  forall (level : nat) (rest : text) (ts : list token),
    ends_number rest = true -> tokenizes rest ts ->
    tokenizes (encoded level v ++ rest) (tokens v ++ ts).

End Encoded.

(** What the parser makes of the tokens of a value, whatever follows them. *)
Definition parses_back (v : json) : Prop :=
  plain_value v = true -> forall r, parses (tokens v ++ r) v r.

(** What the target of a save holds, decoded; no file is an empty object. *)
Definition stored_document (fs : files) (path : text) : result json :=
  match fs !! path with
  | Some content => json_loads content
  | None => Ok (JObj [])
  end.

Definition history_json (history : list message) : json :=
  JArr (map message_json history).

(** A document with nested values, an escaped quote, a line feed and a
    character beyond ASCII. *)
Definition sample_document : json :=
  JObj [(py "version", JStr (py "4.0"));
        (py "flags", JObj []);
        (py "shapes",
         JArr [JObj [(py "label", JStr (pyq "the 'cat'" ++ [10; 29483]));
                     (py "points",
                      JArr [JArr [JNum (PyInt 10); JNum (PyInt (-20))];
                            JArr [JNum (PyInt 0); JNum PyNaN]]);
                     (py "group_id", JNull);
                     (py "difficult", JBool false)]]);
        (py "imageWidth", JNum (PyInt 1024))].

(** The characters number literals and keywords are made of. *)
Definition literal_char (c : N) : bool :=
  is_digit09 c || is_ascii_alpha c || (c =? 43) || (c =? 45) || (c =? 46).

(** The character after a number literal is none of [.], [e] and [E]. *)
Definition ends_literal (r : text) : bool :=
  match r with
  | c :: _ => negb ((c =? 46) || (c =? 101) || (c =? 69))
  | [] => false
  end.

(** ** The history as a shared list object

    [self.chat_history] and [self.parent().other_data["chat_history"]] are
    references to Python lists: [append] changes the list object in place,
    a slice makes a new object, and an assignment copies the reference.
    [lists] holds the list objects by address; [message_widgets] counts the
    [ChatMessage] widgets of [chat_messages_layout], which
    [clear_messages_after] uses as indices into the history. *)
Module Shared.

Record state := {
  lists : list (list message);
  self_chat_history : nat;
  other_chat_history : option nat;
  message_widgets : nat;
  parent_filename : option text
}.

Definition the_list (s : state) (a : nat) : list message :=
  default [] (lists s !! a).

(** [self.chat_history] *)
Definition history (s : state) : list message := the_list s (self_chat_history s).

(** [self.parent().other_data["chat_history"]], when the key is set. *)
Definition parent_history (s : state) : option (list message) :=
  option_map (the_list s) (other_chat_history s).

(** Truth value of [self.parent().filename]. *)
Definition has_filename (s : state) : bool :=
  match parent_filename s with
  | Some (_ :: _) => true
  | _ => false
  end.

(** The dictionary [add_message] stores for a message. *)
Definition new_message (r : role) (content : text) (image_file : option text) : message :=
  let '(content, image) :=
    match r with
    | User =>
        if contains (py "@image") content || contains (py "<image>") content
        then (strip (re_sub image_token_pattern (py "<image>") content), image_file)
        else (content, None)
    | _ => (content, None)
    end in
  {| msg_role := r; msg_content := content; msg_image := image |}.

Definition is_assistant (r : role) : bool :=
  match r with Assistant => true | _ => false end.

(** [add_message]: one more widget in every case; the history is appended
    to in place, or replaced by a slice of itself; an assistant message
    that is stored makes [other_data] refer to the list of the dialog. *)
Definition add_message (r : role) (content : text) (delete_last_message : bool)
  (s : state) : state :=
  let s1 :=
    if delete_last_message then
      {| lists := lists s ++ [removelast (history s)];
         self_chat_history := length (lists s);
         other_chat_history := other_chat_history s;
         message_widgets := S (message_widgets s);
         parent_filename := parent_filename s |}
    else
      {| lists := <[self_chat_history s :=
                      history s ++ [new_message r content (parent_filename s)]]>
                    (lists s);
         self_chat_history := self_chat_history s;
         other_chat_history := other_chat_history s;
         message_widgets := S (message_widgets s);
         parent_filename := parent_filename s |} in
  if is_assistant r && has_filename s && negb delete_last_message then
    {| lists := lists s1;
       self_chat_history := self_chat_history s1;
       other_chat_history := Some (self_chat_history s1);
       message_widgets := message_widgets s1;
       parent_filename := parent_filename s1 |}
  else s1.

(** [clear_messages_after]: the widgets from [index] on are removed, and if
    there was one, the history becomes its slice [[:index]]. *)
Definition clear_messages_after (index : nat) (s : state) : state :=
  if (index <? message_widgets s)%nat then
    {| lists := lists s ++ [firstn index (history s)];
       self_chat_history := length (lists s);
       other_chat_history := other_chat_history s;
       message_widgets := index;
       parent_filename := parent_filename s |}
  else s.

(** [clear_conversation], once confirmed. *)
Definition clear_conversation (s : state) : state :=
  if has_filename s then
    {| lists := lists s ++ [[]; []];
       self_chat_history := length (lists s);
       other_chat_history := Some (S (length (lists s)));
       message_widgets := 0;
       parent_filename := parent_filename s |}
  else
    {| lists := lists s ++ [[]];
       self_chat_history := length (lists s);
       other_chat_history := other_chat_history s;
       message_widgets := 0;
       parent_filename := parent_filename s |}.

(** A turn of the dialog, as the calls of [add_message] it makes:
    [start_generation] adds the question, then [on_stream_finished] adds the
    answer, or [handle_error] adds the error message and rolls back. *)
Definition answered_turn (question answer : text) (s : state) : state :=
  add_message Assistant answer false (add_message User question false s).

Definition failed_turn (question error_message : text) (s : state) : state :=
  add_message Assistant (py "Error: " ++ error_message) true
    (add_message User question false s).

(** The dialog state of the value model that a state stands for. *)
Definition view (s : state) (loading : option (option text)) (busy : bool) : dialog :=
  {| chat_history := history s; loading_message := loading; streaming := busy;
     filename := parent_filename s |}.

(** Every reference points to a list object. *)
Definition allocated (s : state) : Prop :=
  (self_chat_history s < length (lists s))%nat /\
  match other_chat_history s with
  | Some a => (a < length (lists s))%nat
  | None => True
  end.

(** The widgets and the messages of the history correspond one to one. *)
Definition in_step (s : state) : Prop :=
  message_widgets s = length (history s).

End Shared.

(** A dialog just opened on an image, for the statements. *)
Definition sample_state : Shared.state :=
  {| Shared.lists := [[]]; Shared.self_chat_history := 0;
     Shared.other_chat_history := None; Shared.message_widgets := 0;
     Shared.parent_filename := Some (py "cat.png") |}.

(** ** [ChatbotDialog.navigate_image] *)

(** [list.index]: the first position of [x]; [None] stands for the
    [ValueError]. *)
Fixpoint list_index (x : text) (l : list text) : option nat :=
  match l with
  | [] => None
  | y :: l' => if text_eqb x y then Some 0%nat else option_map S (list_index x l')
  end.

(** [l[i]], a negative index counting from the end; [None] stands for the
    [IndexError]. *)
Definition getitem {A} (l : list A) (i : Z) : option A :=
  if (0 <=? i)%Z then nth_error l (Z.to_nat i)
  else if (- Z.of_nat (length l) <=? i)%Z
       then nth_error l (Z.to_nat (i + Z.of_nat (length l)))
       else None.

(** [navigate_image]: the file handed to [load_file], if any.  Every
    exception is logged and dropped. *)
Definition navigate_image (image_list : list text) (filename : option text)
  (direction : text) (index : option Z) : option text :=
  if is_empty image_list then None
  else
    match index with
    | None =>
        match filename with
        | None => None
        | Some f =>
            match list_index f image_list with
            | None => None
            | Some current_index =>
                if text_eqb direction (py "prev") && (0 <? current_index)%nat
                then getitem image_list (Z.of_nat current_index - 1)
                else if text_eqb direction (py "next")
                        && (current_index <? length image_list - 1)%nat
                     then getitem image_list (Z.of_nat current_index + 1)
                     else None
            end
        end
    | Some new_index => getitem image_list new_index
    end.


(** ** [export_dataset] and [import_dataset]: the records *)

(** The loop of [export_dataset] over the [chat_history] of a label file:
    the messages and the images of its record.  [None] stands for the
    exception a message that is no object raises; the file is then passed
    over. *)
Fixpoint export_messages (chat_history : list json) (image_filename : text)
  (messages : list json) (images : list text) : option (list json * list text) :=
  match chat_history with
  | [] => Some (messages, images)
  | JObj msg :: rest =>
      let message :=
        JObj [(py "role", get_default "role" JNull msg);
              (py "content", get_default "content" JNull msg)] in
      let rel_path := py "images/" ++ image_filename in
      let images :=
        if truthy (get_default "image" JNull msg)
           && negb (existsb (text_eqb rel_path) images)
        then images ++ [rel_path] else images in
      export_messages rest image_filename (messages ++ [message]) images
  | _ :: _ => None
  end.

Definition is_str (s : text) (v : json) : bool :=
  match v with
  | JStr t => text_eqb t s
  | _ => false
  end.

(** [needle in container] for a string [needle]: a substring of a string,
    an item of a list, a key of an object; [None] stands for the
    [TypeError] of the other values. *)
Definition py_in (needle : text) (container : json) : option bool :=
  match container with
  | JStr s => Some (contains needle s)
  | JArr l => Some (existsb (is_str needle) l)
  | JObj d => Some (dict_has needle d)
  | _ => None
  end.

(** The loop of [import_dataset] over the messages of a record: the chat
    history written to the label file of the image.  [None] stands for the
    exception that ends the import. *)
Fixpoint import_chat_history (messages : list json) (local_image_path : text)
  : option (list json) :=
  match messages with
  | [] => Some []
  | JObj msg :: rest =>
      let role := get_default "role" (JStr []) msg in
      let content := get_default "content" (JStr []) msg in
      let image :=
        if is_str (py "user") role then
          match py_in (py "<image>") content with
          | Some true => Some (JStr local_image_path)
          | Some false => Some JNull
          | None => None
          end
        else Some JNull in
      match image, import_chat_history rest local_image_path with
      | Some image, Some chat_history =>
          Some (JObj [(py "role", role); (py "content", content); (py "image", image)]
                :: chat_history)
      | _, _ => None
      end
  | _ :: _ => None
  end.

(** [if not messages or not images: continue]: the records [import_dataset]
    takes. *)
Definition imported (messages images : json) : bool :=
  truthy messages && truthy images.

Definition role_name (r : role) : text :=
  match r with
  | System => py "system"
  | User => py "user"
  | Assistant => py "assistant"
  end.

(** What [export_dataset] keeps of a message. *)
Definition exported_message (m : message) : json :=
  JObj [(py "role", JStr (role_name (msg_role m))); (py "content", JStr (msg_content m))].

(** A message with an image to show. *)
Definition shows_image (m : message) : bool :=
  match msg_image m with
  | Some (_ :: _) => true
  | _ => false
  end.

(** The message [import_dataset] makes of an exported message. *)
Definition reattached (local_image_path : text) (m : message) : message :=
  {| msg_role := msg_role m;
     msg_content := msg_content m;
     msg_image :=
       match msg_role m with
       | User => if contains (py "<image>") (msg_content m)
                 then Some local_image_path else None
       | _ => None
       end |}.


(** ** [generate_vlm_r1_ovd_from_chat_history]: the entries of the JSONL file *)

(** The loop that reads the existing entries, given the lines of the file:
    blank lines are passed over, and the first line that [json.loads]
    refuses ends the reading with the entries read so far, the exception
    being caught outside the loop. *)
Fixpoint read_entries (lines : list text) : list json :=
  match lines with
  | [] => []
  | line :: rest =>
      if is_empty (strip line) then read_entries rest
      else
        match json_loads (strip line) with
        | Ok entry => entry :: read_entries rest
        | Raise _ => []
        end
  end.

(** [existing_entry.get("image") == image_name]; [None] stands for the
    exception an entry that is no object raises. *)
Definition is_entry_of (image_name : text) (existing_entry : json) : option bool :=
  match existing_entry with
  | JObj d => Some (is_str image_name (get_default "image" JNull d))
  | _ => None
  end.

(** The loop that replaces the first entry of the image: the entries and
    [entry_found]. *)
Fixpoint replace_entry (existing_entries : list json) (image_name : text) (entry : json)
  : option (list json * bool) :=
  match existing_entries with
  | [] => Some ([], false)
  | existing_entry :: rest =>
      match is_entry_of image_name existing_entry with
      | None => None
      | Some true => Some (entry :: rest, true)
      | Some false =>
          match replace_entry rest image_name entry with
          | Some (entries, entry_found) => Some (existing_entry :: entries, entry_found)
          | None => None
          end
      end
  end.

(** The entries written back to the file; [None] when an exception ends
    the function before the file is written. *)
Definition updated_entries (existing_entries : list json) (image_name : text)
  (entry : json) : option (list json) :=
  match replace_entry existing_entries image_name entry with
  | Some (entries, true) => Some entries
  | Some (entries, false) => Some (entries ++ [entry])
  | None => None
  end.

(** The entry of an image. *)
Definition vlm_r1_ovd_entry (image_name : text) (conversations : list json) : json :=
  JObj [(py "id", JNum (PyInt 1)); (py "image", JStr image_name);
        (py "conversations", JArr conversations)].

Definition is_object (v : json) : bool :=
  match v with
  | JObj _ => true
  | _ => false
  end.

(** The entries of an image, and the others. *)
Definition entry_of (image_name : text) (e : json) : bool :=
  match is_entry_of image_name e with
  | Some b => b
  | None => false
  end.


(** The conversation [generate_vlm_r1_ovd_from_chat_history] makes of a
    message of the chat history; [None] stands for the exception a message
    that is no object raises. *)
Definition conversation_of (msg : json) : option json :=
  match msg with
  | JObj d =>
      let role := get_default "role" (JStr []) d in
      let content := get_default "content" (JStr []) d in
      let from_role :=
        if is_str (py "user") role then JStr (py "human")
        else if is_str (py "assistant") role then JStr (py "assistant")
        else role in
      Some (JObj [(py "from", from_role); (py "value", content)])
  | _ => None
  end.

Fixpoint conversations_of (chat_history : list json) : option (list json) :=
  match chat_history with
  | [] => Some []
  | msg :: rest =>
      match conversation_of msg, conversations_of rest with
      | Some conv, Some conversations => Some (conv :: conversations)
      | _, _ => None
      end
  end.

(** The loop of the converters over the conversations of an entry: the
    value of the first conversation that is from the assistant, the empty
    string if there is none. *)
Fixpoint assistant_content (conversations : list json) : option json :=
  match conversations with
  | [] => Some (JStr [])
  | JObj conv :: rest =>
      if is_str (py "assistant") (get_default "from" JNull conv)
      then Some (get_default "value" (JStr []) conv)
      else assistant_content rest
  | _ :: _ => None
  end.

(** The first answer of a history. *)
Definition first_answer_of (history : list message) : text :=
  match find (fun m => match msg_role m with Assistant => true | _ => false end) history with
  | Some m => msg_content m
  | None => []
  end.

(** ** Answers in a fenced block or in an answer tag *)

(** The first character of the text that is no JSON white space is an
    opening bracket or brace. *)
Fixpoint opens_container (s : text) : bool :=
  match s with
  | c :: s' => if is_json_ws c then opens_container s' else (c =? 91) || (c =? 123)
  | [] => false
  end.

(** A body the pattern of code blocks captures whole: it starts with
    neither a word character nor white space, does not end with white
    space, and holds no backquote. *)
Definition fits_block (unicode_alnum : N -> bool) (body : text) : bool :=
  match body with
  | c :: _ => negb (is_word unicode_alnum c) && negb (is_space c)
  | [] => false
  end
  && negb (is_space (last body 0))
  && forallb (fun c => negb (c =? 96)) body.

Definition answer_open : text := py "<answer>".
Definition answer_close : text := py "</answer>".

(** No opening tag starts inside [before] when an opening tag follows it,
    and no closing tag inside [body] when a closing tag follows it. *)
Definition opens_no_answer (before : text) : bool :=
  negb (contains answer_open (before ++ py "<answer")).

Definition closes_no_answer (body : text) : bool :=
  negb (contains answer_close (body ++ py "</answer")).

(** A document with two detections, as a model prints it. *)
Definition two_boxes_json : text :=
  pyq "[{'label': 'cat', 'bbox_2d': [10, 20, 30, 40]}, "
  ++ pyq "{'label': 'dog', 'bbox_2d': [1, 2, 3, 4]}]".

(** * Properties *)

(** ** Coordinate conversion *)

Lemma Qle_bool_false (x y : Q) : Qle_bool x y = false -> (y < x)%Q.
Proof.
  intros H. apply Qnot_le_lt. intros Hle.
  apply Qle_bool_iff in Hle. congruence.
Qed.

Ltac num_cases :=
  repeat match goal with
         | |- context [if ?b then _ else _] => destruct b eqn:?; simpl
         | H : negb _ = true |- _ => apply negb_true_iff in H
         | H : negb _ = false |- _ => apply negb_false_iff in H
         end.

Ltac num_props :=
  repeat match goal with
         | H : Qle_bool _ _ = true |- _ => apply Qle_bool_iff in H
         | H : Qle_bool _ _ = false |- _ => apply Qle_bool_false in H
         | H : (_ <? _)%Z = true |- _ => apply Z.ltb_lt in H
         | H : (_ <? _)%Z = false |- _ => apply Z.ltb_ge in H
         | H : (_ <=? _)%Z = true |- _ => apply Z.leb_le in H
         | H : (_ <=? _)%Z = false |- _ => apply Z.leb_gt in H
         end.

Ltac num_solve :=
  try reflexivity; try discriminate;
  repeat match goal with
         | |- _ && _ = true => apply andb_true_intro; split
         | |- Qle_bool _ _ = true => apply Qle_bool_iff
         | |- (_ <=? _)%Z = true => apply Z.leb_le
         end;
  try lia; try lra.

(** [max(0, min(x, w))], the clamp of the converter and of
    [generate_xlabel_from_assistant_response]. *)
Lemma clamp_min_x_w (w : Z) (x : number) :
  (0 <= w)%Z ->
  within (PyInt 0) (PyInt w) (py_max (PyInt 0) (py_min x (PyInt w))) = true.
Proof.
  intros Hw. assert (HwQ : (inject_Z 0 <= inject_Z w)%Q) by (rewrite <- Zle_Qle; exact Hw).
  unfold within, py_max, py_min.
  destruct x as [z | q | | [|]]; simpl; num_cases; num_props; simpl;
    num_solve.
Qed.

(** [max(0, min(w, x))], the clamp of the dialog's entry conversion. *)
Lemma clamp_min_w_x (w : Z) (x : number) :
  (0 <= w)%Z ->
  within (PyInt 0) (PyInt w) (py_max (PyInt 0) (py_min (PyInt w) x)) = true.
Proof.
  intros Hw. assert (HwQ : (inject_Z 0 <= inject_Z w)%Q) by (rewrite <- Zle_Qle; exact Hw).
  unfold within, py_max, py_min.
  destruct x as [z | q | | [|]]; simpl; num_cases; num_props; simpl;
    num_solve.
Qed.

Lemma py_min_either (a b : number) : py_min a b = a \/ py_min a b = b.
Proof. unfold py_min. destruct (num_lt b a); auto. Qed.

Lemma py_max_either (a b : number) : py_max a b = a \/ py_max a b = b.
Proof. unfold py_max. destruct (num_lt a b); auto. Qed.

Lemma within_min lo hi a b :
  within lo hi a = true -> within lo hi b = true -> within lo hi (py_min a b) = true.
Proof. intros Ha Hb. destruct (py_min_either a b) as [-> | ->]; assumption. Qed.

Lemma within_max lo hi a b :
  within lo hi a = true -> within lo hi b = true -> within lo hi (py_max a b) = true.
Proof. intros Ha Hb. destruct (py_max_either a b) as [-> | ->]; assumption. Qed.

Lemma min_le_max (lo hi a b : number) :
  within lo hi a = true -> within lo hi b = true ->
  num_le (py_min a b) (py_max a b) = true.
Proof.
  unfold within, py_min, py_max. intros Ha Hb.
  apply andb_prop in Ha as [Ha1 Ha2]. apply andb_prop in Hb as [Hb1 Hb2].
  destruct a as [x | p | | [|]], b as [y | q | | [|]];
    destruct lo as [l | l | | [|]]; try discriminate;
    destruct hi as [u | u | | [|]]; try discriminate;
    simpl in *; num_cases; num_props; simpl; num_solve.
Qed.

(** What the stand-alone converter does by design: clamped corners, ordered,
    emitted top-left, top-right, bottom-right, bottom-left. *)
Lemma convert_entry_corner_order (lbl : json) (x1 y1 x2 y2 : number) (w h : Z) :
  (0 <= w)%Z -> (0 <= h)%Z ->
  exists xmin ymin xmax ymax,
    points (convert_entry_to_xlabel_shape lbl x1 y1 x2 y2 w h)
    = [(xmin, ymin); (xmax, ymin); (xmax, ymax); (xmin, ymax)]
    /\ num_le xmin xmax = true /\ num_le ymin ymax = true.
Proof.
  intros Hw Hh. unfold convert_entry_to_xlabel_shape. simpl.
  eexists _, _, _, _. split; [reflexivity |].
  split; eapply min_le_max; eauto using clamp_min_x_w.
Qed.

(** What the dialog's entry conversion does by design: a box with all four
    coordinates in [0, 1] is multiplied by the image size before the clamp. *)
Lemma dialog_entry_scales_normalized (lbl : json) (b0 b1 b2 b3 : number) (w h : Z) :
  forallb is_normalized [b0; b1; b2; b3] = true ->
  let cx v := py_max (PyInt 0) (py_min (PyInt w) v) in
  let cy v := py_max (PyInt 0) (py_min (PyInt h) v) in
  let x1 := cx (num_mul b0 w) in
  let y1 := cy (num_mul b1 h) in
  let x2 := cx (num_mul b2 w) in
  let y2 := cy (num_mul b3 h) in
  convert_vlm_r1_ovd_entry_shape lbl [b0; b1; b2; b3] w h
  = Some (rectangle lbl [(x1, y1); (x2, y1); (x2, y2); (x1, y2)]).
Proof. intros H. unfold convert_vlm_r1_ovd_entry_shape. rewrite H. reflexivity. Qed.

(** C5. For every box of four numbers, also one beyond the image or not a
    finite number, and every image size, each corner written by the three
    conversions lies in [0, width] x [0, height]. *)
Theorem shapes_within_image (lbl : json) (x1 y1 x2 y2 : number) (w h : Z) :
  (0 <= w)%Z -> (0 <= h)%Z ->
  Forall (in_image w h)
    (points (convert_entry_to_xlabel_shape lbl x1 y1 x2 y2 w h)) /\
  (exists sh, convert_vlm_r1_ovd_entry_shape lbl [x1; y1; x2; y2] w h = Some sh /\
              Forall (in_image w h) (points sh)) /\
  Forall (in_image w h)
    (points (generate_xlabel_from_assistant_response_shape lbl x1 y1 x2 y2 w h)).
Proof.
  intros Hw Hh. split; [| split].
  - unfold convert_entry_to_xlabel_shape. simpl.
    repeat constructor; simpl;
      (apply within_min || apply within_max); auto using clamp_min_x_w.
  - unfold convert_vlm_r1_ovd_entry_shape.
    destruct (forallb is_normalized [x1; y1; x2; y2]);
      (eexists; split; [reflexivity |]); simpl;
      repeat constructor; simpl; auto using clamp_min_w_x.
  - unfold generate_xlabel_from_assistant_response_shape. simpl.
    repeat constructor; simpl; auto using clamp_min_x_w.
Qed.

Lemma shapes_within_image_witness :
  (0 <= 1024)%Z /\ (0 <= 538)%Z /\
  Forall (in_image 1024 538)
    (points (convert_entry_to_xlabel_shape JNull
               (PyInt 3000) PyNaN (PyInt (-10)) (PyInf false) 1024 538)).
Proof.
  split; [lia | split; [lia |]].
  apply (shapes_within_image JNull (PyInt 3000) PyNaN (PyInt (-10)) (PyInf false)
           1024 538); lia.
Defined.

(** C4. On the box 0.5, 0.5, 1.0, 1.0 and a 1024 x 538 image the stand-alone
    converter clamps the coordinates as pixels and writes them back
    unscaled, while the dialog's conversion of the same entry writes the
    corners of 512, 269, 1024, 538. *)
Theorem convert_entry_leaves_normalized_box (lbl : json) :
  points (convert_entry_to_xlabel_shape lbl half half one one
            default_width default_height)
  = [(half, half); (one, half); (one, one); (half, one)] /\
  option_map points
    (convert_vlm_r1_ovd_entry_shape lbl [half; half; one; one]
       default_width default_height)
  = Some [(PyFloat 512, PyFloat 269); (PyInt 1024, PyFloat 269);
          (PyInt 1024, PyInt 538); (PyFloat 512, PyInt 538)].
Proof. split; reflexivity. Qed.

(** C6. On the box 30, 40, 10, 20, whose first corner is the bottom-right
    one, [generate_xlabel_from_assistant_response] and the dialog's entry
    conversion write the corners in the order given, starting bottom-right,
    while the stand-alone converter starts from the top-left corner 10, 20. *)
Theorem dialog_keeps_corner_order (lbl : json) :
  points (generate_xlabel_from_assistant_response_shape lbl
            (PyInt 30) (PyInt 40) (PyInt 10) (PyInt 20) default_width default_height)
  = [(PyInt 30, PyInt 40); (PyInt 10, PyInt 40); (PyInt 10, PyInt 20); (PyInt 30, PyInt 20)] /\
  option_map points
    (convert_vlm_r1_ovd_entry_shape lbl [PyInt 30; PyInt 40; PyInt 10; PyInt 20]
       default_width default_height)
  = Some [(PyInt 30, PyInt 40); (PyInt 10, PyInt 40); (PyInt 10, PyInt 20); (PyInt 30, PyInt 20)] /\
  points (convert_entry_to_xlabel_shape lbl (PyInt 30) (PyInt 40) (PyInt 10) (PyInt 20)
            default_width default_height)
  = [(PyInt 10, PyInt 20); (PyInt 30, PyInt 20); (PyInt 30, PyInt 40); (PyInt 10, PyInt 40)].
Proof. repeat split; reflexivity. Qed.

(** ** Streaming turns *)

(** The channel is first-in first-out: what the foreground has handled and
    what is still queued is, in order, what the threads have emitted. *)
Lemma fifo_step (a : actor) (st : system) :
  emitted st = delivered st ++ queue st ->
  emitted (step a st) = delivered (step a st) ++ queue (step a st).
Proof.
  intros H. destruct a; simpl.
  - unfold stream_generation_step.
    destruct (worker st) as [r | [c r | | e] | c r | t r | | | e | |];
      simpl; try rewrite H; try rewrite app_assoc; auto.
    destruct (stop_requested st); simpl; auto.
    destruct c as [[| x t] |]; simpl; auto.
  - unfold check_for_cancellation_step. destruct (poller st); simpl;
      try rewrite H; try rewrite app_assoc; auto.
    + destruct (stop_requested st); simpl; auto.
    + destruct (is_empty (current_message st)); simpl; auto.
  - exact H.
  - unfold foreground_step. destruct (queue st) as [| sg q] eqn:Hq; simpl.
    + rewrite Hq. exact H.
    + rewrite H. rewrite <- app_assoc. reflexivity.
Qed.

Lemma fifo_delivery (schedule : list actor) (st : system) :
  emitted st = delivered st ++ queue st ->
  emitted (run schedule st) = delivered (run schedule st) ++ queue (run schedule st).
Proof.
  revert st. induction schedule as [| a schedule IH]; intros st H; simpl.
  - exact H.
  - apply IH. apply fifo_step. exact H.
Qed.

(** The accumulated text is the text of the chunks sent so far, in order. *)
Lemma accumulated_text_step (a : actor) (st : system) :
  current_message st = chunks_of (emitted st) ->
  current_message (step a st) = chunks_of (emitted (step a st)).
Proof.
  unfold chunks_of. intros H. destruct a; simpl.
  - unfold stream_generation_step.
    destruct (worker st) as [r | [c r | | e] | c r | t r | | | e | |];
      simpl; rewrite ?flat_map_app, <- ?H; simpl; rewrite ?app_nil_r; auto.
    destruct (stop_requested st); simpl; auto.
    destruct c as [[| x t] |]; simpl; auto.
  - unfold check_for_cancellation_step. destruct (poller st); simpl;
      rewrite ?flat_map_app, <- ?H; simpl; rewrite ?app_nil_r; auto.
    + destruct (stop_requested st); simpl; auto.
    + destruct (is_empty (current_message st)); simpl; auto.
  - exact H.
  - unfold foreground_step. destruct (queue st); simpl; exact H.
Qed.

Lemma accumulated_text (schedule : list actor) (st : system) :
  current_message st = chunks_of (emitted st) ->
  current_message (run schedule st) = chunks_of (emitted (run schedule st)).
Proof.
  revert st. induction schedule as [| a schedule IH]; intros st H; simpl.
  - exact H.
  - apply IH. apply accumulated_text_step. exact H.
Qed.

(** C2. In a turn where the user stops the generation after the first
    chunk, the channel carries the failure signal of the cancellation
    poller and then the success signal of the worker: two terminal events,
    one of each kind (and the partial text is committed as the answer). *)
Theorem stop_while_streaming_two_terminals :
  exists st,
    turn (py "hi") two_chunks stop_after_first_chunk empty_dialog = Some st /\
    emitted st
    = [Loading true; TextUpdate (py "Hel"); Finished false; Loading false;
       Finished true; Loading false] /\
    In (Finished false) (emitted st) /\ In (Finished true) (emitted st) /\
    delivered st = emitted st /\
    worker st = WDone /\ poller st = PDone /\
    chat_history (gui st) = [user_says "hi"; assistant_says "Hel"].
Proof.
  eexists. split; [reflexivity |]. split; [reflexivity |].
  split; [simpl; tauto |]. split; [simpl; tauto |].
  repeat split.
Qed.

(** C3. The stop flag is raised before any chunk has arrived.  When the
    worker sees the flag first, its success signal reaches the foreground
    while the loading message is still there, and an assistant message with
    empty text is appended to the history; the cancellation error comes
    second and changes nothing.  When the poller sees it first, the history
    is rolled back to what it was before the turn. *)
Theorem stop_before_first_chunk_appends_empty_answer :
  (exists st,
     turn (py "hi") two_chunks stop_before_first_chunk_worker_first empty_dialog
     = Some st /\
     current_message st = [] /\
     delivered st
     = [Loading true; Finished true; Loading false;
        ErrorOccurred cancelled_by_user; Finished false; Loading false] /\
     queue st = [] /\ worker st = WDone /\ poller st = PDone /\
     chat_history (gui st) = [user_says "hi"; assistant_says ""]) /\
  (exists st,
     turn (py "hi") two_chunks stop_before_first_chunk_poller_first empty_dialog
     = Some st /\
     queue st = [] /\ worker st = WDone /\ poller st = PDone /\
     chat_history (gui st) = chat_history empty_dialog).
Proof. split; eexists; repeat split. Qed.

(** ** Writing annotation documents *)

Lemma write_chunks_prefix (path : text) (chunks : list text) :
  forall (fs : files) (content : text) (b : budget),
    fs !! path = Some content ->
    write_chunks fs path chunks b
    = (<[path := content ++ concat (firstn (accepted b chunks) chunks)]> fs,
       if completes b chunks then Ok tt else Raise OSError).
Proof.
  induction chunks as [| chunk rest IH]; intros fs content b Hfs.
  - simpl. destruct b as [k |]; simpl.
    + rewrite Nat.min_0_r. simpl. rewrite app_nil_r.
      rewrite (insert_id fs path content Hfs). reflexivity.
    + rewrite app_nil_r. rewrite (insert_id fs path content Hfs). reflexivity.
  - simpl. destruct b as [[| k] |]; simpl.
    + rewrite app_nil_r. rewrite (insert_id fs path content Hfs). reflexivity.
    + rewrite Hfs. simpl.
      rewrite (IH _ (content ++ chunk) (Some k)) by apply lookup_insert_eq.
      rewrite insert_insert_eq, <- app_assoc. reflexivity.
    + rewrite Hfs. simpl.
      rewrite (IH _ (content ++ chunk) None) by apply lookup_insert_eq.
      rewrite insert_insert_eq, <- app_assoc. reflexivity.
Qed.

(** C10, as amended.  Writing a document opens the target for writing,
    which empties it, and sends the chunks of the serialisation to it one
    after the other.  Whatever was at the path before, the file afterwards
    holds exactly the chunks the device took: the whole document when the
    write completes, a proper prefix of it when the device fails on the
    way; the other files are not touched.  [save_chat_history_with_prefix]
    writes its updated document in this way. *)
Theorem dump_writes_prefix_in_place (float_repr : Q -> text)
  (fs : files) (path : text) (data : json) (b : budget) :
  let chunks := iterencode float_repr 0 data in
  let fs' := fst (dump_to_path float_repr fs path data b) in
  fs' !! path = Some (concat (firstn (accepted b chunks) chunks)) /\
  (snd (dump_to_path float_repr fs path data b)
   = if completes b chunks then Ok tt else Raise OSError) /\
  (completes b chunks = true -> fs' !! path = Some (concat chunks)) /\
  (forall other, other <> path -> fs' !! other = fs !! other) /\
  (forall history,
      updated_document fs path history = Ok data ->
      save_chat_history_with_prefix float_repr fs path history b = fs').
Proof.
  intros chunks fs'. subst fs'. unfold dump_to_path, open_w_and_write.
  rewrite (write_chunks_prefix path _ _ []) by apply lookup_insert_eq.
  fold chunks. simpl. rewrite insert_insert_eq.
  repeat split.
  - apply lookup_insert_eq.
  - intros Hc. rewrite lookup_insert_eq. f_equal. f_equal.
    unfold accepted, completes in *. destruct b as [k |].
    + apply Nat.leb_le in Hc. rewrite Nat.min_r by exact Hc. apply firstn_all.
    + apply firstn_all.
  - intros other Hne. rewrite lookup_insert_ne by congruence. reflexivity.
  - intros history Hdoc. unfold save_chat_history_with_prefix. rewrite Hdoc.
    unfold dump_to_path, open_w_and_write.
    rewrite (write_chunks_prefix path _ _ []) by apply lookup_insert_eq.
    fold chunks. simpl. rewrite insert_insert_eq. reflexivity.
Qed.

Lemma dump_writes_prefix_in_place_witness :
  completes (Some 7%nat) (iterencode (fun _ => []) 0 (JObj [(py "shapes", JArr [])]))
  = true /\
  fst (dump_to_path (fun _ => []) ∅ (py "a.json") (JObj [(py "shapes", JArr [])])
         (Some 7%nat)) !! py "a.json"
  = Some (concat (iterencode (fun _ => []) 0 (JObj [(py "shapes", JArr [])]))).
Proof.
  split; [reflexivity |].
  apply (dump_writes_prefix_in_place (fun _ => []) ∅ (py "a.json")
           (JObj [(py "shapes", JArr [])]) (Some 7%nat)).
  reflexivity.
Defined.

(** A device that fails at the sixth write leaves the head of the new
    document in place of the old one. *)
Lemma save_interrupted_is_not_atomic :
  ~ atomic_save (fun _ => []) saved_before (py "chatbot_cat.json")
      [user_says "hi"] (Some 5%nat).
Proof.
  unfold atomic_save. intros H.
  specialize (H _ eq_refl). simpl in H.
  destruct H as [H | H]; vm_compute in H; discriminate H.
Qed.

(** ** Field names *)

Lemma collect_keeps_detections (data : json) :
  Forall (fun item => is_detection item = true) (collect data).
Proof.
  destruct data as [| b | n | s | items | d]; simpl; try constructor.
  - apply Forall_forall. intros item Hin. apply filter_In in Hin. tauto.
  - destruct (dict_has (py "bbox_2d") d && dict_has (py "label") d) eqn:E;
      repeat constructor. exact E.
Qed.

Lemma object_without_box_or_points (d : dict) (shapes : list shape) :
  lacks box_and_point_keys d ->
  add_object (Going shapes) (JObj d) = Going shapes.
Proof.
  unfold lacks, box_and_point_keys. intros H.
  repeat match goal with
         | H : Forall _ (_ :: _) |- _ => inversion H; subst; clear H
         end.
  unfold add_object, add_points, object_bbox, object_points, get_default.
  repeat match goal with H : dict_get _ d = None |- _ => rewrite H; clear H end.
  reflexivity.
Qed.



(** The same object read from the text of an answer. *)
Example postprocess_flexible_names :
  postprocess (fun _ => [])
    (py "Sure: " ++ pyq "{'class': 'cat', 'box': {'x1': 10, 'ymin': 20, 'xmax': 30, 'y2': 40}}")
    100 100
  = [rectangle (JStr (py "cat")) [(PyInt 10, PyInt 20); (PyInt 30, PyInt 40)]].
Proof. reflexivity. Qed.


(** ** Regular expressions *)

(** A greedy repetition followed by a continuation that accepts where the
    class ends. *)
Lemma rep_greedy_run {R} (p : N -> bool) (a rest : text) (k : text -> option R) (r : R) :
  Forall (fun c => p c = true) a -> stops_at p rest -> k rest = Some r ->
  rep true p (a ++ rest) k = Some r.
Proof.
  intros Ha Hstop Hk. induction Ha as [| c a Hc Ha IH]; simpl.
  - destruct rest as [| c rest]; simpl in *; [exact Hk |].
    rewrite Hstop. exact Hk.
  - rewrite Hc, IH. reflexivity.
Qed.

(** Whatever a repetition returns, its continuation returned it. *)
Lemma rep_result {R} (greedy : bool) (p : N -> bool) (s : text) (k : text -> option R) (r : R) :
  rep greedy p s k = Some r -> exists s', k s' = Some r.
Proof.
  induction s as [| c s IH]; simpl; intros H.
  - eauto.
  - destruct (p c); [| eauto].
    destruct greedy.
    + destruct (rep true p s k) eqn:E; [inversion H; subst; auto | eauto].
    + destruct (k (c :: s)) eqn:E; [inversion H; subst; eauto | auto].
Qed.

(** A lazy repetition whose continuation refuses every earlier stop. *)
Lemma rep_lazy_run {R} (p : N -> bool) (a rest : text) (k : text -> option R) (r : R) :
  Forall (fun c => p c = true) a ->
  all_tails (fun t => k (t ++ rest) = None) a ->
  k rest = Some r ->
  rep false p (a ++ rest) k = Some r.
Proof.
  intros Ha. induction Ha as [| c a Hc Ha IH]; simpl; intros Ht Hk.
  - destruct rest as [| c rest]; simpl; [exact Hk |].
    rewrite Hk. destruct (p c); reflexivity.
  - destruct Ht as [Hhere Ht]. simpl in Hhere. rewrite Hc, Hhere. auto.
Qed.

Lemma starts_with_app (p s : text) : starts_with p (p ++ s) = true.
Proof. induction p as [| c p IH]; simpl; [| rewrite N.eqb_refl]; auto. Qed.

Lemma starts_with_split (p s : text) :
  starts_with p s = true -> s = p ++ skipn (length p) s.
Proof.
  revert s. induction p as [| c p IH]; intros s H; simpl in *; [reflexivity |].
  destruct s as [| x s]; [discriminate |].
  apply andb_prop in H as [Hx Hs]. apply N.eqb_eq in Hx. subst x.
  simpl. f_equal. auto.
Qed.

Lemma skipn_length_app {A} (a b : list A) : skipn (length a) (a ++ b) = b.
Proof. induction a; simpl; auto. Qed.

Lemma firstn_length_diff {A} (a b : list A) :
  firstn (length (a ++ b) - length b) (a ++ b) = a.
Proof.
  rewrite length_app, Nat.add_sub. induction a; simpl; [| f_equal; auto].
  destruct b; reflexivity.
Qed.

(** The matches [re.findall] returns all satisfy what single matches do. *)
Lemma findall_from_Forall (r : regex) (P : captures -> Prop) :
  (forall s rest caps, match_here r s = Some (rest, caps) -> P caps) ->
  forall s skip, Forall P (findall_from r s skip).
Proof.
  intros H. induction s as [| c s IH]; intros skip; simpl.
  - destruct skip; [| constructor].
    destruct (match_here r []) as [[rest caps] |] eqn:E; repeat constructor.
    eapply H, E.
  - destruct skip; [| apply IH].
    destruct (match_here r (c :: s)) as [[rest caps] |] eqn:E; [| apply IH].
    constructor; [eapply H, E | apply IH].
Qed.

(** The first match is found where the first possible start is. *)
Lemma findall_first (r : regex) (before s rest : text) (caps : captures) :
  all_tails (fun t => match_here r (t ++ s) = None) before ->
  s <> [] ->
  match_here r s = Some (rest, caps) ->
  exists more, findall r (before ++ s) = caps :: more.
Proof.
  unfold findall. induction before as [| c before IH]; simpl; intros Ht Hs Hm.
  - destruct s as [| c s]; [congruence |]. simpl. rewrite Hm. eauto.
  - destruct Ht as [Hhere Ht]. simpl in Hhere. rewrite Hhere. auto.
Qed.

(** ** The last stage of the extraction *)

(** Both [$] of the pattern anchor at the end of the text, so the second
    group, which stands between them, never holds anything. *)
Lemma bbox2d_coords_empty (s rest : text) (caps : captures) :
  match_here bbox2d_pattern s = Some (rest, caps) -> group2 caps = [].
Proof.
  unfold match_here, bbox2d_pattern. cbn [rmatch].
  destruct (starts_with (py "bbox2d") s); [| discriminate].
  destruct (skipn (length (py "bbox2d")) s) as [| c s1]; [discriminate |].
  destruct (is_space c); [| discriminate].
  intros H. apply rep_result in H as [s2 H].
  destruct s2 as [| c2 s2']; [discriminate |].
  destruct (label_char c2); [| discriminate].
  apply rep_result in H as [s3 H].
  apply rep_result in H as [s4 H].
  destruct (at_end s4) eqn:Hend; [| discriminate].
  destruct s4 as [| c4 [| c5 s5]]; simpl in Hend; try discriminate.
  - simpl in H. inversion H. reflexivity.
  - simpl in H. unfold not_newline in H. rewrite Hend in H. simpl in H.
    inversion H. reflexivity.
Qed.

Lemma loads_empty_list : json_loads (py "[" ++ [] ++ py "]") = Ok (JArr []).
Proof. reflexivity. Qed.

Section LastStage.

Variable unicode_decimal : N -> option N.

Lemma bbox2d_matches_empty (matches : list captures) (bbox_data : list json) :
  Forall (fun caps => group2 caps = []) matches ->
  bbox2d_matches unicode_decimal bbox_data matches = Ok bbox_data.
Proof.
  intros H. revert bbox_data. induction H as [| caps matches Hc H IH]; intros bbox_data.
  - reflexivity.
  - simpl. unfold bbox2d_match. rewrite Hc, loads_empty_list. simpl. apply IH.
Qed.

(** The last stage never yields a record. *)
Lemma stage4_yields_nothing (s : text) : stage4 unicode_decimal s = Ok [].
Proof.
  unfold stage4. apply bbox2d_matches_empty.
  apply findall_from_Forall. intros s0 rest caps. apply bbox2d_coords_empty.
Qed.

End LastStage.

(** ** The extraction as a whole *)

Lemma json_loads_raises (s : text) (e : exn) :
  json_loads s = Raise e -> e = JSONDecodeError.
Proof.
  unfold json_loads. destruct (tokenize _ s) as [ts |]; [| congruence].
  destruct (parse_value _ ts) as [[v [| t r]] |]; congruence.
Qed.

Lemma try_loads_cases (s : text) (otherwise : result (list json)) :
  (exists records, try_loads s otherwise = Ok records) \/
  (json_loads s = Raise JSONDecodeError /\ try_loads s otherwise = otherwise).
Proof.
  unfold try_loads. destruct (json_loads s) as [v | e] eqn:E; simpl.
  - left. eauto.
  - right. apply json_loads_raises in E. subst e. auto.
Qed.

Lemma contains_no_match (l : text) (r : regex) (s : text) (skip : nat) :
  contains l s = false -> findall_from (Seq (Lit l) r) s skip = [].
Proof.
  revert skip. induction s as [| c s IH]; intros skip H; simpl in H.
  - apply orb_false_elim in H as [H _]. simpl.
    unfold match_here. cbn [rmatch]. rewrite H. destruct skip; reflexivity.
  - apply orb_false_elim in H as [H Hs]. simpl.
    unfold match_here. cbn [rmatch]. rewrite H.
    destruct skip; auto.
Qed.

Section Whole.

Variable unicode_alnum : N -> bool.
Variable unicode_decimal : N -> option N.

Local Abbreviation extract := (extract_bbox_data unicode_alnum unicode_decimal).

Lemma first_block_total (blocks : list text) :
  exists records, first_block blocks = Ok records.
Proof.
  induction blocks as [| b blocks IH]; simpl; [eauto |].
  destruct (try_loads_cases b (first_block blocks)) as [H | [_ H]]; [exact H |].
  rewrite H. exact IH.
Qed.

Lemma first_answer_total (answers : list text) :
  exists records, first_answer unicode_alnum answers = Ok records.
Proof.
  induction answers as [| a answers IH]; simpl; [eauto |].
  match goal with |- context [try_loads a ?h] =>
    destruct (try_loads_cases a h) as [H | [_ H]]; [exact H | rewrite H] end.
  destruct (first_block_total (code_blocks unicode_alnum a)) as [found ->]. simpl.
  destruct (is_empty found); eauto.
Qed.

Lemma stage1_total (s : text) : exists records, stage1 s = Ok records.
Proof.
  unfold stage1. destruct (try_loads_cases s (Ok [])) as [H | [_ H]]; [exact H |].
  rewrite H. eauto.
Qed.


(** C8. On [bbox2d cat 10, 20, 30, 40] the extraction returns no record, and
    on no text does its last stage return one: the pattern asks for the end
    of the text right after the label. *)
Theorem inline_notation_yields_nothing :
  extract (py "bbox2d cat 10, 20, 30, 40") = Ok [] /\
  (forall s, stage4 unicode_decimal s = Ok []).
Proof. split; [reflexivity | apply stage4_yields_nothing]. Qed.

End Whole.


(** ** Scanning JSON strings and tokens *)

Lemma cons_to_Some {A B} (x : A) (o : option (list A * B)) (l : list A) (b : B) :
  cons_to x o = Some (l, b) -> exists l', o = Some (l', b).
Proof. destruct o as [[l' b'] |]; simpl; intros H; inversion H; eauto. Qed.

Lemma hex_val_not_quote (c v : N) : hex_val c = Some v -> c <> 34.
Proof. intros H ->. vm_compute in H. discriminate. Qed.

Lemma decode_not_quote (a b c d u : N) :
  decode_uXXXX a b c d = Some u -> a <> 34 /\ b <> 34 /\ c <> 34 /\ d <> 34.
Proof.
  unfold decode_uXXXX.
  destruct (hex_val a) eqn:Ha, (hex_val b) eqn:Hb, (hex_val c) eqn:Hc,
           (hex_val d) eqn:Hd; try discriminate.
  intros _. repeat split; eapply hex_val_not_quote; eassumption.
Qed.

(** [scanstring] stops at a double quote, and the text it went over has
    every double quote escaped. *)
Lemma scanstring_consumes (n : nat) :
  forall s str r,
    (length s <= n)%nat -> scanstring s = Some (str, r) ->
    exists p, s = p ++ 34 :: r /\ escaped p.
Proof.
  induction n as [| n IH]; intros s str r Hlen H.
  - destruct s; [discriminate | simpl in Hlen; lia].
  - destruct s as [| c s1]; [discriminate |].
    simpl in Hlen. cbn [scanstring] in H.
    destruct (c =? 34) eqn:Hq.
    { apply N.eqb_eq in Hq. subst c. inversion H; subst.
      exists []. split; [reflexivity | constructor]. }
    apply N.eqb_neq in Hq.
    destruct (c =? 92) eqn:Hb.
    + apply N.eqb_eq in Hb. subst c.
      destruct s1 as [| e s2]; [discriminate |]. simpl in Hlen.
      destruct (e =? 117) eqn:Hu.
      * apply N.eqb_eq in Hu. subst e.
        destruct s2 as [| h1 [| h2 [| h3 [| h4 s3]]]]; try discriminate.
        simpl in Hlen.
        destruct (decode_uXXXX h1 h2 h3 h4) as [uni |] eqn:Hd; [| discriminate].
        apply decode_not_quote in Hd as (H1 & H2 & H3 & H4).
        assert (Hplain : forall str',
                   scanstring s3 = Some (str', r) ->
                   exists p, 92 :: 117 :: h1 :: h2 :: h3 :: h4 :: s3 = p ++ 34 :: r
                             /\ escaped p).
        { intros str' Hs. apply IH in Hs as (p & -> & Hp); [| lia].
          exists (92 :: 117 :: h1 :: h2 :: h3 :: h4 :: p).
          split; [reflexivity | repeat constructor; assumption]. }
        destruct s3 as [| b [| u [| l1 [| l2 [| l3 [| l4 s4]]]]]];
          try (destruct (is_high_surrogate uni && starts_with [92; 117] _);
               [discriminate | apply cons_to_Some in H as [str' H]; eauto]).
        destruct (is_high_surrogate uni && (b =? 92) && (u =? 117)) eqn:Hhigh;
          [| apply cons_to_Some in H as [str' H]; eauto].
        destruct (decode_uXXXX l1 l2 l3 l4) as [uni2 |] eqn:Hd2; [| discriminate].
        destruct (is_low_surrogate uni2);
          [| apply cons_to_Some in H as [str' H]; eauto].
        apply andb_prop in Hhigh as [Hhigh Hu]. apply andb_prop in Hhigh as [_ Hb].
        apply N.eqb_eq in Hu, Hb. subst b u.
        apply decode_not_quote in Hd2 as (L1 & L2 & L3 & L4).
        apply cons_to_Some in H as [str' H].
        simpl in Hlen. apply IH in H as (p & -> & Hp); [| lia].
        exists (92 :: 117 :: h1 :: h2 :: h3 :: h4 :: 92 :: 117 :: l1 :: l2 :: l3 :: l4 :: p).
        split; [reflexivity | repeat constructor; assumption].
      * destruct (backslash e); [| discriminate].
        apply cons_to_Some in H as [str' H].
        apply IH in H as (p & -> & Hp); [| lia].
        exists (92 :: e :: p). split; [reflexivity | constructor; assumption].
    + destruct (c <? 32); [discriminate |].
      apply cons_to_Some in H as [str' H].
      apply IH in H as (p & -> & Hp); [| lia].
      exists (c :: p). split; [reflexivity | constructor; assumption].
Qed.

(** Going over text without quotes and backslashes, the first double quote
    met is the one that ends it. *)
Lemma escaped_ends_at_quote (p : text) :
  escaped p ->
  forall m x r, p ++ 34 :: r = m ++ 34 :: x ->
                Forall not_quote_nor_backslash m -> r = x.
Proof.
  induction 1 as [| c p Hc Hp IH | e p Hp IH]; intros m x r Heq Hm.
  - destruct Hm as [| c m [Hc _] Hm]; simpl in Heq; inversion Heq; congruence.
  - destruct Hm as [| c' m [Hc' _] Hm]; simpl in Heq; inversion Heq; subst.
    + congruence.
    + eapply IH; eauto.
  - destruct Hm as [| c' m [_ Hc'] Hm]; simpl in Heq; inversion Heq; subst.
    congruence.
Qed.

(** The same from anywhere before such text: the string ends before it, or
    at its first double quote. *)
Lemma escaped_ends_before_or_at (p : text) :
  escaped p ->
  forall before m x r,
    p ++ 34 :: r = before ++ m ++ 34 :: x ->
    m <> [] -> Forall not_quote_nor_backslash m ->
    (exists b', r = b' ++ m ++ 34 :: x) \/ r = x.
Proof.
  induction 1 as [| c p Hc Hp IH | e p Hp IH]; intros before m x r Heq Hne Hm.
  - destruct before as [| b before]; simpl in Heq.
    + destruct Hm as [| c m [Hc _] Hm]; [congruence |].
      simpl in Heq. inversion Heq. congruence.
    + inversion Heq. eauto.
  - destruct before as [| b before]; simpl in Heq.
    + right. eapply (escaped_ends_at_quote (c :: p)); eauto. constructor; assumption.
    + inversion Heq; subst. eapply IH; eauto.
  - destruct before as [| b [| b2 before]]; simpl in Heq.
    + destruct Hm as [| c m [_ Hc] Hm]; [congruence |].
      simpl in Heq. inversion Heq. congruence.
    + injection Heq as <- Heq.
      destruct Hm as [| c m _ Hm]; [congruence |].
      simpl in Heq. injection Heq as <- Heq.
      right. eapply escaped_ends_at_quote; eauto.
    + injection Heq as <- <- Heq. eapply IH; eauto.
Qed.

Lemma span_split {A} (p : A -> bool) (l a b : list A) :
  span p l = (a, b) -> l = a ++ b /\ Forall (fun c => p c = true) a.
Proof.
  revert a b. induction l as [| x l IH]; simpl; intros a b H.
  - inversion H. auto.
  - destruct (p x) eqn:Hx.
    + destruct (span p l) as [a' b'] eqn:E. inversion H; subst.
      destruct (IH a' b eq_refl) as [-> Ha]. auto.
    + inversion H. auto.
Qed.

Lemma digit_no_backquote (c : N) : is_digit09 c = true -> no_backquote c.
Proof.
  unfold is_digit09, no_backquote. intros H.
  apply andb_prop in H as [_ H]. apply N.leb_le in H. lia.
Qed.

Lemma digits_no_backquote (ds : text) :
  Forall (fun c => is_digit09 c = true) ds -> Forall no_backquote ds.
Proof. apply Forall_impl, digit_no_backquote. Qed.

Lemma eqb_no_backquote (c k : N) : (c =? k) = true -> k <> 96 -> no_backquote c.
Proof. intros H Hk. apply N.eqb_eq in H. unfold no_backquote. congruence. Qed.

Lemma span_head {A} (p : A -> bool) (x : A) (l : list A) :
  p x = true -> exists a, span p (x :: l) = (x :: a, snd (span p l)).
Proof. intros H. simpl. rewrite H. destruct (span p l). simpl. eauto. Qed.

Lemma scan_digits_consumes (neg : bool) (s1 r ds : text) :
  match s1 with
  | [] => None
  | c :: s2 =>
      if c =? 48 then Some (neg, [c], s2)
      else if is_digit09 c
           then let (ds0, s3) := span is_digit09 s1 in Some (neg, ds0, s3)
           else None
  end = Some (neg, ds, r) ->
  exists p, s1 = p ++ r /\ p <> [] /\ Forall no_backquote p.
Proof.
  destruct s1 as [| c s2]; [discriminate |].
  destruct (c =? 48) eqn:E0.
  - intros H. inversion H; subst. exists [c]. split; [reflexivity |].
    split; [discriminate |].
    repeat constructor. eapply eqb_no_backquote; [exact E0 | lia].
  - destruct (is_digit09 c) eqn:Ed; [| discriminate].
    destruct (span_head is_digit09 c s2 Ed) as [a Ha].
    destruct (span is_digit09 (c :: s2)) as [ds0 s3] eqn:E.
    intros H. inversion H; subst. apply span_split in E as [-> Hd].
    inversion Ha; subst.
    exists (c :: a). split; [reflexivity |]. split; [discriminate |].
    apply digits_no_backquote, Hd.
Qed.

Lemma scan_integer_consumes (s r ds : text) (neg : bool) :
  scan_integer s = Some (neg, ds, r) ->
  exists p, s = p ++ r /\ p <> [] /\ Forall no_backquote p.
Proof.
  unfold scan_integer.
  destruct s as [| c s']; [discriminate |].
  destruct (c =? 45) eqn:E.
  - intros H.
    destruct (scan_digits_consumes true s' r ds) as (p & Hp & _ & Hf).
    { destruct s' as [| c1 s2]; [discriminate |].
      destruct (c1 =? 48); [inversion H; reflexivity |].
      destruct (is_digit09 c1); [| discriminate].
      destruct (span is_digit09 (c1 :: s2)). inversion H. reflexivity. }
    exists (c :: p). rewrite Hp. split; [reflexivity |]. split; [discriminate |].
    constructor; [eapply eqb_no_backquote; [exact E | lia] | exact Hf].
  - intros H. apply (scan_digits_consumes false (c :: s') r ds).
    destruct (c =? 48); [inversion H; reflexivity |].
    destruct (is_digit09 c); [| discriminate].
    destruct (span is_digit09 (c :: s')). inversion H. reflexivity.
Qed.

Lemma scan_frac_consumes (s r fs : text) :
  scan_frac s = Some (fs, r) -> exists p, s = p ++ r /\ Forall no_backquote p.
Proof.
  unfold scan_frac. destruct s as [| c s1]; [discriminate |].
  destruct (c =? 46) eqn:E; [| discriminate].
  destruct (span is_digit09 s1) as [[| d ds] s2] eqn:Es; [discriminate |].
  intros H. inversion H; subst. apply span_split in Es as [-> Hd].
  exists (c :: d :: ds). split; [reflexivity |].
  constructor; [eapply eqb_no_backquote; [exact E | lia] |].
  apply digits_no_backquote, Hd.
Qed.

Lemma scan_exp_consumes (s r : text) (e : Z) :
  scan_exp s = Some (e, r) -> exists p, s = p ++ r /\ Forall no_backquote p.
Proof.
  unfold scan_exp. destruct s as [| c s1]; [discriminate |].
  destruct ((c =? 101) || (c =? 69)) eqn:E; [| discriminate].
  assert (Hc : no_backquote c).
  { apply orb_prop in E as [E | E]; (eapply eqb_no_backquote; [exact E | lia]). }
  destruct s1 as [| d s2].
  - simpl. discriminate.
  - destruct (d =? 43) eqn:E1; [| destruct (d =? 45) eqn:E2].
    + destruct (span is_digit09 s2) as [[| x ds] s3] eqn:Es; [discriminate |].
      intros H. inversion H; subst. apply span_split in Es as [-> Hd].
      exists (c :: d :: x :: ds). split; [reflexivity |].
      constructor; [exact Hc |].
      constructor; [eapply eqb_no_backquote; [exact E1 | lia] |].
      apply digits_no_backquote, Hd.
    + destruct (span is_digit09 s2) as [[| x ds] s3] eqn:Es; [discriminate |].
      intros H. inversion H; subst. apply span_split in Es as [-> Hd].
      exists (c :: d :: x :: ds). split; [reflexivity |].
      constructor; [exact Hc |].
      constructor; [eapply eqb_no_backquote; [exact E2 | lia] |].
      apply digits_no_backquote, Hd.
    + destruct (span is_digit09 (d :: s2)) as [[| x ds] s3] eqn:Es; [discriminate |].
      intros H. inversion H; subst. apply span_split in Es as [Heq Hd].
      exists (c :: x :: ds). rewrite Heq. split; [reflexivity |].
      constructor; [exact Hc |]. apply digits_no_backquote, Hd.
Qed.

Lemma scan_number_consumes (s r : text) (n : number) :
  scan_number s = Some (n, r) ->
  exists p, s = p ++ r /\ p <> [] /\ Forall no_backquote p.
Proof.
  unfold scan_number.
  destruct (scan_integer s) as [[[neg ds] s1] |] eqn:Ei; [| discriminate].
  apply scan_integer_consumes in Ei as (p1 & -> & Hne & H1).
  assert (Hnil : forall q, p1 ++ q <> []).
  { intros q Hq. apply app_eq_nil in Hq as [Hq _]. contradiction. }
  destruct (scan_frac s1) as [[fs s2] |] eqn:Ef.
  - apply scan_frac_consumes in Ef as (p2 & -> & H2).
    destruct (scan_exp s2) as [[e s3] |] eqn:Ee.
    + apply scan_exp_consumes in Ee as (p3 & -> & H3).
      intros H. inversion H; subst.
      exists (p1 ++ p2 ++ p3). rewrite <- !app_assoc. split; [reflexivity |].
      split; [apply Hnil |].
      repeat (apply Forall_app; split); assumption.
    + intros H. inversion H; subst.
      exists (p1 ++ p2). rewrite <- !app_assoc. split; [reflexivity |].
      split; [apply Hnil |].
      apply Forall_app; split; assumption.
  - destruct (scan_exp s1) as [[e s3] |] eqn:Ee.
    + apply scan_exp_consumes in Ee as (p3 & -> & H3).
      intros H. inversion H; subst.
      exists (p1 ++ p3). rewrite <- !app_assoc. split; [reflexivity |].
      split; [apply Hnil |].
      apply Forall_app; split; assumption.
    + intros H. inversion H; subst. eauto.
Qed.

Lemma keyword_consumes (kw s : text) :
  forallb (fun c => negb (c =? 96)) kw = true -> kw <> [] ->
  starts_with kw s = true ->
  exists p, s = p ++ skipn (length kw) s /\ p <> [] /\ Forall no_backquote p.
Proof.
  intros Hkw Hne H. exists kw. split; [apply starts_with_split, H |].
  split; [exact Hne |].
  apply Forall_forall. intros c Hc.
  rewrite forallb_forall in Hkw. specialize (Hkw c Hc).
  apply negb_true_iff, N.eqb_neq in Hkw. exact Hkw.
Qed.

Lemma scan_keyword_consumes (s r : text) (t : token) :
  scan_keyword s = Some (t, r) ->
  exists p, s = p ++ r /\ p <> [] /\ Forall no_backquote p.
Proof.
  unfold scan_keyword.
  destruct (starts_with (py "null") s) eqn:E1.
  { intros H. inversion H; subst. apply (keyword_consumes (py "null")); easy. }
  destruct (starts_with (py "true") s) eqn:E2.
  { intros H. inversion H; subst. apply (keyword_consumes (py "true")); easy. }
  destruct (starts_with (py "false") s) eqn:E3.
  { intros H. inversion H; subst. apply (keyword_consumes (py "false")); easy. }
  destruct (scan_number s) as [[n r'] |] eqn:En.
  { intros H. inversion H; subst. eapply scan_number_consumes, En. }
  destruct (starts_with (py "NaN") s) eqn:E4.
  { intros H. inversion H; subst. apply (keyword_consumes (py "NaN")); easy. }
  destruct (starts_with (py "Infinity") s) eqn:E5.
  { intros H. inversion H; subst. apply (keyword_consumes (py "Infinity")); easy. }
  destruct (starts_with (py "-Infinity") s) eqn:E6; [| discriminate].
  intros H. inversion H; subst. apply (keyword_consumes (py "-Infinity")); easy.
Qed.

(** A token without backquotes ends before the first backquote. *)
Lemma stops_before_backquote (p : text) :
  Forall no_backquote p ->
  forall before r rest,
    p ++ r = before ++ 96 :: rest -> exists b', r = b' ++ 96 :: rest.
Proof.
  induction 1 as [| c p Hc Hp IH]; intros before r rest Heq; simpl in Heq.
  - eauto.
  - destruct before as [| b before]; simpl in Heq; injection Heq as Hb Heq.
    + unfold no_backquote in Hc. congruence.
    + eauto.
Qed.

Lemma scan_keyword_backquote (s : text) : scan_keyword (96 :: s) = None.
Proof. reflexivity. Qed.

(** No JSON document has a backquote outside a string, and a string that
    holds the backquote [m] starts with ends at the double quote after [m]:
    when the text after that quote cannot be tokenized, neither can any
    text around. *)
Lemma tokenize_fails_around (m x : text) :
  Forall not_quote_nor_backslash (96 :: m) ->
  (forall fuel, tokenize fuel x = None) ->
  forall fuel before, tokenize fuel (before ++ (96 :: m) ++ 34 :: x) = None.
Proof.
  intros Hm Hx. induction fuel as [| fuel IH]; intros before; [reflexivity |].
  destruct before as [| c before].
  - simpl app. cbn [tokenize]. rewrite scan_keyword_backquote. reflexivity.
  - simpl app. cbn [tokenize].
    repeat match goal with
           | |- (if ?b then _ else _) = None => destruct b
           | |- map_tokens _ (tokenize fuel (before ++ _)) = None => rewrite IH; reflexivity
           | |- tokenize fuel (before ++ _) = None => apply IH
           end.
    + destruct (scanstring _) as [[str r] |] eqn:E; [| reflexivity].
      apply (scanstring_consumes _ _ _ _ (Nat.le_refl _)) in E as (p & Heq & Hp).
      symmetry in Heq.
      apply (escaped_ends_before_or_at p Hp before (96 :: m) x r) in Heq
        as [[b' ->] | ->]; [| | discriminate | exact Hm].
      * change (b' ++ 96 :: m ++ 34 :: x) with (b' ++ (96 :: m) ++ 34 :: x).
        rewrite IH. reflexivity.
      * rewrite Hx. reflexivity.
    + destruct (scan_keyword _) as [[t r] |] eqn:E; [| reflexivity].
      apply scan_keyword_consumes in E as (p & Heq & _ & Hp).
      symmetry in Heq.
      apply (stops_before_backquote p Hp (c :: before) r (m ++ 34 :: x)) in Heq
        as [b' ->].
      change (b' ++ 96 :: m ++ 34 :: x) with (b' ++ (96 :: m) ++ 34 :: x).
      rewrite IH. reflexivity.
Qed.

(** ** The fuel of the decoder is enough *)

Lemma scanstring_shorter (s str r : text) :
  scanstring s = Some (str, r) -> (length r < length s)%nat.
Proof.
  intros H. apply (scanstring_consumes _ _ _ _ (Nat.le_refl _)) in H as (p & -> & _).
  rewrite length_app. simpl. lia.
Qed.

Lemma scan_keyword_shorter (s r : text) (t : token) :
  scan_keyword s = Some (t, r) -> (length r < length s)%nat.
Proof.
  intros H. apply scan_keyword_consumes in H as (p & -> & Hne & _).
  rewrite length_app. destruct p; [congruence | simpl; lia].
Qed.

(** With any fuel above the length of the text, [tokenize] gives the same
    result: running out of fuel is never the reason of a failure. *)
Lemma tokenize_fuel (f1 : nat) :
  forall (f2 : nat) (s : text),
    (length s < f1)%nat -> (length s < f2)%nat -> tokenize f1 s = tokenize f2 s.
Proof.
  induction f1 as [| f1 IH]; intros f2 s H1 H2; [lia |].
  destruct f2 as [| f2]; [lia |].
  destruct s as [| c s1]; [reflexivity |].
  simpl in H1, H2. cbn [tokenize].
  repeat match goal with
         | |- (if ?b then _ else _) = (if ?b then _ else _) => destruct b
         | |- map_tokens ?t _ = map_tokens ?t _ => f_equal
         | |- tokenize f1 s1 = tokenize f2 s1 => apply IH; lia
         end.
  - destruct (scanstring s1) as [[str r] |] eqn:E; [| reflexivity].
    apply scanstring_shorter in E. f_equal. apply IH; lia.
  - destruct (scan_keyword (c :: s1)) as [[t r] |] eqn:E; [| reflexivity].
    apply scan_keyword_shorter in E. simpl in E. f_equal. apply IH; lia.
Qed.

(** The parser consumes at least one token. *)
Lemma parse_shorter (f : nat) :
  (forall ts v r, parse_value f ts = Some (v, r) -> (length r < length ts)%nat) /\
  (forall ts acc v r,
      parse_elements f ts acc = Some (v, r) -> (length r < length ts)%nat) /\
  (forall ts acc v r,
      parse_members f ts acc = Some (v, r) -> (length r < length ts)%nat).
Proof.
  induction f as [| f (IHv & IHe & IHm)]; [repeat split; discriminate |].
  repeat split.
  - intros ts v r H. cbn [parse_value] in H.
    destruct ts as [| t ts]; [discriminate |].
    destruct t; try discriminate;
      try (inversion H; subst; simpl; lia).
    + destruct ts as [| t2 ts2].
      * apply IHm in H. simpl in *. lia.
      * destruct t2; try (apply IHm in H; simpl in *; lia).
        inversion H; subst. simpl. lia.
    + destruct ts as [| t2 ts2].
      * apply IHe in H. simpl in *. lia.
      * destruct t2; try (apply IHe in H; simpl in *; lia).
        inversion H; subst. simpl. lia.
  - intros ts acc v r H. cbn [parse_elements] in H.
    destruct (parse_value f ts) as [[v' [| t r']] |] eqn:E; try discriminate.
    apply IHv in E. simpl in E.
    destruct t; try discriminate.
    + inversion H; subst. lia.
    + apply IHe in H. lia.
  - intros ts acc v r H. cbn [parse_members] in H.
    destruct ts as [| [] [| [] ts]]; try discriminate.
    destruct (parse_value f ts) as [[v' [| t r']] |] eqn:E; try discriminate.
    apply IHv in E. simpl in E.
    destruct t; try discriminate.
    + inversion H; subst. simpl. lia.
    + apply IHm in H. simpl. lia.
Qed.

(** With any fuel above twice the number of tokens, the parser gives the
    same result. *)
Lemma parse_fuel (f1 : nat) :
  forall f2 : nat,
    (forall ts, (2 * length ts + 1 <= f1)%nat -> (2 * length ts + 1 <= f2)%nat ->
                parse_value f1 ts = parse_value f2 ts) /\
    (forall ts acc, (2 * length ts + 2 <= f1)%nat -> (2 * length ts + 2 <= f2)%nat ->
                    parse_elements f1 ts acc = parse_elements f2 ts acc) /\
    (forall ts acc, (2 * length ts + 2 <= f1)%nat -> (2 * length ts + 2 <= f2)%nat ->
                    parse_members f1 ts acc = parse_members f2 ts acc).
Proof.
  induction f1 as [| f1 IH]; intros f2.
  { repeat split; intros; lia. }
  destruct f2 as [| f2]; [repeat split; intros; lia |].
  destruct (IH f2) as (IHv & IHe & IHm).
  repeat split.
  - intros ts H1 H2. cbn [parse_value].
    destruct ts as [| t ts]; [reflexivity |]. simpl in H1, H2.
    destruct t; try reflexivity.
    + destruct ts as [| t2 ts2]; [apply IHm; simpl; lia |].
      destruct t2; try reflexivity; apply IHm; simpl in *; lia.
    + destruct ts as [| t2 ts2]; [apply IHe; simpl; lia |].
      destruct t2; try reflexivity; apply IHe; simpl in *; lia.
  - intros ts acc H1 H2. cbn [parse_elements].
    rewrite (IHv ts) by lia.
    destruct (parse_value f2 ts) as [[v' [| t r']] |] eqn:E; try reflexivity.
    apply (proj1 (parse_shorter f2)) in E. simpl in E.
    destruct t; try reflexivity. apply IHe; lia.
  - intros ts acc H1 H2. cbn [parse_members].
    destruct ts as [| [] [| [] ts]]; try reflexivity.
    simpl in H1, H2. rewrite (IHv ts) by lia.
    destruct (parse_value f2 ts) as [[v' [| t r']] |] eqn:E; try reflexivity.
    apply (proj1 (parse_shorter f2)) in E. simpl in E.
    destruct t; try reflexivity. apply IHm; lia.
Qed.

(** [json_loads] with more fuel than it takes is [json_loads]. *)
Lemma json_loads_fuel (s : text) (f1 f2 : nat) :
  (length s < f1)%nat ->
  (forall ts, tokenize f1 s = Some ts -> (2 * length ts + 1 <= f2)%nat) ->
  match tokenize f1 s with
  | None => Raise JSONDecodeError
  | Some ts =>
      match parse_value f2 ts with
      | Some (v, []) => Ok v
      | _ => Raise JSONDecodeError
      end
  end = json_loads s.
Proof.
  intros H1 H2. unfold json_loads.
  rewrite <- (tokenize_fuel f1 (S (length s)) s) by lia.
  destruct (tokenize f1 s) as [ts |]; [| reflexivity].
  rewrite (proj1 (parse_fuel f2 (2 * length ts + 2)) ts); [reflexivity | | lia].
  apply H2. reflexivity.
Qed.

(** ** A fenced block inside prose *)

Section Fenced.

Variable unicode_alnum : N -> bool.
Variable unicode_decimal : N -> option N.

Local Abbreviation is_word := (is_word unicode_alnum).
Local Abbreviation extract := (extract_bbox_data unicode_alnum unicode_decimal).

(** The optional word and the white space after the opening fence take
    exactly the language tag and the white space that follow it. *)
Lemma tag_and_space {R} (lang ws rest : text) (k : text -> option R) (r : R) :
  Forall (fun c => is_word c = true) lang ->
  Forall (fun c => is_space c = true) ws ->
  stops_at is_word rest -> stops_at is_space rest ->
  k rest = Some r ->
  match
    match lang ++ ws ++ rest with
    | c :: s' =>
        if is_word c then rep true is_word s' (fun s'' => rep true is_space s'' k)
        else None
    | [] => None
    end
  with
  | Some m => Some m
  | None => rep true is_space (lang ++ ws ++ rest) k
  end = Some r.
Proof.
  intros Hlang Hws Hw Hs Hk.
  assert (S : forall ws', Forall (fun c => is_space c = true) ws' ->
                          rep true is_space (ws' ++ rest) k = Some r).
  { intros ws' H. apply rep_greedy_run; assumption. }
  assert (W0 : forall ws', Forall (fun c => is_space c = true) ws' ->
            rep true is_word (ws' ++ rest) (fun s'' => rep true is_space s'' k) = Some r).
  { intros ws' H. induction H as [| c ws' Hc H IH]; simpl.
    - destruct rest as [| c rest']; simpl in *; [exact Hk |].
      rewrite Hw, Hs. exact Hk.
    - destruct (is_word c).
      + rewrite IH. reflexivity.
      + rewrite Hc. rewrite (S ws' H). reflexivity. }
  assert (W : forall l, Forall (fun c => is_word c = true) l ->
            rep true is_word (l ++ ws ++ rest) (fun s'' => rep true is_space s'' k) = Some r).
  { intros l H. induction H as [| c l Hc H IH]; simpl.
    - apply W0, Hws.
    - rewrite Hc, IH. reflexivity. }
  destruct Hlang as [| c lang Hc Hlang]; simpl.
  - destruct Hws as [| c ws Hc Hws]; simpl.
    + destruct rest as [| c rest']; simpl in *; [exact Hk |].
      rewrite Hw, Hs. exact Hk.
    + destruct (is_word c).
      * rewrite (W0 ws Hws). reflexivity.
      * rewrite Hc. rewrite (S ws Hws). reflexivity.
  - rewrite Hc. rewrite (W lang Hlang). reflexivity.
Qed.

Lemma fence_chars : fence = [96; 96; 96].
Proof. reflexivity. Qed.

Lemma no_fence_at (c : N) (s : text) : c <> 96 -> starts_with fence (c :: s) = false.
Proof.
  intros H. rewrite fence_chars. cbn [starts_with].
  apply N.eqb_neq in H. rewrite N.eqb_sym, H. reflexivity.
Qed.

(** Inside a body without white space and backquotes, the closing part of
    the pattern (white space, fence) matches nowhere. *)
Lemma no_close_inside {R} (body rest : text) (k : text -> text -> option R) :
  Forall plain body ->
  (forall stop c s, c <> 96 -> k stop (c :: s) = None) ->
  all_tails (fun t => rep true is_space (t ++ rest) (k (t ++ rest)) = None) body.
Proof.
  intros Hbody Hk. induction Hbody as [| c body [Hsp Hq] Hbody IH]; simpl; [exact I |].
  split; [| exact IH]. rewrite Hsp. apply Hk, Hq.
Qed.

Lemma code_block_at_fence (lang ws1 body ws2 after : text) :
  Forall (fun c => is_word c = true) lang ->
  Forall (fun c => is_space c = true) ws1 ->
  stops_at is_word body -> body <> [] ->
  Forall plain body ->
  Forall (fun c => is_space c = true) ws2 ->
  match_here (code_block_pattern unicode_alnum)
    (fence ++ lang ++ ws1 ++ body ++ ws2 ++ fence ++ after)
  = Some (after, [body]).
Proof.
  intros Hlang Hws1 Hstop Hne Hbody Hws2.
  unfold match_here, code_block_pattern. cbn [rmatch].
  rewrite starts_with_app, skipn_length_app.
  destruct body as [| c0 body']; [congruence |].
  apply tag_and_space; try assumption.
  - inversion Hbody as [| ? ? [Hc0 _] _]. exact Hc0.
  - apply rep_lazy_run.
    + apply Forall_forall. reflexivity.
    + apply (no_close_inside (c0 :: body') (ws2 ++ fence ++ after)
               (fun stop s'' =>
                  if starts_with fence s''
                  then Some (skipn (length fence) s'',
                             [] ++ [firstn (length ((c0 :: body') ++ ws2 ++ fence ++ after)
                                            - length stop)
                                      ((c0 :: body') ++ ws2 ++ fence ++ after)])
                  else None)); [exact Hbody |].
      intros stop c s Hc. rewrite no_fence_at by exact Hc. reflexivity.
    + erewrite rep_greedy_run; [reflexivity | exact Hws2 | reflexivity |].
      rewrite starts_with_app, skipn_length_app.
      rewrite (firstn_length_diff (c0 :: body') (ws2 ++ fence ++ after)).
      reflexivity.
Qed.

Lemma all_tails_impl (P Q : text -> Prop) (a : text) :
  (forall t, P t -> Q t) -> all_tails P a -> all_tails Q a.
Proof. intros H. induction a as [| c a IH]; simpl; [auto | intros [Hp Ha]; auto]. Qed.

Lemma no_fence_opens (before rest : text) :
  opens_no_fence before = true ->
  all_tails (fun t => starts_with fence (t ++ fence ++ rest) = false) before.
Proof.
  unfold opens_no_fence. rewrite negb_true_iff.
  induction before as [| c before IH]; simpl; intros H; [exact I |].
  apply orb_false_elim in H as [Hc H]. split; [| exact (IH H)].
  rewrite fence_chars in *.
  destruct before as [| c1 [| c2 before]]; simpl in *; exact Hc.
Qed.

Lemma word_not_quote_nor_backslash (c : N) :
  is_word c = true -> not_quote_nor_backslash c.
Proof.
  intros H. split; intros ->; vm_compute in H; discriminate.
Qed.

Lemma space_not_quote_nor_backslash (c : N) :
  is_space c = true -> not_quote_nor_backslash c.
Proof.
  intros H. split; intros ->; vm_compute in H; discriminate.
Qed.

Lemma cat_json_chars : cat_json = 123 :: 34 :: cat_json_tail.
Proof. reflexivity. Qed.

Lemma tokenize_label (rest : text) (fuel : nat) :
  tokenize fuel (cat_json_tail ++ rest) = None.
Proof. destruct fuel; reflexivity. Qed.

Lemma loads_cat_json : json_loads cat_json = Ok cat_record.
Proof. reflexivity. Qed.

(** The whole text of a fenced answer is not a JSON document. *)
Lemma fenced_text_is_not_json (before lang ws1 rest : text) :
  Forall (fun c => is_word c = true) lang ->
  Forall (fun c => is_space c = true) ws1 ->
  json_loads (before ++ fence ++ lang ++ ws1 ++ cat_json ++ rest)
  = Raise JSONDecodeError.
Proof.
  intros Hlang Hws1. unfold json_loads.
  replace (before ++ fence ++ lang ++ ws1 ++ cat_json ++ rest)
    with (before ++ (96 :: [96; 96] ++ lang ++ ws1 ++ [123]) ++ 34 :: cat_json_tail ++ rest)
    by (rewrite cat_json_chars, fence_chars; simpl;
        rewrite <- !app_assoc; reflexivity).
  rewrite tokenize_fails_around; [reflexivity | | apply tokenize_label].
  repeat (constructor; [split; discriminate |]).
  apply Forall_app. split.
  - eapply Forall_impl; [| exact Hlang]. apply word_not_quote_nor_backslash.
  - apply Forall_app. split.
    + eapply Forall_impl; [| exact Hws1]. apply space_not_quote_nor_backslash.
    + repeat constructor; discriminate.
Qed.

Lemma cat_json_plain : Forall plain cat_json.
Proof.
  apply Forall_forall. intros c Hc.
  assert (H : forallb (fun c => negb (is_space c) && negb (c =? 96)) cat_json = true)
    by reflexivity.
  rewrite forallb_forall in H. specialize (H c Hc).
  apply andb_prop in H as [Hs Hq].
  apply negb_true_iff in Hs, Hq. apply N.eqb_neq in Hq. split; assumption.
Qed.


End Fenced.


(** * Further properties *)

Section Records.

Variable unicode_alnum : N -> bool.
Variable unicode_decimal : N -> option N.

Local Abbreviation extract := (extract_bbox_data unicode_alnum unicode_decimal).
Local Abbreviation records_ok := (Forall has_box_and_label).

Lemma detection_has_box_and_label (item : json) :
  is_detection item = true -> has_box_and_label item.
Proof.
  destruct item as [| b | n | s | items | d]; try discriminate. simpl.
  unfold dict_has. intros H. apply andb_prop in H as [Hb Hl].
  destruct (dict_get (py "bbox_2d") d) as [box |] eqn:Eb; [| discriminate].
  destruct (dict_get (py "label") d) as [lbl |] eqn:El; [| discriminate].
  exists d, box, lbl. auto.
Qed.

Lemma collect_records (data : json) : records_ok (collect data).
Proof.
  eapply Forall_impl; [| apply collect_keeps_detections].
  apply detection_has_box_and_label.
Qed.

Lemma try_loads_records (s : text) (otherwise : result (list json)) :
  (forall records, otherwise = Ok records -> records_ok records) ->
  forall records, try_loads s otherwise = Ok records -> records_ok records.
Proof.
  intros Ho records. unfold try_loads.
  destruct (json_loads s) as [v | e] eqn:E; simpl.
  - intros H. inversion H. apply collect_records.
  - apply json_loads_raises in E. subst e. apply Ho.
Qed.

Lemma first_block_records (blocks : list text) :
  forall records, first_block blocks = Ok records -> records_ok records.
Proof.
  induction blocks as [| b blocks IH]; simpl; intros records H.
  - inversion H. constructor.
  - eapply try_loads_records; eauto.
Qed.

Lemma first_answer_records (answers : list text) :
  forall records,
    first_answer unicode_alnum answers = Ok records -> records_ok records.
Proof.
  induction answers as [| a answers IH]; simpl; intros records H.
  - inversion H. constructor.
  - eapply try_loads_records; [| exact H].
    intros records'.
    destruct (first_block (code_blocks unicode_alnum a)) as [found | e] eqn:E;
      simpl; [| discriminate].
    destruct (is_empty found).
    + apply IH.
    + intros H'. inversion H'; subst. eapply first_block_records, E.
Qed.


End Records.

(** ** Re-converting and scaling *)

Lemma clamp_ground (w : Z) (x : number) :
  (0 <= w)%Z ->
  let c := py_max (PyInt 0) (py_min x (PyInt w)) in
  c = PyInt 0 \/ num_lt (PyInt 0) c = true.
Proof.
  intros Hw. unfold py_max.
  destruct (num_lt (PyInt 0) (py_min x (PyInt w))) eqn:E; simpl; auto.
Qed.

Lemma clamp_fixed (w : Z) (c : number) :
  within (PyInt 0) (PyInt w) c = true ->
  c = PyInt 0 \/ num_lt (PyInt 0) c = true ->
  py_max (PyInt 0) (py_min c (PyInt w)) = c.
Proof.
  unfold within, py_max, py_min. intros Hin Hc.
  apply andb_prop in Hin as [H0 Hw].
  assert (Hlt : num_lt (PyInt w) c = false).
  { destruct c as [z | q | | [|]]; simpl in *; try discriminate; try reflexivity.
    - apply Z.leb_le in Hw. apply Z.ltb_ge. exact Hw.
    - rewrite Hw. reflexivity. }
  rewrite Hlt. destruct Hc as [-> | ->]; reflexivity.
Qed.

Lemma ground_min (a b : number) :
  (a = PyInt 0 \/ num_lt (PyInt 0) a = true) ->
  (b = PyInt 0 \/ num_lt (PyInt 0) b = true) ->
  py_min a b = PyInt 0 \/ num_lt (PyInt 0) (py_min a b) = true.
Proof. intros Ha Hb. destruct (py_min_either a b) as [-> | ->]; assumption. Qed.

Lemma ground_max (a b : number) :
  (a = PyInt 0 \/ num_lt (PyInt 0) a = true) ->
  (b = PyInt 0 \/ num_lt (PyInt 0) b = true) ->
  py_max a b = PyInt 0 \/ num_lt (PyInt 0) (py_max a b) = true.
Proof. intros Ha Hb. destruct (py_max_either a b) as [-> | ->]; assumption. Qed.

Lemma min_of_min_max (a b : number) : py_min (py_min a b) (py_max a b) = py_min a b.
Proof.
  unfold py_min, py_max.
  destruct (num_lt b a) eqn:E1, (num_lt a b) eqn:E2; rewrite ?E1, ?E2;
    try reflexivity;
    match goal with |- context [if ?c then _ else _] => destruct c end; reflexivity.
Qed.

Lemma max_of_min_max (a b : number) : py_max (py_min a b) (py_max a b) = py_max a b.
Proof.
  unfold py_min, py_max.
  destruct (num_lt b a) eqn:E1, (num_lt a b) eqn:E2; rewrite ?E1, ?E2;
    try reflexivity;
    match goal with |- context [if ?c then _ else _] => destruct c end; reflexivity.
Qed.

(** X2. The stand-alone converter writes each rectangle with its corners
    ordered ([xmin <= xmax], [ymin <= ymax]), and a rectangle it has written
    is a fixed point: converting its corners again, for the same image,
    gives the same shape. *)
Theorem convert_entry_is_idempotent (lbl : json) (x1 y1 x2 y2 : number) (w h : Z) :
  (0 <= w)%Z -> (0 <= h)%Z ->
  exists xmin ymin xmax ymax,
    points (convert_entry_to_xlabel_shape lbl x1 y1 x2 y2 w h)
    = [(xmin, ymin); (xmax, ymin); (xmax, ymax); (xmin, ymax)] /\
    num_le xmin xmax = true /\ num_le ymin ymax = true /\
    convert_entry_to_xlabel_shape lbl xmin ymin xmax ymax w h
    = convert_entry_to_xlabel_shape lbl x1 y1 x2 y2 w h.
Proof.
  intros Hw Hh. unfold convert_entry_to_xlabel_shape. simpl.
  set (cx1 := py_max (PyInt 0) (py_min x1 (PyInt w))).
  set (cy1 := py_max (PyInt 0) (py_min y1 (PyInt h))).
  set (cx2 := py_max (PyInt 0) (py_min x2 (PyInt w))).
  set (cy2 := py_max (PyInt 0) (py_min y2 (PyInt h))).
  assert (Wx1 := clamp_min_x_w w x1 Hw). assert (Wx2 := clamp_min_x_w w x2 Hw).
  assert (Wy1 := clamp_min_x_w h y1 Hh). assert (Wy2 := clamp_min_x_w h y2 Hh).
  assert (Gx1 := clamp_ground w x1 Hw). assert (Gx2 := clamp_ground w x2 Hw).
  assert (Gy1 := clamp_ground h y1 Hh). assert (Gy2 := clamp_ground h y2 Hh).
  fold cx1 in Wx1, Gx1. fold cx2 in Wx2, Gx2. fold cy1 in Wy1, Gy1. fold cy2 in Wy2, Gy2.
  simpl in Gx1, Gx2, Gy1, Gy2. fold cx1 in Gx1. fold cx2 in Gx2.
  fold cy1 in Gy1. fold cy2 in Gy2.
  clearbody cx1 cx2 cy1 cy2.
  exists (py_min cx1 cx2), (py_min cy1 cy2), (py_max cx1 cx2), (py_max cy1 cy2).
  split; [reflexivity |].
  split; [eapply min_le_max; eassumption |].
  split; [eapply min_le_max; eassumption |].
  rewrite !clamp_fixed
    by first [apply within_min; assumption | apply within_max; assumption
             | apply ground_min; assumption | apply ground_max; assumption].
  rewrite !min_of_min_max, !max_of_min_max. reflexivity.
Qed.

Lemma convert_entry_is_idempotent_witness :
  (0 <= 1024)%Z /\ (0 <= 538)%Z /\
  exists xmin ymin xmax ymax,
    points (convert_entry_to_xlabel_shape JNull
              (PyInt 30) (PyInt 2000) (PyFloat 0) (PyFloat (41 # 2)) 1024 538)
    = [(xmin, ymin); (xmax, ymin); (xmax, ymax); (xmin, ymax)] /\
    num_le xmin xmax = true /\ num_le ymin ymax = true /\
    convert_entry_to_xlabel_shape JNull xmin ymin xmax ymax 1024 538
    = convert_entry_to_xlabel_shape JNull
        (PyInt 30) (PyInt 2000) (PyFloat 0) (PyFloat (41 # 2)) 1024 538.
Proof.
  split; [lia | split; [lia |]].
  apply (convert_entry_is_idempotent JNull
           (PyInt 30) (PyInt 2000) (PyFloat 0) (PyFloat (41 # 2)) 1024 538); lia.
Defined.

Lemma scaled_in_range (q : Q) (w : Z) :
  (0 <= w)%Z -> (inject_Z 0 <= q)%Q -> (q <= inject_Z 1)%Q ->
  (inject_Z 0 <= Qred (q * inject_Z w))%Q /\ (Qred (q * inject_Z w) <= inject_Z w)%Q.
Proof.
  intros Hw H0 H1. rewrite Qred_correct.
  assert (HW : (0 <= inject_Z w)%Q) by (change 0%Q with (inject_Z 0); rewrite <- Zle_Qle; exact Hw).
  split.
  - change (inject_Z 0) with 0%Q. apply Qmult_le_0_compat; assumption.
  - apply Qle_trans with (1 * inject_Z w)%Q.
    + apply Qmult_le_compat_r; assumption.
    + rewrite Qmult_1_l. apply Qle_refl.
Qed.

(** [max(0, min(w, b * w))] is [b * w] when [0 <= b <= 1]. *)
Lemma clamp_scaled (w : Z) (b : number) :
  (0 <= w)%Z -> is_normalized b = true ->
  num_eqb (py_max (PyInt 0) (py_min (PyInt w) (num_mul b w))) (num_mul b w) = true.
Proof.
  intros Hw Hb. unfold is_normalized in Hb. apply andb_prop in Hb as [H0 H1].
  destruct b as [z | q | | [|]]; simpl in H0, H1; try discriminate.
  - apply Z.leb_le in H0, H1.
    unfold num_eqb, py_min, num_mul. simpl.
    destruct (z * w <? w)%Z eqn:E; unfold py_max; simpl;
      num_cases; num_props; simpl; num_solve; try nia.
  - apply Qle_bool_iff in H0, H1.
    destruct (scaled_in_range q w Hw H0 H1) as [L U].
    unfold num_eqb, py_min, num_mul. simpl.
    set (p := Qred (q * inject_Z w)) in *. clearbody p.
    assert (HW : (inject_Z 0 <= inject_Z w)%Q) by (rewrite <- Zle_Qle; exact Hw).
    destruct (Qle_bool (inject_Z w) p) eqn:E; unfold py_max; simpl;
      num_cases; num_props; simpl; num_solve;
      repeat match goal with H : (_ <= _)%Z |- _ => rewrite Zle_Qle in H end; lra.
Qed.



(** ** The foreground side of a turn *)

Lemma handle_app (a b : list signal) (d : dialog) :
  handle (a ++ b) d = handle b (handle a d).
Proof. apply fold_left_app. Qed.

(** Text updates add up in the label of the loading message and touch
    nothing else. *)
Lemma updates_accumulate (chunks : list text) :
  forall (d : dialog) (lbl : option text),
    loading_message d = Some lbl ->
    exists lbl',
      loading_message (handle (map TextUpdate chunks) d) = Some lbl' /\
      label_text lbl' = label_text lbl ++ concat chunks /\
      chat_history (handle (map TextUpdate chunks) d) = chat_history d /\
      streaming (handle (map TextUpdate chunks) d) = streaming d /\
      filename (handle (map TextUpdate chunks) d) = filename d.
Proof.
  induction chunks as [| c chunks IH]; intros d lbl Hl.
  - exists lbl. simpl. rewrite app_nil_r. auto.
  - change (handle (map TextUpdate (c :: chunks)) d)
      with (handle (map TextUpdate chunks) (update_output c d)).
    assert (Hu : update_output c d
                 = set_loading_message (Some (Some (label_text lbl ++ c))) d).
    { unfold update_output. rewrite Hl. reflexivity. }
    rewrite Hu.
    destruct (IH (set_loading_message (Some (Some (label_text lbl ++ c))) d)
                (Some (label_text lbl ++ c)) eq_refl)
      as (lbl' & H1 & H2 & H3 & H4 & H5).
    exists lbl'. rewrite H1, H2, H3, H4, H5. simpl. rewrite app_assoc. auto.
Qed.

Lemma start_generation_gui (user_input : text) (r : response) (d : dialog) (st : system) :
  start_generation user_input r d = Some st ->
  (exists m, msg_role m = User /\ chat_history (gui st) = chat_history d ++ [m]) /\
  loading_message (gui st) = Some None /\ streaming (gui st) = true /\
  filename (gui st) = filename d.
Proof.
  unfold start_generation. destruct (streaming d); [discriminate |].
  destruct (is_empty (strip user_input)); [discriminate |].
  intros H. inversion H; subst; clear H. simpl.
  unfold add_message.
  destruct (contains (py "@image") (strip user_input)
            || contains (py "<image>") (strip user_input)); simpl;
    (split; [eexists; split; [| reflexivity]; reflexivity | auto]).
Qed.

Lemma success_is_committed (d : dialog) (chunks : list text) :
  loading_message d = Some None ->
  let d' :=
    handle (Loading true :: map TextUpdate chunks ++ [Finished true; Loading false]) d in
  chat_history d' = chat_history d ++ [assistant_message (concat chunks)] /\
  loading_message d' = None /\ streaming d' = false.
Proof.
  intros Hl.
  destruct (updates_accumulate chunks d None Hl) as (lbl' & H1 & H2 & H3 & _).
  simpl in H2.
  cbn zeta. change (Loading true :: ?l) with ([Loading true] ++ l).
  rewrite !handle_app. simpl handle at 3.
  simpl. unfold on_stream_finished. rewrite H1. simpl.
  fold (label_text lbl'). rewrite H2, H3. auto.
Qed.

Lemma failure_is_rolled_back (d : dialog) (chunks : list text) (e : text) :
  loading_message d = Some None ->
  let d' :=
    handle (Loading true :: map TextUpdate chunks ++ [ErrorOccurred e; Finished false]) d in
  chat_history d' = removelast (chat_history d) /\
  loading_message d' = None /\ streaming d' = false.
Proof.
  intros Hl.
  destruct (updates_accumulate chunks d None Hl) as (lbl' & H1 & H2 & H3 & _).
  cbn zeta. change (Loading true :: ?l) with ([Loading true] ++ l).
  rewrite !handle_app. simpl handle at 3.
  simpl. unfold handle_error. rewrite H1. simpl.
  rewrite H3. auto.
Qed.

(** X4. The foreground side of a turn that succeeds: the text updates add
    up in the loading message, and the success signal appends their
    concatenation to the history as one assistant message, after the user's
    message; the loading message is gone and the dialog no longer streams.
    With no text update at all the assistant message is empty. *)
Theorem streamed_text_is_committed (d : dialog) (user_input : text) (r : response)
  (st : system) (chunks : list text) :
  start_generation user_input r d = Some st ->
  let d' :=
    handle (Loading true :: map TextUpdate chunks ++ [Finished true; Loading false])
      (gui st) in
  (exists m, msg_role m = User /\
             chat_history d' = chat_history d ++ [m; assistant_message (concat chunks)]) /\
  loading_message d' = None /\ streaming d' = false.
Proof.
  intros Hs. apply start_generation_gui in Hs as ((m & Hm & Hh) & Hl & _ & _).
  destruct (success_is_committed (gui st) chunks Hl) as (H1 & H2 & H3).
  cbn zeta. rewrite H1, H2, H3, Hh, <- app_assoc.
  split; [| auto]. exists m. auto.
Qed.

Lemma streamed_text_is_committed_witness :
  exists st,
    start_generation (py " hi ") two_chunks empty_dialog = Some st /\
    exists m,
      msg_role m = User /\
      chat_history
        (handle (Loading true :: map TextUpdate [py "Hel"; py "lo"]
                   ++ [Finished true; Loading false]) (gui st))
      = chat_history empty_dialog
        ++ [m; assistant_message (concat [py "Hel"; py "lo"])].
Proof.
  eexists. split; [reflexivity |].
  exact (proj1 (streamed_text_is_committed empty_dialog (py " hi ") two_chunks _
                  [py "Hel"; py "lo"] eq_refl)).
Defined.

(** X5. The foreground side of a turn that fails: the error signal removes
    the loading message, with whatever text it had received, and rolls the
    history back by one message, which is the user's message of this turn:
    afterwards the history is what it was before the turn. *)
Theorem failed_turn_drops_the_question (d : dialog) (user_input : text) (r : response)
  (st : system) (chunks : list text) (e : text) :
  start_generation user_input r d = Some st ->
  let d' :=
    handle (Loading true :: map TextUpdate chunks ++ [ErrorOccurred e; Finished false])
      (gui st) in
  chat_history d' = chat_history d /\ loading_message d' = None /\ streaming d' = false.
Proof.
  intros Hs. apply start_generation_gui in Hs as ((m & Hm & Hh) & Hl & _ & _).
  destruct (failure_is_rolled_back (gui st) chunks e Hl) as (H1 & H2 & H3).
  cbn zeta. rewrite H1, H2, H3, Hh, removelast_last. auto.
Qed.

Lemma failed_turn_drops_the_question_witness :
  exists st,
    start_generation (py "hi") two_chunks empty_dialog = Some st /\
    chat_history
      (handle (Loading true :: map TextUpdate [py "Hel"]
                 ++ [ErrorOccurred (py "timeout"); Finished false]) (gui st))
    = chat_history empty_dialog.
Proof.
  eexists. split; [reflexivity |].
  exact (proj1 (failed_turn_drops_the_question empty_dialog (py "hi") two_chunks _
                  [py "Hel"] (py "timeout") eq_refl)).
Defined.

(** ** A turn nobody stops *)

Lemma unstopped_step (r : response) (d0 : dialog) (a : actor) (st : system) :
  a <> StopButton -> unstopped r d0 st -> unstopped r d0 (step a st).
Proof.
  intros Ha (Hstop & Hpoll & Hpend & Hfifo & Hgui).
  destruct a; [| | congruence |]; simpl.
  - unfold stream_generation_step.
    destruct (worker st) as [r' | [c r' | | e] | c r' | t r' | | | e | |] eqn:Hw;
      simpl in Hpend |- *; unfold unstopped; simpl;
      rewrite ?Hstop; simpl;
      try (destruct c as [[| x t] |]; simpl);
      rewrite ?Hw, ?Hfifo, <- ?app_assoc in *; simpl; auto 10.
  - unfold check_for_cancellation_step.
    destruct Hpoll as [Hp | Hp]; rewrite Hp, ?Hstop; unfold unstopped; auto 10.
  - unfold foreground_step. destruct (queue st) as [| sg q] eqn:Hq.
    + unfold unstopped. rewrite Hq. auto 10.
    + unfold unstopped. simpl.
      split; [exact Hstop |]. split; [exact Hpoll |].
      split; [exact Hpend |].
      split; [rewrite Hfifo, <- app_assoc; reflexivity |].
      rewrite handle_app, <- Hgui. reflexivity.
Qed.

Lemma unstopped_run (r : response) (d0 : dialog) (schedule : list actor) :
  forall st,
    ~ In StopButton schedule -> unstopped r d0 st ->
    unstopped r d0 (run schedule st).
Proof.
  induction schedule as [| a schedule IH]; intros st Hno Hinv; simpl; [exact Hinv |].
  apply IH.
  - intros Hin. apply Hno. right. exact Hin.
  - apply unstopped_step; [| exact Hinv].
    intros ->. apply Hno. left. reflexivity.
Qed.

Lemma unstopped_start (user_input : text) (r : response) (d : dialog) (st0 : system) :
  start_generation user_input r d = Some st0 -> unstopped r (gui st0) st0.
Proof.
  unfold start_generation. destruct (streaming d); [discriminate |].
  destruct (is_empty (strip user_input)); [discriminate |].
  intros H. inversion H; subst; clear H. unfold unstopped. simpl. auto 10.
Qed.

Lemma steps_from_next_positive (r : response) : (0 < steps_from_next r)%nat.
Proof. destruct r as [[[| x t] |] rest | | e]; simpl; lia. Qed.

Lemma no_steps_left (w : worker_pc) : steps_left w = 0%nat -> w = WDone.
Proof.
  destruct w as [r | r | [[| x t] |] r | t r | | | e | |]; simpl;
    try discriminate; try reflexivity;
    pose proof (steps_from_next_positive r); lia.
Qed.

Lemma worker_progress (st : system) (n : nat) :
  stop_requested st = false -> steps_left (worker st) = S n ->
  stop_requested (stream_generation_step st) = false /\
  steps_left (worker (stream_generation_step st)) = n.
Proof.
  intros Hstop. unfold stream_generation_step.
  destruct (worker st) as [r | [[[| x t] |] r | | e] | [[| x t] |] r | t r | | | e | |];
    simpl; rewrite ?Hstop; simpl; intros H; split; auto; lia.
Qed.

Lemma worker_runs_to_its_end (n : nat) :
  forall st,
    stop_requested st = false -> steps_left (worker st) = n ->
    worker (run (repeat WorkerThread n) st) = WDone.
Proof.
  induction n as [| n IH]; intros st Hstop Hn; simpl.
  - apply no_steps_left, Hn.
  - destruct (worker_progress st n Hstop Hn) as [H1 H2]. apply IH; assumption.
Qed.

Lemma foreground_keeps_worker (n : nat) :
  forall st, worker (run (repeat Foreground n) st) = worker st.
Proof.
  induction n as [| n IH]; intros st; simpl; [reflexivity |].
  rewrite IH. unfold foreground_step. destruct (queue st); reflexivity.
Qed.

Lemma foreground_empties_the_queue (n : nat) :
  forall st, (length (queue st) <= n)%nat -> queue (run (repeat Foreground n) st) = [].
Proof.
  induction n as [| n IH]; intros st Hn; simpl.
  - destruct (queue st); [reflexivity | simpl in Hn; lia].
  - apply IH. unfold foreground_step.
    destruct (queue st) as [| sg q] eqn:Hq; simpl in *; [rewrite Hq; simpl |]; lia.
Qed.

Lemma run_app (a b : list actor) (st : system) : run (a ++ b) st = run b (run a st).
Proof. apply fold_left_app. Qed.

Lemma no_stop_in_repeat (a : actor) (n : nat) :
  a <> StopButton -> ~ In StopButton (repeat a n).
Proof. intros Ha Hin. apply repeat_spec in Hin. congruence. Qed.

Lemma one_terminal_signal (r : response) :
  length (filter is_terminal (signals_of r)) = 1%nat.
Proof.
  unfold signals_of. simpl. rewrite filter_app.
  assert (H : filter is_terminal (map TextUpdate (contents r)) = []).
  { induction (contents r) as [| c l IH]; simpl; auto. }
  rewrite H. destruct (outcome r); reflexivity.
Qed.

Lemma after_the_worker (r : response) (d0 : dialog) (st0 : system) (n : nat) :
  unstopped r d0 st0 -> steps_left (worker st0) = n ->
  worker (run (repeat WorkerThread n) st0) = WDone /\
  (length (queue (run (repeat WorkerThread n) st0)) <= length (signals_of r))%nat.
Proof.
  intros Hinv Hn.
  assert (Hw : worker (run (repeat WorkerThread n) st0) = WDone).
  { apply worker_runs_to_its_end; [| exact Hn]. destruct Hinv as (H & _). exact H. }
  split; [exact Hw |].
  assert (Hno : ~ In StopButton (repeat WorkerThread n))
    by (apply no_stop_in_repeat; discriminate).
  destruct (unstopped_run r d0 (repeat WorkerThread n) st0 Hno Hinv)
    as (_ & _ & Hpend & Hfifo & _).
  rewrite Hw in Hpend. simpl in Hpend. rewrite app_nil_r in Hpend.
  rewrite <- Hpend, Hfifo, length_app. lia.
Qed.

(** X6. A turn in which the stop button is not pressed, in whatever order
    the worker, the cancellation poller and the foreground take their
    steps.  Once the worker is through and the channel is empty, the
    signals sent and handled are: loading, one text update for each chunk
    that carries text, in order, and the closing pair of the response, with
    exactly one terminal signal among them.  The history has then grown by
    the user's message and one assistant message holding the chunks'
    concatenation when the stream ended, and is back to what it was before
    the turn when the stream raised.  The worker does get through: it does
    when it runs alone and the foreground empties the channel after it. *)
Theorem unstopped_turn_ends_once (d : dialog) (user_input : text) (r : response)
  (st0 : system) :
  start_generation user_input r d = Some st0 ->
  (forall schedule,
      ~ In StopButton schedule ->
      let st := run schedule st0 in
      worker st = WDone -> queue st = [] ->
      emitted st = signals_of r /\ delivered st = signals_of r /\
      length (filter is_terminal (emitted st)) = 1%nat /\
      streaming (gui st) = false /\
      chat_history (gui st)
      = match outcome r with
        | None => chat_history (gui st0) ++ [assistant_message (concat (contents r))]
        | Some _ => chat_history d
        end) /\
  ~ In StopButton (worker_then_foreground r) /\
  worker (run (worker_then_foreground r) st0) = WDone /\
  queue (run (worker_then_foreground r) st0) = [].
Proof.
  intros Hstart.
  assert (Hinv := unstopped_start _ _ _ _ Hstart).
  destruct (start_generation_gui _ _ _ _ Hstart) as ((m & Hm & Hh) & Hl & _ & _).
  split; [| split; [| split]].
  - intros schedule Hno st Hw Hq.
    destruct (unstopped_run r (gui st0) schedule st0 Hno Hinv)
      as (_ & _ & Hpend & Hfifo & Hgui).
    fold st in Hpend, Hfifo, Hgui.
    rewrite Hw in Hpend. simpl in Hpend. rewrite app_nil_r in Hpend.
    rewrite Hq, app_nil_r, Hpend in Hfifo. symmetry in Hfifo.
    rewrite Hgui, Hfifo, Hpend.
    split; [reflexivity |]. split; [reflexivity |].
    split; [apply one_terminal_signal |].
    unfold signals_of, closing. destruct (outcome r) as [e |].
    + destruct (failure_is_rolled_back (gui st0) (contents r) e Hl) as (H1 & _ & H3).
      cbn zeta in H1, H3. rewrite H1, H3, Hh, removelast_last. auto.
    + destruct (success_is_committed (gui st0) (contents r) Hl) as (H1 & _ & H3).
      cbn zeta in H1, H3. rewrite H1, H3. auto.
  - unfold worker_then_foreground. intros Hin. apply in_app_or in Hin as [Hin | Hin];
      revert Hin; apply no_stop_in_repeat; discriminate.
  - unfold worker_then_foreground. rewrite run_app, foreground_keeps_worker.
    apply (after_the_worker r (gui st0) st0); [exact Hinv |].
    unfold start_generation in Hstart. destruct (streaming d); [discriminate |].
    destruct (is_empty (strip user_input)); [discriminate |].
    inversion Hstart. reflexivity.
  - unfold worker_then_foreground. rewrite run_app.
    apply foreground_empties_the_queue.
    apply (after_the_worker r (gui st0) st0); [exact Hinv |].
    unfold start_generation in Hstart. destruct (streaming d); [discriminate |].
    destruct (is_empty (strip user_input)); [discriminate |].
    inversion Hstart. reflexivity.
Qed.

Lemma unstopped_turn_ends_once_witness :
  exists st0,
    start_generation (py "hi") two_chunks empty_dialog = Some st0 /\
    worker (run (worker_then_foreground two_chunks) st0) = WDone /\
    queue (run (worker_then_foreground two_chunks) st0) = [].
Proof.
  eexists. split; [reflexivity |].
  apply (unstopped_turn_ends_once empty_dialog (py "hi") two_chunks _ eq_refl).
Defined.

(** ** The image token of user messages *)

Lemma lstrip_split (s : text) :
  exists a, s = a ++ lstrip s /\ Forall (fun c => is_space c = true) a.
Proof.
  induction s as [| c s (a & Ha & Hs)]; simpl.
  - exists []. auto.
  - destruct (is_space c) eqn:E.
    + exists (c :: a). simpl. rewrite <- Ha. auto.
    + exists []. auto.
Qed.

Lemma lstrip_stops (s : text) : stops_at is_space (lstrip s).
Proof.
  induction s as [| c s IH]; simpl; [exact I |].
  destruct (is_space c) eqn:E; [exact IH | exact E].
Qed.

Lemma lstrip_fixed (s : text) : stops_at is_space s -> lstrip s = s.
Proof. destruct s as [| c s]; simpl; [reflexivity |]. intros ->. reflexivity. Qed.

(** The pattern matches wherever the token stands, and takes the white
    space after it. *)
Lemma image_token_match (s : text) :
  match_here image_token_pattern s
  = if starts_with image_token s then Some (lstrip (skipn 6 s), []) else None.
Proof.
  unfold match_here, image_token_pattern. cbn [rmatch].
  fold image_token. destruct (starts_with image_token s); [| reflexivity].
  change (length image_token) with 6%nat.
  destruct (lstrip_split (skipn 6 s)) as (a & Ha & Hs).
  rewrite Ha at 1.
  apply rep_greedy_run; [exact Hs | apply lstrip_stops |].
  pose proof (lstrip_stops (skipn 6 s)) as Hstop.
  destruct (lstrip (skipn 6 s)) as [| c rest]; [reflexivity |].
  simpl in Hstop. rewrite Hstop. reflexivity.
Qed.

Lemma sub_from_skip (r : regex) (repl : text) (s : text) :
  forall n, sub_from r repl s n = sub_from r repl (skipn n s) 0.
Proof.
  induction s as [| c s IH]; intros [| n]; simpl; auto.
Qed.

Local Abbreviation sub := (re_sub image_token_pattern image_tag).

Lemma sub_nil : sub [] = [].
Proof. reflexivity. Qed.

Lemma skip_counted {A} (x : A) (u t : list A) :
  skipn (length (x :: u ++ t) - length t - 1) (u ++ t) = t.
Proof.
  simpl length. rewrite length_app.
  replace (S (length u + length t) - length t - 1)%nat with (length u) by lia.
  apply skipn_length_app.
Qed.

Lemma sub_cons (c : N) (s : text) :
  sub (c :: s)
  = if starts_with image_token (c :: s)
    then image_tag ++ sub (lstrip (skipn 6 (c :: s)))
    else c :: sub s.
Proof.
  unfold re_sub. cbn [sub_from]. rewrite image_token_match.
  destruct (starts_with image_token (c :: s)) eqn:E; [| reflexivity].
  f_equal. rewrite sub_from_skip. f_equal.
  destruct (lstrip_split (skipn 6 (c :: s))) as (a & Ha & _).
  apply starts_with_split in E. change (length image_token) with 6%nat in E.
  set (t := lstrip (skipn 6 (c :: s))) in *. clearbody t.
  rewrite Ha in E. injection E as _ E.
  change (s = (py "image" ++ a) ++ t) in E. subst s.
  apply skip_counted.
Qed.

Lemma image_token_chars : image_token = 64 :: py "image".
Proof. reflexivity. Qed.

Lemma image_tag_chars : image_tag = 60 :: py "image>".
Proof. reflexivity. Qed.

Lemma starts_with_tag (c : N) (s : text) :
  starts_with image_tag (c :: s) = (60 =? c) && starts_with (py "image>") s.
Proof. reflexivity. Qed.

Lemma token_head (c : N) (s : text) :
  starts_with image_token (c :: s) = true -> c = 64.
Proof.
  rewrite image_token_chars. cbn [starts_with]. intros H.
  apply andb_prop in H as [H _]. apply N.eqb_eq in H. congruence.
Qed.

Lemma lstrip_length (s : text) : (length (lstrip s) <= length s)%nat.
Proof.
  induction s as [| c s IH]; simpl; [lia |].
  destruct (is_space c); simpl; lia.
Qed.

Lemma after_token_shorter (c : N) (s : text) :
  (length (lstrip (skipn 6 (c :: s))) <= length s)%nat.
Proof.
  etransitivity; [apply lstrip_length |].
  rewrite length_skipn. simpl. lia.
Qed.

(** What the result starts with, the text started with, unless it is the
    tag put in. *)
Lemma sub_starts_with (u : text) :
  Forall (fun x => x <> 60) u ->
  forall s, starts_with u (sub s) = true -> starts_with u s = true.
Proof.
  induction 1 as [| x u Hx Hu IH]; intros s H; [reflexivity |].
  destruct s as [| c s]; [rewrite sub_nil in H; discriminate |].
  rewrite sub_cons in H. destruct (starts_with image_token (c :: s)).
  - rewrite image_tag_chars in H. cbn [app starts_with] in H.
    apply andb_prop in H as [H _]. apply N.eqb_eq in H. congruence.
  - cbn [starts_with] in H |- *. apply andb_prop in H as [H1 H2].
    rewrite H1. simpl. auto.
Qed.

Lemma sub_keeps_start (u : text) :
  Forall (fun x => x <> 64) u ->
  forall s, starts_with u s = true -> starts_with u (sub s) = true.
Proof.
  induction 1 as [| x u Hx Hu IH]; intros s H; [reflexivity |].
  destruct s as [| c s]; [discriminate |].
  cbn [starts_with] in H. apply andb_prop in H as [H1 H2].
  rewrite sub_cons. destruct (starts_with image_token (c :: s)) eqn:E.
  - apply token_head in E. apply N.eqb_eq in H1. congruence.
  - cbn [starts_with]. rewrite H1. simpl. auto.
Qed.

Lemma token_not_at_head (s : text) : starts_with image_token (sub s) = false.
Proof.
  destruct (starts_with image_token (sub s)) eqn:E; [| reflexivity].
  assert (H : starts_with image_token s = true).
  { revert E. apply sub_starts_with. repeat constructor; discriminate. }
  destruct s as [| c s]; [discriminate |].
  rewrite sub_cons, H, image_tag_chars, image_token_chars in E.
  cbn [app starts_with] in E. discriminate E.
Qed.

Lemma contains_cons (needle : text) (c : N) (s : text) :
  contains needle (c :: s) = starts_with needle (c :: s) || contains needle s.
Proof. reflexivity. Qed.

Lemma sub_has_no_token_upto (n : nat) :
  forall s, (length s <= n)%nat -> contains image_token (sub s) = false.
Proof.
  induction n as [| n IH]; intros s Hn.
  - destruct s; [reflexivity | simpl in Hn; lia].
  - destruct s as [| c s]; [reflexivity |]. simpl in Hn.
    pose proof (token_not_at_head (c :: s)) as Hhead.
    rewrite sub_cons in Hhead |- *.
    destruct (starts_with image_token (c :: s)).
    + change image_tag with [60; 105; 109; 97; 103; 101; 62]. cbn [app].
      rewrite !contains_cons, image_token_chars. cbn [starts_with].
      change (64 =? 60) with false. change (64 =? 105) with false.
      change (64 =? 109) with false. change (64 =? 97) with false.
      change (64 =? 103) with false. change (64 =? 101) with false.
      change (64 =? 62) with false. cbn [andb orb].
      rewrite <- image_token_chars.
      apply IH. pose proof (after_token_shorter c s). lia.
    + rewrite contains_cons, Hhead. simpl. apply IH. lia.
Qed.

(** No token is left in the result. *)
Lemma sub_has_no_token (s : text) : contains image_token (sub s) = false.
Proof. apply (sub_has_no_token_upto (length s)). lia. Qed.

Lemma contains_starts (needle s : text) :
  contains needle s = false -> starts_with needle s = false.
Proof. destruct s; simpl; intros H; apply orb_false_elim in H as [H _]; exact H. Qed.

(** Text without the token is left as it is. *)
Lemma sub_fixed (s : text) : contains image_token s = false -> sub s = s.
Proof.
  induction s as [| c s IH]; intros H; [reflexivity |].
  rewrite sub_cons. rewrite contains_cons in H.
  apply orb_false_elim in H as [H1 H2]. rewrite H1. f_equal. auto.
Qed.

(** The result holds the tag when the text held the token or the tag. *)
Lemma sub_has_tag_upto (n : nat) :
  forall s,
    (length s <= n)%nat ->
    contains image_token s || contains image_tag s = true ->
    contains image_tag (sub s) = true.
Proof.
  induction n as [| n IH]; intros s Hn H.
  - destruct s; [discriminate | simpl in Hn; lia].
  - destruct s as [| c s]; [discriminate |]. simpl in Hn.
    rewrite sub_cons. destruct (starts_with image_token (c :: s)) eqn:E.
    + destruct (image_tag ++ _) eqn:Eo; [discriminate |].
      rewrite contains_cons, <- Eo, starts_with_app. reflexivity.
    + rewrite !contains_cons, E in H. rewrite contains_cons.
      destruct (starts_with image_tag (c :: s)) eqn:Et.
      * rewrite starts_with_tag in Et |- *.
        apply andb_prop in Et as [Hc Et]. rewrite Hc.
        rewrite (sub_keeps_start (py "image>")
                   ltac:(repeat constructor; discriminate) s Et).
        reflexivity.
      * simpl in H. rewrite IH; [apply orb_true_r | lia | exact H].
Qed.

Lemma sub_has_tag (s : text) :
  contains image_token s || contains image_tag s = true ->
  contains image_tag (sub s) = true.
Proof. apply (sub_has_tag_upto (length s)). lia. Qed.

(** *** [str.strip] *)

Lemma strip_split (s : text) :
  exists a b,
    s = a ++ strip s ++ b /\
    Forall (fun c => is_space c = true) a /\ Forall (fun c => is_space c = true) b.
Proof.
  destruct (lstrip_split s) as (a & Ha & Hsa).
  destruct (lstrip_split (rev (lstrip s))) as (b & Hb & Hsb).
  exists a, (rev b). split; [| split; [exact Hsa |]].
  - unfold strip. rewrite <- rev_app_distr, <- Hb, rev_involutive. exact Ha.
  - apply Forall_forall. intros c Hc. apply in_rev in Hc.
    rewrite Forall_forall in Hsb. auto.
Qed.

Lemma stops_at_prefix {A} (p : A -> bool) (u v : list A) :
  stops_at p (u ++ v) -> u <> [] -> stops_at p u.
Proof. destruct u; [congruence | auto]. Qed.

Lemma strip_stops (s : text) : stops_at is_space (strip s).
Proof.
  unfold strip.
  destruct (lstrip_split (rev (lstrip s))) as (b & Hb & _).
  set (z := lstrip (rev (lstrip s))) in *.
  destruct (rev z) as [| c u] eqn:E; [exact I |].
  apply (stops_at_prefix is_space (c :: u) (rev b)); [| discriminate].
  rewrite <- E, <- rev_app_distr, <- Hb, rev_involutive. apply lstrip_stops.
Qed.

(** Stripping what is stripped changes nothing. *)
Lemma strip_strip (s : text) : strip (strip s) = strip s.
Proof.
  unfold strip at 1. rewrite (lstrip_fixed (strip s)) by apply strip_stops.
  unfold strip. rewrite rev_involutive.
  rewrite (lstrip_fixed (lstrip _)) by apply lstrip_stops. reflexivity.
Qed.

Lemma starts_with_longer (needle a b : text) :
  starts_with needle a = true -> starts_with needle (a ++ b) = true.
Proof.
  revert a. induction needle as [| n needle IH]; intros a H; [reflexivity |].
  destruct a as [| c a]; [discriminate |].
  cbn [starts_with app] in *. apply andb_prop in H as [H1 H2].
  rewrite H1. simpl. auto.
Qed.

Lemma contains_longer (needle a b : text) :
  contains needle a = true -> contains needle (a ++ b) = true.
Proof.
  induction a as [| c a IH]; intros H.
  - simpl in H. rewrite orb_false_r in H.
    destruct needle; [| discriminate]. destruct b; reflexivity.
  - rewrite contains_cons in H. cbn [app]. rewrite contains_cons.
    apply orb_prop in H as [H | H].
    + change (c :: a ++ b) with ((c :: a) ++ b).
      rewrite (starts_with_longer needle (c :: a) b H). reflexivity.
    + rewrite IH by exact H. apply orb_true_r.
Qed.

Lemma contains_later (needle a b : text) :
  contains needle b = true -> contains needle (a ++ b) = true.
Proof.
  intros H. induction a as [| c a IH]; [exact H |].
  cbn [app]. rewrite contains_cons, IH. apply orb_true_r.
Qed.

Lemma contains_strip (needle s : text) :
  contains needle s = false -> contains needle (strip s) = false.
Proof.
  intros H. destruct (contains needle (strip s)) eqn:E; [| reflexivity].
  destruct (strip_split s) as (a & b & Hs & _).
  rewrite Hs in H. rewrite contains_later in H; [discriminate |].
  apply contains_longer, E.
Qed.

Lemma starts_with_trailing (needle : text) (b : text) :
  Forall (fun x => is_space x = false) needle ->
  Forall (fun c => is_space c = true) b ->
  forall z, starts_with needle (z ++ b) = starts_with needle z.
Proof.
  intros Hn Hb. induction Hn as [| n needle Hx Hn IH]; intros z; [reflexivity |].
  destruct z as [| c z]; cbn [app starts_with].
  - destruct Hb as [| c b Hc Hb]; [reflexivity |].
    cbn [starts_with]. destruct (n =? c) eqn:E; [| reflexivity].
    apply N.eqb_eq in E. congruence.
  - rewrite IH. reflexivity.
Qed.

Lemma contains_leading (needle : text) (n c : N) (s : text) :
  is_space n = false -> is_space c = true ->
  contains (n :: needle) (c :: s) = contains (n :: needle) s.
Proof.
  intros Hn Hc. rewrite contains_cons. cbn [starts_with].
  destruct (n =? c) eqn:E; [| reflexivity].
  apply N.eqb_eq in E. congruence.
Qed.

(** A needle without white space is in the stripped text when it is in the
    text. *)
Lemma contains_stripped (n : N) (needle s : text) :
  Forall (fun x => is_space x = false) (n :: needle) ->
  contains (n :: needle) (strip s) = contains (n :: needle) s.
Proof.
  intros Hn. destruct (strip_split s) as (a & b & Hs & Ha & Hb).
  rewrite Hs at 2. clear Hs.
  assert (Hhead : is_space n = false) by (inversion Hn; assumption).
  induction Ha as [| c a Hc Ha IH]; cbn [app].
  - induction (strip s) as [| c m IH]; cbn [app].
    + induction Hb as [| c b Hc Hb IH]; [reflexivity |].
      rewrite contains_leading by assumption. exact IH.
    + rewrite !contains_cons, IH.
      change (c :: m ++ b) with ((c :: m) ++ b).
      rewrite starts_with_trailing by assumption. reflexivity.
  - rewrite contains_leading by assumption. exact IH.
Qed.

Lemma tag_survives_strip (s : text) :
  contains image_tag (strip s) = contains image_tag s.
Proof. apply (contains_stripped 60 (py "image>")). repeat constructor. Qed.


(** X8. A content that [add_message] has stored is stored unchanged when it
    is added again, whatever the role: loading a saved history back into
    the dialog, which adds its messages one by one, gives the same
    contents. *)
Theorem stored_content_is_stable (r : role) (content : text) (d d2 : dialog) :
  exists m m2,
    chat_history (add_message r content false d) = chat_history d ++ [m] /\
    chat_history (add_message r (msg_content m) false d2) = chat_history d2 ++ [m2] /\
    msg_role m = r /\ msg_role m2 = r /\
    msg_content m2 = msg_content m.
Proof.
  destruct r; try (eexists _, _; repeat split; reflexivity).
  unfold add_message. fold image_token image_tag.
  destruct (contains image_token content || contains image_tag content) eqn:E.
  - exists (user_message (strip (sub content)) (filename d)).
    cbn [user_message msg_content].
    set (c := strip (sub content)).
    assert (Hc : contains image_token c = false)
      by apply contains_strip, sub_has_no_token.
    destruct (contains image_token c || contains image_tag c);
      eexists; (split; [reflexivity |]); (split; [reflexivity |]);
      repeat split; cbn [msg_content].
    rewrite (sub_fixed c Hc). apply strip_strip.
  - exists (user_message content None). cbn [user_message msg_content]. rewrite E.
    eexists. repeat split.
Qed.

(** ** The JSON text taken from a response *)

Lemma rep_greedy_none {R} (s : text) (k : text -> option R) :
  (forall t, k t = None) -> rep true any_char s k = None.
Proof.
  intros Hk. induction s as [| c s IH]; simpl; [apply Hk |].
  rewrite IH. apply Hk.
Qed.

Lemma closing_refused (c : N) (t : text) :
  Forall (fun x => x <> c) t ->
  rmatch (Lit [c]) t [] (fun s' caps => Some (s', caps)) = None.
Proof.
  intros Ht. cbn [rmatch starts_with].
  destruct Ht as [| x t Hx Ht]; [reflexivity |].
  destruct (c =? x) eqn:E; [| reflexivity].
  apply N.eqb_eq in E. congruence.
Qed.

(** A greedy [.*] before a closing character stops at the last one. *)
Lemma rep_greedy_last (c : N) (m b : text) :
  Forall (fun x => x <> c) b ->
  rep true any_char (m ++ c :: b)
    (fun t => rmatch (Lit [c]) t [] (fun s' caps => Some (s', caps)))
  = Some (b, []).
Proof.
  intros Hb. induction m as [| x m IH]; cbn [app rep any_char].
  - assert (H : forall t,
               Forall (fun x => x <> c) t ->
               rep true any_char t
                 (fun t => rmatch (Lit [c]) t [] (fun s' caps => Some (s', caps)))
               = None).
    { induction 1 as [| y t Hy Ht IHt]; cbn [rep any_char].
      - reflexivity.
      - rewrite IHt. apply closing_refused. constructor; assumption. }
    rewrite (H b Hb). cbn [rmatch starts_with]. rewrite N.eqb_refl. reflexivity.
  - rewrite IH. reflexivity.
Qed.

Lemma rep_greedy_unclosed (c : N) (t : text) :
  Forall (fun x => x <> c) t ->
  rep true any_char t
    (fun t => rmatch (Lit [c]) t [] (fun s' caps => Some (s', caps)))
  = None.
Proof.
  induction 1 as [| y t Hy Ht IHt]; cbn [rep any_char].
  - reflexivity.
  - rewrite IHt. apply closing_refused. constructor; assumption.
Qed.

Lemma match_delimited (o c : N) (m b : text) :
  Forall (fun x => x <> c) b ->
  match_here (delimited o c) (o :: m ++ c :: b) = Some (b, []).
Proof.
  intros Hb. unfold match_here, delimited. cbn [rmatch starts_with].
  rewrite N.eqb_refl. cbn [andb length skipn].
  apply rep_greedy_last, Hb.
Qed.

Lemma match_delimited_elsewhere (o c x : N) (s : text) :
  x <> o -> match_here (delimited o c) (x :: s) = None.
Proof.
  intros Hx. unfold match_here, delimited. cbn [rmatch starts_with].
  destruct (o =? x) eqn:E; [| reflexivity].
  apply N.eqb_eq in E. congruence.
Qed.

Lemma match_delimited_unclosed (o c : N) (s : text) :
  Forall (fun x => x <> c) s -> match_here (delimited o c) s = None.
Proof.
  intros Hs. unfold match_here, delimited. cbn [rmatch].
  destruct (starts_with [o] s) eqn:E; [| reflexivity].
  cbn [length]. apply rep_greedy_unclosed.
  destruct Hs as [| x s Hx Hs]; [constructor | exact Hs].
Qed.

(** [re.search] with an opening character, a greedy [.*] and a closing
    character returns the text from the first opening character to the last
    closing one. *)
Lemma search_delimited (o c : N) (a m b : text) :
  Forall (fun x => x <> o) a -> Forall (fun x => x <> c) b ->
  search (delimited o c) (a ++ o :: m ++ c :: b) = Some (o :: m ++ [c]).
Proof.
  intros Ha Hb. induction Ha as [| x a Hx Ha IH]; cbn [app search].
  - rewrite match_delimited by exact Hb. f_equal.
    change (o :: m ++ c :: b) with ((o :: m) ++ [c] ++ b).
    rewrite app_assoc. rewrite firstn_length_diff. reflexivity.
  - rewrite match_delimited_elsewhere by exact Hx. exact IH.
Qed.

Lemma search_without_opening (o c : N) (s : text) :
  Forall (fun x => x <> o) s -> search (delimited o c) s = None.
Proof.
  induction 1 as [| x s Hx Hs IH]; cbn [search].
  - reflexivity.
  - rewrite match_delimited_elsewhere by exact Hx. exact IH.
Qed.

Lemma search_without_closing (o c : N) (s : text) :
  Forall (fun x => x <> c) s -> search (delimited o c) s = None.
Proof.
  induction 1 as [| x s Hx Hs IH]; cbn [search].
  - reflexivity.
  - rewrite match_delimited_unclosed by (constructor; assumption). exact IH.
Qed.

(** X9. The JSON text [extract_json_from_response] decodes is the text from
    the first opening brace of the response to its last closing brace,
    whatever stands between them; the outermost pair of square brackets is
    used only when the response has no such pair of braces.  A response
    that holds nothing of the kind gives [None]. *)
Theorem json_text_is_outermost_pair (a m b : text) :
  (Forall (fun x => x <> 123) a -> Forall (fun x => x <> 125) b ->
   extract_json_from_response (a ++ [123] ++ m ++ [125] ++ b)
   = loads_or_none ([123] ++ m ++ [125])) /\
  (Forall (fun x => x <> 91) a -> Forall (fun x => x <> 93) b ->
   (Forall (fun x => x <> 123) (a ++ [91] ++ m ++ [93] ++ b) \/
    Forall (fun x => x <> 125) (a ++ [91] ++ m ++ [93] ++ b)) ->
   extract_json_from_response (a ++ [91] ++ m ++ [93] ++ b)
   = loads_or_none ([91] ++ m ++ [93])) /\
  ((Forall (fun x => x <> 123) a \/ Forall (fun x => x <> 125) a) ->
   (Forall (fun x => x <> 91) a \/ Forall (fun x => x <> 93) a) ->
   extract_json_from_response a = None).
Proof.
  unfold extract_json_from_response.
  change brace_pattern with (delimited 123 125).
  change bracket_pattern with (delimited 91 93).
  split; [| split].
  - intros Ha Hb. cbn [app]. rewrite search_delimited by assumption. reflexivity.
  - intros Ha Hb Hno.
    assert (H : search (delimited 123 125) (a ++ [91] ++ m ++ [93] ++ b) = None).
    { destruct Hno; [apply search_without_opening | apply search_without_closing];
        assumption. }
    rewrite H. cbn [app]. rewrite search_delimited by assumption. reflexivity.
  - intros H1 H2.
    assert (K1 : search (delimited 123 125) a = None).
    { destruct H1; [apply search_without_opening | apply search_without_closing];
        assumption. }
    assert (K2 : search (delimited 91 93) a = None).
    { destruct H2; [apply search_without_opening | apply search_without_closing];
        assumption. }
    rewrite K1, K2. reflexivity.
Qed.

Lemma json_text_is_outermost_pair_witness :
  Forall (fun x => x <> 123) (py "Found: ") /\
  Forall (fun x => x <> 125) (py " Done.") /\
  extract_json_from_response
    (py "Found: " ++ [123] ++ pyq "'a': {'b': 1}" ++ [125] ++ py " Done.")
  = loads_or_none ([123] ++ pyq "'a': {'b': 1}" ++ [125]).
Proof.
  split; [repeat constructor; discriminate |].
  split; [repeat constructor; discriminate |].
  apply (proj1 (json_text_is_outermost_pair (py "Found: ") (pyq "'a': {'b': 1}")
                  (py " Done.")));
    repeat constructor; discriminate.
Defined.

(** ** The objects of a response *)

Lemma add_plain_box (obj : json) (sh : shape) (shapes : list shape) :
  plain_box obj = Some sh -> add_object (Going shapes) obj = Going (shapes ++ [sh]).
Proof.
  unfold plain_box, add_object, add_points.
  destruct obj as [| | | | | d]; try discriminate.
  destruct (object_bbox d) as [| | | | [| [| | a | | |] [| [| | b | | |]
             [| [| | c | | |] [| [| | e | | |] [| x l]]]]] |]; try discriminate.
  destruct (truthy (object_points d)); [discriminate |].
  intros H. inversion H. reflexivity.
Qed.

Lemma add_broken_box (obj : json) (shapes : list shape) :
  broken_box obj = true -> add_object (Going shapes) obj = Stopped shapes.
Proof.
  unfold broken_box, add_object.
  destruct obj as [| | | | | d]; try discriminate.
  destruct (object_bbox d) as [| | | | [| x1 [| y1 [| x2 [| y2 [| x l]]]]] |];
    try discriminate.
  cbn [truthy is_empty negb bbox_corners map_result]. unfold qpoint.
  destruct (as_real x1); [| reflexivity]. destruct (as_real y1); [| reflexivity].
  destruct (as_real x2); [| reflexivity]. destruct (as_real y2); [| reflexivity].
  discriminate.
Qed.

Lemma stopped_stays (objects : list json) (shapes : list shape) :
  fold_left add_object objects (Stopped shapes) = Stopped shapes.
Proof. induction objects as [| o objects IH]; simpl; auto. Qed.

Lemma add_plain_boxes (good : list json) :
  forall (new shapes : list shape) (rest : list json),
    map plain_box good = map Some new ->
    fold_left add_object (good ++ rest) (Going shapes)
    = fold_left add_object rest (Going (shapes ++ new)).
Proof.
  induction good as [| obj good IH]; intros [| sh new] shapes rest H;
    try discriminate; cbn [app fold_left].
  - rewrite app_nil_r. reflexivity.
  - cbn [map] in H. injection H as Hb H.
    rewrite (add_plain_box obj sh shapes Hb), (IH new) by exact H.
    rewrite <- app_assoc. reflexivity.
Qed.

(** X10. [postprocess] on a list of objects.  Objects that each carry a box
    of four numbers, and no points, give one rectangle each, in the order of
    the list, from [(xmin, ymin)] to [(xmax, ymax)].  An object whose box
    holds something that is not a number ends the processing: the shapes of
    the objects before it are returned and every object after it is
    ignored, with only a line in the log. *)
Theorem malformed_box_ends_the_response (py_str : json -> text)
  (good : list json) (shapes : list shape) (w h : Z) :
  map plain_box good = map Some shapes ->
  postprocess_data py_str (JArr good) w h = shapes /\
  (forall bad rest,
      broken_box bad = true ->
      postprocess_data py_str (JArr (good ++ bad :: rest)) w h = shapes).
Proof.
  intros Hgood. unfold postprocess_data. cbn [py_iter]. split.
  - rewrite <- (app_nil_r good), (add_plain_boxes good shapes [] [] Hgood). reflexivity.
  - intros bad rest Hbad.
    rewrite (add_plain_boxes good shapes [] _ Hgood). cbn [app fold_left].
    rewrite add_broken_box by exact Hbad. rewrite stopped_stays. reflexivity.
Qed.

Lemma malformed_box_ends_the_response_witness :
  map plain_box
    [box_object "cat" (JNum (PyInt 1)) (JNum (PyInt 2)) (JNum (PyInt 3)) (JNum (PyInt 4))]
  = map Some [rectangle (JStr (py "cat")) [(PyInt 1, PyInt 2); (PyInt 3, PyInt 4)]] /\
  broken_box
    (box_object "dog" (JStr (py "5")) (JNum (PyInt 6)) (JNum (PyInt 7)) (JNum (PyInt 8)))
  = true /\
  postprocess_data (fun _ => [])
    (JArr ([box_object "cat" (JNum (PyInt 1)) (JNum (PyInt 2)) (JNum (PyInt 3))
              (JNum (PyInt 4))]
           ++ box_object "dog" (JStr (py "5")) (JNum (PyInt 6)) (JNum (PyInt 7))
                (JNum (PyInt 8))
           :: [box_object "bird" (JNum (PyInt 1)) (JNum (PyInt 1)) (JNum (PyInt 2))
                 (JNum (PyInt 2))]))
    100 100
  = [rectangle (JStr (py "cat")) [(PyInt 1, PyInt 2); (PyInt 3, PyInt 4)]].
Proof.
  split; [reflexivity | split; [reflexivity |]].
  apply (malformed_box_ends_the_response (fun _ => [])
           [box_object "cat" (JNum (PyInt 1)) (JNum (PyInt 2)) (JNum (PyInt 3))
              (JNum (PyInt 4))]
           [rectangle (JStr (py "cat")) [(PyInt 1, PyInt 2); (PyInt 3, PyInt 4)]]
           100 100);
    reflexivity.
Defined.

Lemma json_induction (P : json -> Prop) :
  P JNull -> (forall b, P (JBool b)) -> (forall n, P (JNum n)) ->
  (forall s, P (JStr s)) ->
  (forall items, Forall P items -> P (JArr items)) ->
  (forall d, Forall (fun kv => P (snd kv)) d -> P (JObj d)) ->
  forall v, P v.
Proof.
  intros Hnull Hbool Hnum Hstr Harr Hobj.
  fix IH 1. intros [| b | n | s | items | d].
  - exact Hnull.
  - apply Hbool.
  - apply Hnum.
  - apply Hstr.
  - apply Harr. revert items. fix IHl 1. intros [| x items]; constructor.
    + apply IH.
    + apply IHl.
  - apply Hobj. revert d. fix IHl 1. intros [| [k x] d]; constructor.
    + apply IH.
    + apply IHl.
Qed.

(** ** Strings: [encode_basestring] and [scanstring] *)

Lemma hex_digit_value (n : N) : n < 16 -> hex_val (hex_digit n) = Some n.
Proof.
  intros Hn. unfold hex_digit, hex_val, is_digit09.
  destruct (n <? 10) eqn:E.
  - apply N.ltb_lt in E.
    replace (48 <=? 48 + n) with true by (symmetry; apply N.leb_le; lia).
    replace (48 + n <=? 57) with true by (symmetry; apply N.leb_le; lia).
    simpl. f_equal. lia.
  - apply N.ltb_ge in E.
    replace (48 <=? 87 + n) with true by (symmetry; apply N.leb_le; lia).
    replace (87 + n <=? 57) with false by (symmetry; apply N.leb_gt; lia).
    replace (97 <=? 87 + n) with true by (symmetry; apply N.leb_le; lia).
    replace (87 + n <=? 102) with true by (symmetry; apply N.leb_le; lia).
    simpl. f_equal. lia.
Qed.

Lemma after_low_escape (uni : N) (X : text) :
  is_high_surrogate uni = false ->
  match X with
  | b :: u :: l1 :: l2 :: l3 :: l4 :: s4 =>
      if is_high_surrogate uni && (b =? 92) && (u =? 117) then
        match decode_uXXXX l1 l2 l3 l4 with
        | None => None
        | Some uni2 =>
            if is_low_surrogate uni2 then
              cons_to (65536 + ((uni - 55296) * 1024 + (uni2 - 56320)))
                      (scanstring s4)
            else cons_to uni (scanstring X)
        end
      else cons_to uni (scanstring X)
  | _ =>
      if is_high_surrogate uni && starts_with [92; 117] X then None
      else cons_to uni (scanstring X)
  end = cons_to uni (scanstring X).
Proof.
  intros H. rewrite H.
  destruct X as [| b [| u [| l1 [| l2 [| l3 [| l4 s4]]]]]]; reflexivity.
Qed.

Lemma scanstring_escape (c : N) (X : text) :
  scanstring (escape_char c ++ X) = cons_to c (scanstring X).
Proof.
  unfold escape_char.
  destruct (c =? 92) eqn:E92; [apply N.eqb_eq in E92; subst; reflexivity |].
  destruct (c =? 34) eqn:E34; [apply N.eqb_eq in E34; subst; reflexivity |].
  destruct (c =? 8) eqn:E8; [apply N.eqb_eq in E8; subst; reflexivity |].
  destruct (c =? 12) eqn:E12; [apply N.eqb_eq in E12; subst; reflexivity |].
  destruct (c =? 10) eqn:E10; [apply N.eqb_eq in E10; subst; reflexivity |].
  destruct (c =? 13) eqn:E13; [apply N.eqb_eq in E13; subst; reflexivity |].
  destruct (c =? 9) eqn:E9; [apply N.eqb_eq in E9; subst; reflexivity |].
  destruct (c <? 32) eqn:E32.
  - apply N.ltb_lt in E32.
    cbn [app scanstring].
    change (92 =? 34) with false. change (92 =? 92) with true.
    change (117 =? 117) with true. cbv iota.
    assert (Hd : decode_uXXXX 48 48 (hex_digit (c / 16)) (hex_digit (c mod 16)) = Some c).
    { unfold decode_uXXXX. change (hex_val 48) with (Some 0).
      rewrite !hex_digit_value.
      - f_equal. pose proof (N.div_mod c 16). lia.
      - apply N.mod_lt. discriminate.
      - apply N.Div0.div_lt_upper_bound. lia. }
    rewrite Hd. apply after_low_escape.
    unfold is_high_surrogate. apply andb_false_intro1. apply N.leb_gt. lia.
  - cbn [app scanstring]. rewrite E34, E92, E32. reflexivity.
Qed.

Lemma scanstring_encoded (s rest : text) :
  scanstring (flat_map escape_char s ++ 34 :: rest) = Some (s, rest).
Proof.
  induction s as [| c s IH]; [reflexivity |].
  cbn [flat_map]. rewrite <- app_assoc, scanstring_escape, IH. reflexivity.
Qed.

(** ** Integers: [int.__repr__] and the number scanner *)

Lemma py_string_of_uint (d : Decimal.uint) :
  py (NilEmpty.string_of_uint d) = digit_chars d.
Proof.
  unfold py. induction d; cbn [NilEmpty.string_of_uint list_ascii_of_string map digit_chars];
    try reflexivity; rewrite IHd; reflexivity.
Qed.

Lemma digit_chars_digits (d : Decimal.uint) :
  Forall (fun c => is_digit09 c = true) (digit_chars d).
Proof. induction d; constructor; auto. Qed.

Lemma digits_acc (d : Decimal.uint) :
  forall acc : positive,
    fold_left digit_step (digit_chars d) (Z.pos acc) = Z.pos (Pos.of_uint_acc d acc).
Proof.
  induction d; intros acc; cbn [digit_chars fold_left Pos.of_uint_acc];
    try reflexivity;
    match goal with
    | |- fold_left _ _ ?z = Z.pos (Pos.of_uint_acc _ ?a) =>
        replace z with (Z.pos a) by (unfold digit_step; lia)
    end; apply IHd.
Qed.

Lemma nzhead_head (d : Decimal.uint) :
  match Decimal.nzhead d with Decimal.D0 _ => False | _ => True end.
Proof. induction d; simpl; auto. Qed.

(** The decimal digits of a positive number start with a digit other than
    zero. *)
Lemma to_uint_head (p : positive) :
  match Pos.to_uint p with
  | Decimal.Nil | Decimal.D0 _ => False
  | _ => True
  end.
Proof.
  pose proof (DecimalPos.Unsigned.to_of (Pos.to_uint p)) as H.
  rewrite DecimalPos.Unsigned.of_to in H. change (N.to_uint (N.pos p)) with (Pos.to_uint p) in H.
  pose proof (DecimalPos.Unsigned.of_to p) as Hv.
  destruct (Pos.to_uint p) as [| u | u | u | u | u | u | u | u | u | u] eqn:E; auto.
  - discriminate Hv.
  - rewrite DecimalFacts.unorm_D0 in H. unfold Decimal.unorm in H.
    pose proof (nzhead_head u) as Hn.
    destruct (Decimal.nzhead u) eqn:En; try discriminate H; try contradiction.
    inversion H; subst. discriminate Hv.
Qed.

Lemma span_digits (ds rest : text) :
  Forall (fun c => is_digit09 c = true) ds ->
  stops_at is_digit09 rest ->
  span is_digit09 (ds ++ rest) = (ds, rest).
Proof.
  intros Hd Hr. induction Hd as [| c ds Hc Hd IH]; cbn [app span].
  - destruct rest as [| c rest]; [reflexivity |]. simpl in Hr. simpl. rewrite Hr.
    reflexivity.
  - rewrite Hc, IH. reflexivity.
Qed.

Lemma ends_number_stops (rest : text) :
  ends_number rest = true -> stops_at is_digit09 rest.
Proof.
  destruct rest as [| c rest]; simpl; [auto |].
  intros H. apply andb_prop in H as [H _]. apply andb_prop in H as [H _].
  apply andb_prop in H as [H _]. apply negb_true_iff in H. exact H.
Qed.

Lemma ends_number_no_frac (rest : text) :
  ends_number rest = true -> scan_frac rest = None /\ scan_exp rest = None.
Proof.
  destruct rest as [| c rest]; simpl; [auto |].
  intros H. apply andb_prop in H as [H H69]. apply andb_prop in H as [H H101].
  apply andb_prop in H as [_ H46].
  apply negb_true_iff in H46, H101, H69. rewrite H46, H101, H69. auto.
Qed.

Lemma scan_integer_digits (c : N) (ds rest : text) :
  is_digit09 c = true -> c <> 48 ->
  Forall (fun c => is_digit09 c = true) ds -> stops_at is_digit09 rest ->
  scan_integer (c :: ds ++ rest) = Some (false, c :: ds, rest) /\
  scan_integer (45 :: c :: ds ++ rest) = Some (true, c :: ds, rest).
Proof.
  intros Hc H0 Hd Hr. unfold scan_integer.
  assert (E45 : (c =? 45) = false).
  { apply N.eqb_neq. intros ->. discriminate Hc. }
  assert (E48 : (c =? 48) = false) by (apply N.eqb_neq; exact H0).
  change (45 =? 45) with true. cbv iota. rewrite E45, E48, Hc.
  change (c :: ds ++ rest) with ((c :: ds) ++ rest).
  rewrite (span_digits (c :: ds) rest) by (try constructor; assumption).
  split; reflexivity.
Qed.

Lemma scan_positive (p : positive) (rest : text) :
  ends_number rest = true ->
  scan_integer (digit_chars (Pos.to_uint p) ++ rest)
  = Some (false, digit_chars (Pos.to_uint p), rest) /\
  scan_integer (45 :: digit_chars (Pos.to_uint p) ++ rest)
  = Some (true, digit_chars (Pos.to_uint p), rest) /\
  digits_value (digit_chars (Pos.to_uint p)) = Z.pos p.
Proof.
  intros Hr. pose proof (to_uint_head p) as Hh.
  pose proof (DecimalPos.Unsigned.of_to p) as Hv.
  pose proof (digit_chars_digits (Pos.to_uint p)) as Hd.
  apply ends_number_stops in Hr.
  destruct (Pos.to_uint p) as [| u | u | u | u | u | u | u | u | u | u] eqn:E;
    try contradiction;
    cbn [digit_chars app] in Hd |- *; inversion Hd; subst;
    (match goal with
     | |- scan_integer (?c :: _ ++ _) = _ /\ _ =>
         destruct (scan_integer_digits c (digit_chars u) rest) as [K1 K2];
         [reflexivity | discriminate | assumption | assumption |]
     end);
    (split; [exact K1 | split; [exact K2 |]]);
    unfold digits_value; cbn [fold_left]; fold digit_step;
    (match goal with
     | |- fold_left _ _ ?z = _ =>
         let k := eval vm_compute in z in change z with k
     end);
    rewrite digits_acc; cbn [Pos.of_uint] in Hv; congruence.
Qed.

Lemma scan_int_repr (z : Z) (rest : text) :
  ends_number rest = true ->
  scan_number (int_repr z ++ rest) = Some (PyInt z, rest).
Proof.
  intros Hr. destruct (ends_number_no_frac rest Hr) as [Hf He].
  unfold scan_number, int_repr. destruct z as [| p | p]; cbn [Z.to_int NilEmpty.string_of_int].
  - change (py (NilEmpty.string_of_uint (Decimal.D0 Decimal.Nil)) ++ rest)
      with (48 :: rest).
    change (scan_integer (48 :: rest)) with (Some (false, [48], rest)).
    cbv beta iota. rewrite Hf, He. reflexivity.
  - rewrite py_string_of_uint.
    destruct (scan_positive p rest Hr) as (H1 & _ & H3).
    rewrite H1. cbv beta iota. rewrite Hf, He, H3. reflexivity.
  - change (py (String "-" ?s)) with (45 :: py s).
    rewrite py_string_of_uint. cbn [app].
    destruct (scan_positive p rest Hr) as (_ & H2 & H3).
    rewrite H2. cbv beta iota. rewrite Hf, He, H3. reflexivity.
Qed.

(** ** The tokenizer on what the encoder writes *)

Lemma map_tokens_Some (t : token) (o : option (list token)) (ts : list token) :
  map_tokens t o = Some ts -> exists ts', o = Some ts' /\ ts = t :: ts'.
Proof. destruct o as [ts' |]; simpl; intros H; inversion H; eauto. Qed.

(** More fuel does not change a result. *)
Lemma tokenize_more (f : nat) :
  forall (s : text) (ts : list token) (f' : nat),
    tokenize f s = Some ts -> (f <= f')%nat -> tokenize f' s = Some ts.
Proof.
  induction f as [| f IH]; intros s ts f' H Hle; [discriminate |].
  destruct f' as [| f']; [lia |].
  assert (Hle' : (f <= f')%nat) by lia.
  destruct s as [| c s1]; [exact H |].
  cbn [tokenize] in H |- *.
  repeat match goal with
         | H : (if ?b then _ else _) = Some _ |- _ => destruct b
         | H : map_tokens ?t (tokenize f ?x) = Some _ |- _ =>
             apply map_tokens_Some in H as (ts' & H & ->);
             rewrite (IH _ _ f' H Hle'); reflexivity
         | H : tokenize f ?x = Some _ |- _ => exact (IH _ _ f' H Hle')
         end.
  - destruct (scanstring s1) as [[str r] |]; [| discriminate].
    apply map_tokens_Some in H as (ts' & H & ->).
    rewrite (IH _ _ f' H Hle'). reflexivity.
  - destruct (scan_keyword (c :: s1)) as [[t r] |]; [| discriminate].
    apply map_tokens_Some in H as (ts' & H & ->).
    rewrite (IH _ _ f' H Hle'). reflexivity.
Qed.

Lemma tokenizes_nil : tokenizes [] [].
Proof. exists 1%nat. reflexivity. Qed.

Lemma tokenizes_space (w s : text) (ts : list token) :
  forallb is_json_ws w = true -> tokenizes s ts -> tokenizes (w ++ s) ts.
Proof.
  intros Hw Hs. induction w as [| c w IH]; [exact Hs |].
  cbn [forallb] in Hw. apply andb_prop in Hw as [Hc Hw].
  destruct (IH Hw) as [f Hf]. exists (S f). cbn [app tokenize]. rewrite Hc. exact Hf.
Qed.

Lemma tokenizes_punctuation (c : N) (t : token) (s : text) (ts : list token) :
  punctuation c = Some t -> tokenizes s ts -> tokenizes (c :: s) (t :: ts).
Proof.
  intros Hc [f Hf]. exists (S f). unfold punctuation in Hc. cbn [tokenize].
  destruct (c =? 123) eqn:E1; [apply N.eqb_eq in E1; subst c; inversion Hc; subst;
                               simpl; rewrite Hf; reflexivity |].
  destruct (c =? 125) eqn:E2; [apply N.eqb_eq in E2; subst c; inversion Hc; subst;
                               simpl; rewrite Hf; reflexivity |].
  destruct (c =? 91) eqn:E3; [apply N.eqb_eq in E3; subst c; inversion Hc; subst;
                              simpl; rewrite Hf; reflexivity |].
  destruct (c =? 93) eqn:E4; [apply N.eqb_eq in E4; subst c; inversion Hc; subst;
                              simpl; rewrite Hf; reflexivity |].
  destruct (c =? 58) eqn:E5; [apply N.eqb_eq in E5; subst c; inversion Hc; subst;
                              simpl; rewrite Hf; reflexivity |].
  destruct (c =? 44) eqn:E6; [apply N.eqb_eq in E6; subst c; inversion Hc; subst;
                              simpl; rewrite Hf; reflexivity |].
  discriminate.
Qed.

Lemma tokenizes_string (str rest : text) (ts : list token) :
  tokenizes rest ts -> tokenizes (encode_basestring str ++ rest) (TStr str :: ts).
Proof.
  intros [f Hf]. exists (S f). unfold encode_basestring.
  rewrite <- !app_assoc. cbn [app tokenize].
  change (is_json_ws 34) with false. change (34 =? 123) with false.
  change (34 =? 125) with false. change (34 =? 91) with false.
  change (34 =? 93) with false. change (34 =? 58) with false.
  change (34 =? 44) with false. change (34 =? 34) with true. cbv iota.
  rewrite scanstring_encoded, Hf. reflexivity.
Qed.

(** The step of the tokenizer on a character that starts a literal. *)
Lemma tokenize_literal (f : nat) (c : N) (s r : text) (t : token) :
  is_json_ws c = false -> punctuation c = None -> c <> 34 ->
  scan_keyword (c :: s) = Some (t, r) ->
  tokenize (S f) (c :: s) = map_tokens t (tokenize f r).
Proof.
  intros Hw Hp Hq Hk. cbn [tokenize]. rewrite Hw. unfold punctuation in Hp.
  destruct (c =? 123); [discriminate |]. destruct (c =? 125); [discriminate |].
  destruct (c =? 91); [discriminate |]. destruct (c =? 93); [discriminate |].
  destruct (c =? 58); [discriminate |]. destruct (c =? 44); [discriminate |].
  apply N.eqb_neq in Hq. rewrite Hq, Hk. reflexivity.
Qed.

Lemma tokenizes_word (kw : text) (t : token) (rest : text) (ts : list token) :
  In (kw, t)
     [(py "null", TNull); (py "true", TTrue); (py "false", TFalse);
      (py "NaN", TNum PyNaN); (py "Infinity", TNum (PyInf false));
      (py "-Infinity", TNum (PyInf true))] ->
  tokenizes rest ts -> tokenizes (kw ++ rest) (t :: ts).
Proof.
  intros Hin [f Hf]. exists (S f).
  repeat (destruct Hin as [Hin | Hin];
          [injection Hin as <- <-;
           match goal with
           | |- tokenize _ (?kw ++ _) = Some (?t :: _) =>
               let l := eval vm_compute in kw in change kw with l;
               cbn [app];
               rewrite (tokenize_literal f _ _ rest t)
           end;
           try reflexivity; try discriminate;
           rewrite Hf; reflexivity |]).
  destruct Hin.
Qed.

Lemma int_repr_head (z : Z) :
  exists c s, int_repr z = c :: s /\ (is_digit09 c = true \/ c = 45).
Proof.
  unfold int_repr. destruct z as [| p | p]; cbn [Z.to_int NilEmpty.string_of_int].
  - exists 48, []. auto.
  - rewrite py_string_of_uint. pose proof (to_uint_head p) as Hh.
    pose proof (digit_chars_digits (Pos.to_uint p)) as Hd.
    destruct (Pos.to_uint p); try contradiction; cbn [digit_chars] in *;
      inversion Hd; eauto.
  - eexists 45, _. split; [reflexivity | auto].
Qed.

Lemma literal_head (c : N) :
  is_digit09 c = true \/ c = 45 ->
  is_json_ws c = false /\ punctuation c = None /\ c <> 34 /\
  (forall s, starts_with (py "null") (c :: s) = false) /\
  (forall s, starts_with (py "true") (c :: s) = false) /\
  (forall s, starts_with (py "false") (c :: s) = false).
Proof.
  intros [H | ->]; [| repeat split; try reflexivity; discriminate].
  unfold is_digit09 in H. apply andb_prop in H as [H1 H2].
  apply N.leb_le in H1, H2.
  assert (Hne : forall k, (k < 48 \/ 57 < k) -> (c =? k) = false).
  { intros k Hk. apply N.eqb_neq. lia. }
  unfold is_json_ws, punctuation.
  rewrite !Hne by lia. repeat split; try reflexivity.
  - lia.
  - intros s. cbn [py list_ascii_of_string map starts_with].
    replace (N_of_ascii "n" =? c) with false; [reflexivity |].
    symmetry. apply N.eqb_neq. simpl. lia.
  - intros s. cbn [py list_ascii_of_string map starts_with].
    replace (N_of_ascii "t" =? c) with false; [reflexivity |].
    symmetry. apply N.eqb_neq. simpl. lia.
  - intros s. cbn [py list_ascii_of_string map starts_with].
    replace (N_of_ascii "f" =? c) with false; [reflexivity |].
    symmetry. apply N.eqb_neq. simpl. lia.
Qed.

Lemma tokenizes_int (z : Z) (rest : text) (ts : list token) :
  ends_number rest = true ->
  tokenizes rest ts -> tokenizes (int_repr z ++ rest) (TNum (PyInt z) :: ts).
Proof.
  intros Hr [f Hf]. exists (S f).
  pose proof (scan_int_repr z rest Hr) as Hs.
  destruct (int_repr_head z) as (c & s & Hz & Hc). rewrite Hz in Hs |- *.
  destruct (literal_head c Hc) as (Hw & Hp & Hq & N1 & N2 & N3).
  cbn [app] in Hs |- *.
  rewrite (tokenize_literal f c (s ++ rest) rest (TNum (PyInt z))); auto.
  - rewrite Hf. reflexivity.
  - unfold scan_keyword. rewrite N1, N2, N3, Hs. reflexivity.
Qed.

Section RoundTrip.

Variable float_repr : Q -> text.

Lemma encoded_list (level : nat) (first : json) (others : list json) :
  encoded float_repr level (JArr (first :: others))
  = py "[" ++ newline_indent (S level) ++ encoded float_repr (S level) first
    ++ flat_map (fun v => separator level ++ encoded float_repr (S level) v) others
    ++ newline_indent level ++ py "]".
Proof.
  unfold encoded. cbn [iterencode]. rewrite !concat_app.
  assert (Hitem : forall buf v,
             concat (match v with
                     | JArr _ | JObj _ => buf :: iterencode float_repr (S level) v
                     | _ => [buf ++ concat (iterencode float_repr (S level) v)]
                     end)
             = buf ++ concat (iterencode float_repr (S level) v)).
  { intros buf [| b | n | s | l | d]; cbn [concat]; rewrite ?app_nil_r; reflexivity. }
  rewrite Hitem, <- !app_assoc.
  match goal with
  | |- _ ++ _ ++ _ ++ concat ?r ++ ?e = _ =>
      assert (Hr : concat r
                   = flat_map (fun v => separator level ++ encoded float_repr (S level) v) others);
      [| assert (He : e = newline_indent level ++ py "]");
         [| unfold encoded in Hr; rewrite Hr, He; reflexivity]]
  end.
  - induction others as [| v others IH]; [reflexivity |].
    rewrite concat_app, Hitem, IH. cbn [flat_map]. unfold separator, encoded.
    rewrite <- !app_assoc. reflexivity.
  - cbn [concat]. rewrite app_nil_r. reflexivity.
Qed.

Lemma encoded_object (level : nat) (k0 : text) (v0 : json) (others : list (text * json)) :
  encoded float_repr level (JObj ((k0, v0) :: others))
  = py "{" ++ newline_indent (S level)
    ++ encode_basestring k0 ++ py ": " ++ encoded float_repr (S level) v0
    ++ flat_map (fun kv => separator level ++ encode_basestring (fst kv) ++ py ": "
                           ++ encoded float_repr (S level) (snd kv)) others
    ++ newline_indent level ++ py "}".
Proof.
  unfold encoded. cbn [iterencode]. rewrite !concat_app.
  match goal with
  | |- concat ?a ++ concat ?b ++ _ ++ concat ?r ++ concat ?e = _ =>
      assert (Hr : concat r
                   = flat_map (fun kv => separator level ++ encode_basestring (fst kv)
                                         ++ py ": " ++ encoded float_repr (S level) (snd kv))
                       others);
      [| assert (Ha : concat a = py "{" ++ newline_indent (S level));
         [| assert (Hb : concat b = encode_basestring k0 ++ py ": ");
            [| assert (He : concat e = newline_indent level ++ py "}");
               [| unfold encoded in Hr; rewrite Hr, Ha, Hb, He, <- !app_assoc;
                  reflexivity]]]]
  end.
  - induction others as [| [k v] others IH]; [reflexivity |].
    rewrite !concat_app, IH. cbn [flat_map fst snd concat]. unfold separator, encoded.
    rewrite List.app_nil_r, <- !app_assoc. reflexivity.
  - cbn [concat]. rewrite List.app_nil_r. reflexivity.
  - cbn [concat]. rewrite List.app_nil_r. reflexivity.
  - cbn [concat]. rewrite List.app_nil_r. reflexivity.
Qed.

Lemma newline_indent_space (level : nat) : forallb is_json_ws (newline_indent level) = true.
Proof.
  unfold newline_indent. cbn [app forallb]. change (is_json_ws 10) with true.
  cbn [andb]. induction (2 * level)%nat as [| n IH]; [reflexivity |].
  cbn [repeat forallb]. rewrite IH. reflexivity.
Qed.

Lemma ends_number_newline (level : nat) (rest : text) :
  ends_number (newline_indent level ++ rest) = true.
Proof. reflexivity. Qed.

Lemma ends_number_separator (level : nat) (rest : text) :
  ends_number (separator level ++ rest) = true.
Proof. reflexivity. Qed.

Lemma encoded_scalar (level : nat) (v : json) (t : text) :
  iterencode float_repr level v = [t] -> encoded float_repr level v = t.
Proof. unfold encoded. intros ->. apply List.app_nil_r. Qed.

Lemma reads_back_items (level : nat) (rest : text) (ts : list token) (others : list json) :
  Forall (reads_back float_repr) others -> forallb plain_value others = true ->
  tokenizes rest ts ->
  tokenizes
    (flat_map (fun v => separator level ++ encoded float_repr (S level) v) others
     ++ newline_indent level ++ py "]" ++ rest)
    (flat_map (fun v => TComma :: tokens v) others ++ TRBrack :: ts).
Proof.
  intros Hall Hplain Hrest. induction Hall as [| v others Hv Hall IH].
  - cbn [flat_map app]. apply tokenizes_space; [apply newline_indent_space |].
    apply (tokenizes_punctuation 93); [reflexivity | exact Hrest].
  - cbn [forallb] in Hplain. apply andb_prop in Hplain as [Hp Hplain].
    cbn [flat_map]. rewrite <- !app_assoc. unfold separator at 1.
    rewrite <- app_assoc. cbn [app].
    apply (tokenizes_punctuation 44); [reflexivity |].
    apply tokenizes_space; [apply newline_indent_space |].
    apply Hv; [exact Hp | | apply IH; exact Hplain].
    destruct others; reflexivity.
Qed.

Lemma reads_back_members (level : nat) (rest : text) (ts : list token)
  (others : list (text * json)) :
  Forall (fun kv => reads_back float_repr (snd kv)) others ->
  forallb (fun kv => plain_value (snd kv)) others = true ->
  tokenizes rest ts ->
  tokenizes
    (flat_map (fun kv => separator level ++ encode_basestring (fst kv) ++ py ": "
                         ++ encoded float_repr (S level) (snd kv)) others
     ++ newline_indent level ++ py "}" ++ rest)
    (flat_map (fun kv => TComma :: TStr (fst kv) :: TColon :: tokens (snd kv)) others
     ++ TRBrace :: ts).
Proof.
  intros Hall Hplain Hrest. induction Hall as [| [k v] others Hv Hall IH].
  - cbn [flat_map app]. apply tokenizes_space; [apply newline_indent_space |].
    apply (tokenizes_punctuation 125); [reflexivity | exact Hrest].
  - cbn [forallb] in Hplain. apply andb_prop in Hplain as [Hp Hplain].
    cbn [flat_map fst snd] in *. rewrite <- !app_assoc. unfold separator at 1.
    rewrite <- !app_assoc. cbn [app].
    apply (tokenizes_punctuation 44); [reflexivity |].
    apply tokenizes_space; [apply newline_indent_space |].
    apply tokenizes_string.
    apply (tokenizes_punctuation 58); [reflexivity |].
    apply (tokenizes_space [32]); [reflexivity |].
    apply Hv; [exact Hp | | apply IH; exact Hplain].
    destruct others; reflexivity.
Qed.

(** The tokenizer reads what the encoder wrote as the tokens of the value. *)
Lemma encoder_output_tokenizes (v : json) : reads_back float_repr v.
Proof.
  induction v as [| b | n | s | items IH | d IH] using json_induction;
    intros Hplain level rest ts Hends Hrest.
  - rewrite (encoded_scalar level JNull (py "null") eq_refl).
    apply tokenizes_word; [simpl; auto | exact Hrest].
  - destruct b.
    + rewrite (encoded_scalar level (JBool true) (py "true") eq_refl).
      apply tokenizes_word; [simpl; auto | exact Hrest].
    + rewrite (encoded_scalar level (JBool false) (py "false") eq_refl).
      apply tokenizes_word; [simpl; auto | exact Hrest].
  - rewrite (encoded_scalar level (JNum n) (number_repr float_repr n) eq_refl).
    destruct n as [z | q | | [|]]; [| discriminate | | |]; cbn [number_repr tokens app].
    + apply tokenizes_int; assumption.
    + apply tokenizes_word; [simpl; auto 10 | exact Hrest].
    + apply tokenizes_word; [simpl; auto 10 | exact Hrest].
    + apply tokenizes_word; [simpl; auto 10 | exact Hrest].
  - rewrite (encoded_scalar level (JStr s) (encode_basestring s) eq_refl).
    apply tokenizes_string, Hrest.
  - destruct items as [| first others].
    + rewrite (encoded_scalar level (JArr []) (py "[]") eq_refl).
      apply (tokenizes_punctuation 91); [reflexivity |].
      apply (tokenizes_punctuation 93); [reflexivity | exact Hrest].
    + rewrite encoded_list. cbn [plain_value forallb] in Hplain.
      apply andb_prop in Hplain as [Hp Hplain].
      inversion IH as [| ? ? Hfirst Hothers]; subst.
      cbn [tokens app]. rewrite <- !app_assoc. cbn [app].
      apply (tokenizes_punctuation 91); [reflexivity |].
      apply tokenizes_space; [apply newline_indent_space |].
      apply Hfirst; [exact Hp | | apply reads_back_items; assumption].
      destruct others; reflexivity.
  - destruct d as [| [k0 v0] others].
    + rewrite (encoded_scalar level (JObj []) (py "{}") eq_refl).
      apply (tokenizes_punctuation 123); [reflexivity |].
      apply (tokenizes_punctuation 125); [reflexivity | exact Hrest].
    + rewrite encoded_object. cbn [plain_value forallb map fst snd] in Hplain.
      apply andb_prop in Hplain as [_ Hplain].
      apply andb_prop in Hplain as [Hp Hplain].
      inversion IH as [| ? ? Hfirst Hothers]; subst. cbn [snd] in Hfirst.
      cbn [tokens app]. rewrite <- !app_assoc. cbn [app].
      apply (tokenizes_punctuation 123); [reflexivity |].
      apply tokenizes_space; [apply newline_indent_space |].
      apply tokenizes_string.
      apply (tokenizes_punctuation 58); [reflexivity |].
      apply (tokenizes_space [32]); [reflexivity |].
      apply Hfirst; [exact Hp | | apply reads_back_members; assumption].
      destruct others; reflexivity.
Qed.

End RoundTrip.

(** ** The parser on the tokens of a value *)

Lemma tokens_head (v : json) :
  exists t tl, tokens v = t :: tl /\ t <> TRBrack /\ t <> TRBrace.
Proof.
  destruct v as [| [|] | n | s | [| x xs] | [| [k x] d]]; cbn [tokens];
    eexists _, _; (split; [reflexivity | split; discriminate]).
Qed.

Lemma parse_elements_back (others : list json) :
  Forall parses_back others -> forallb plain_value others = true ->
  forall (first : json) (acc : list json) (r : list token),
    parses_back first -> plain_value first = true ->
    exists f0, forall f, (f0 <= f)%nat ->
      parse_elements f
        (tokens first ++ flat_map (fun v => TComma :: tokens v) others ++ TRBrack :: r)
        acc
      = Some (JArr (rev acc ++ first :: others), r).
Proof.
  induction 1 as [| y ys Hy Hys IH]; intros Hplain first acc r Hfirst Hp.
  - cbn [flat_map app].
    destruct (Hfirst Hp (TRBrack :: r)) as [f0 Hf0].
    exists (S f0). intros [| f] Hle; [lia |].
    cbn [parse_elements]. rewrite Hf0 by lia. reflexivity.
  - cbn [forallb] in Hplain. apply andb_prop in Hplain as [Hpy Hplain].
    cbn [flat_map]. rewrite <- app_assoc. cbn [app].
    destruct (Hfirst Hp (TComma :: tokens y
                           ++ flat_map (fun v => TComma :: tokens v) ys ++ TRBrack :: r))
      as [f0 Hf0].
    destruct (IH Hplain y (first :: acc) r Hy Hpy) as [f1 Hf1].
    exists (S (Nat.max f0 f1)). intros [| f] Hle; [lia |].
    cbn [parse_elements]. rewrite Hf0 by lia. rewrite Hf1 by lia.
    cbn [rev]. rewrite <- app_assoc. reflexivity.
Qed.

Lemma parse_members_back (others : list (text * json)) :
  Forall (fun kv => parses_back (snd kv)) others ->
  forallb (fun kv => plain_value (snd kv)) others = true ->
  forall (k : text) (v : json) (acc : list (text * json)) (r : list token),
    parses_back v -> plain_value v = true ->
    exists f0, forall f, (f0 <= f)%nat ->
      parse_members f
        (TStr k :: TColon :: tokens v
         ++ flat_map (fun kv => TComma :: TStr (fst kv) :: TColon :: tokens (snd kv)) others
         ++ TRBrace :: r)
        acc
      = Some (JObj (dict_of_pairs (rev acc ++ (k, v) :: others)), r).
Proof.
  induction 1 as [| [k1 v1] others Hv1 Hothers IH]; intros Hplain k v acc r Hv Hp.
  - cbn [flat_map app].
    destruct (Hv Hp (TRBrace :: r)) as [f0 Hf0].
    exists (S f0). intros [| f] Hle; [lia |].
    cbn [parse_members]. rewrite Hf0 by lia. reflexivity.
  - cbn [forallb snd] in Hplain, Hv1. apply andb_prop in Hplain as [Hp1 Hplain].
    cbn [flat_map fst snd]. rewrite <- app_assoc. cbn [app].
    destruct (Hv Hp (TComma :: TStr k1 :: TColon :: tokens v1
                       ++ flat_map (fun kv => TComma :: TStr (fst kv) :: TColon
                                              :: tokens (snd kv)) others
                       ++ TRBrace :: r))
      as [f0 Hf0].
    destruct (IH Hplain k1 v1 ((k, v) :: acc) r Hv1 Hp1) as [f1 Hf1].
    exists (S (Nat.max f0 f1)). intros [| f] Hle; [lia |].
    cbn [parse_members]. rewrite Hf0 by lia. rewrite Hf1 by lia.
    cbn [rev]. rewrite <- app_assoc. reflexivity.
Qed.

(** *** Dictionaries with distinct keys *)

Lemma text_eqb_eq (a b : text) : text_eqb a b = true <-> a = b.
Proof.
  revert b. induction a as [| x a IH]; intros [| y b]; simpl; split;
    try discriminate; try reflexivity.
  - intros H. apply andb_prop in H as [Hx H]. apply N.eqb_eq in Hx.
    apply IH in H. congruence.
  - intros H. inversion H; subst. rewrite N.eqb_refl. apply IH. reflexivity.
Qed.

Lemma dict_set_new (k : text) (v : json) (d : dict) :
  existsb (fun k' => text_eqb k' k) (map fst d) = false ->
  dict_set k v d = d ++ [(k, v)].
Proof.
  induction d as [| [k' v'] d IH]; cbn [map fst existsb dict_set app]; [reflexivity |].
  intros H. apply orb_false_elim in H as [H1 H2].
  destruct (text_eqb k k') eqn:E.
  - apply text_eqb_eq in E. subst k'.
    assert (text_eqb k k = true) by (apply text_eqb_eq; reflexivity). congruence.
  - rewrite IH by exact H2. reflexivity.
Qed.

Lemma dict_of_pairs_distinct (pairs : list (text * json)) :
  forall acc : dict,
    distinct (map fst (acc ++ pairs)) = true ->
    fold_left (fun d kv => dict_set (fst kv) (snd kv) d) pairs acc = acc ++ pairs.
Proof.
  induction pairs as [| [k v] pairs IH]; intros acc H; cbn [fold_left fst snd].
  - rewrite List.app_nil_r. reflexivity.
  - rewrite dict_set_new.
    + rewrite IH; rewrite <- app_assoc; [reflexivity | exact H].
    + clear IH. induction acc as [| [k' v'] acc IHa]; [reflexivity |].
      cbn [app map fst distinct existsb] in H |- *.
      apply andb_prop in H as [H1 H2]. apply negb_true_iff in H1.
      rewrite map_app, existsb_app in H1. apply orb_false_elim in H1 as [_ H1].
      cbn [map fst existsb] in H1. apply orb_false_elim in H1 as [H1 _].
      rewrite H1. cbn [orb]. apply IHa, H2.
Qed.

Lemma dict_of_distinct_pairs (d : dict) :
  distinct (map fst d) = true -> dict_of_pairs d = d.
Proof. intros H. apply (dict_of_pairs_distinct d []), H. Qed.

(** The parser reads the tokens of a value back as the value. *)
Lemma tokens_parse_back (v : json) : parses_back v.
Proof.
  induction v as [| b | n | s | items IH | d IH] using json_induction;
    intros Hplain r.
  - exists 1%nat. intros [| f] Hle; [lia | reflexivity].
  - exists 1%nat. intros [| f] Hle; [lia | destruct b; reflexivity].
  - exists 1%nat. intros [| f] Hle; [lia | reflexivity].
  - exists 1%nat. intros [| f] Hle; [lia | reflexivity].
  - destruct items as [| first others].
    + exists 1%nat. intros [| f] Hle; [lia | reflexivity].
    + cbn [plain_value forallb] in Hplain. apply andb_prop in Hplain as [Hp Hplain].
      inversion IH as [| ? ? Hfirst Hothers]; subst.
      destruct (parse_elements_back others Hothers Hplain first [] r Hfirst Hp)
        as [f0 Hf0].
      exists (S f0). intros [| f] Hle; [lia |].
      cbn [tokens app]. rewrite <- !app_assoc. cbn [app].
      destruct (tokens_head first) as (t & tl & Ht & Hn1 & Hn2).
      rewrite Ht in Hf0 |- *. cbn [app] in Hf0 |- *.
      cbn [parse_value]. destruct t; try congruence; apply Hf0; lia.
  - destruct d as [| [k0 v0] others].
    + exists 1%nat. intros [| f] Hle; [lia | reflexivity].
    + cbn [plain_value forallb map fst snd] in Hplain.
      apply andb_prop in Hplain as [Hkeys Hplain].
      apply andb_prop in Hplain as [Hp Hplain].
      inversion IH as [| ? ? Hfirst Hothers]; subst. cbn [snd] in Hfirst.
      destruct (parse_members_back others Hothers Hplain k0 v0 [] r Hfirst Hp)
        as [f0 Hf0].
      exists (S f0). intros [| f] Hle; [lia |].
      cbn [tokens app]. rewrite <- !app_assoc. cbn [app].
      cbn [parse_value]. rewrite Hf0 by lia. cbn [rev app].
      rewrite dict_of_distinct_pairs; [reflexivity | exact Hkeys].
Qed.

(** ** Round trips *)

Section Saved.

Variable float_repr : Q -> text.

(** [json.loads] of what [json.dump] writes is the value written. *)
Lemma loads_encoded (v : json) :
  plain_value v = true -> json_loads (encoded float_repr 0 v) = Ok v.
Proof.
  intros Hplain.
  destruct (encoder_output_tokenizes float_repr v Hplain 0%nat [] [] eq_refl tokenizes_nil)
    as [f Hf].
  rewrite !List.app_nil_r in Hf.
  destruct (tokens_parse_back v Hplain []) as [f0 Hf0].
  rewrite List.app_nil_r in Hf0.
  set (s := encoded float_repr 0 v) in *.
  set (f1 := Nat.max f (S (length s))).
  set (f2 := Nat.max f0 (2 * length (tokens v) + 1)).
  assert (Hf1 : tokenize f1 s = Some (tokens v)).
  { apply (tokenize_more f); [exact Hf | unfold f1; lia]. }
  rewrite <- (json_loads_fuel s f1 f2).
  - rewrite Hf1, Hf0 by (unfold f2; lia). reflexivity.
  - unfold f1. lia.
  - intros ts Hts. rewrite Hf1 in Hts. inversion Hts. unfold f2. lia.
Qed.

Lemma dump_completed (fs : files) (path : text) (data : json) :
  fst (dump_to_path float_repr fs path data None)
  = <[path := encoded float_repr 0 data]> fs.
Proof.
  unfold dump_to_path, open_w_and_write.
  rewrite (write_chunks_prefix path _ _ []) by apply lookup_insert_eq.
  cbn [fst accepted app]. rewrite firstn_all, insert_insert_eq. reflexivity.
Qed.


Lemma text_eqb_refl (k : text) : text_eqb k k = true.
Proof. apply text_eqb_eq. reflexivity. Qed.

Lemma text_eqb_sym (a b : text) : text_eqb a b = text_eqb b a.
Proof.
  destruct (text_eqb a b) eqn:E1, (text_eqb b a) eqn:E2; try reflexivity.
  - apply text_eqb_eq in E1. subst. rewrite text_eqb_refl in E2. discriminate.
  - apply text_eqb_eq in E2. subst. rewrite text_eqb_refl in E1. discriminate.
Qed.

Lemma keys_after_set (p : text -> bool) (k : text) (v : json) (d : dict) :
  existsb p (map fst d) = false -> p k = false ->
  existsb p (map fst (dict_set k v d)) = false.
Proof.
  intros Hd Hk. induction d as [| [k' v'] d IH]; cbn [dict_set map fst existsb] in *.
  - rewrite Hk. reflexivity.
  - apply orb_false_elim in Hd as [H1 H2].
    destruct (text_eqb k k'); cbn [map fst existsb]; rewrite H1; [exact H2 | apply IH, H2].
Qed.

Lemma dict_set_plain (k : text) (v : json) (d : dict) :
  plain_value (JObj d) = true -> plain_value v = true ->
  plain_value (JObj (dict_set k v d)) = true.
Proof.
  cbn [plain_value]. intros Hd Hv. apply andb_prop in Hd as [Hk Hd].
  induction d as [| [k' v'] d IH]; cbn [dict_set].
  - cbn. rewrite Hv. reflexivity.
  - cbn [map fst distinct forallb snd] in Hk, Hd.
    apply andb_prop in Hk as [Hk1 Hk2]. apply andb_prop in Hd as [Hd1 Hd2].
    destruct (text_eqb k k') eqn:E; cbn [map fst distinct forallb snd].
    + rewrite Hk1, Hk2, Hv, Hd2. reflexivity.
    + specialize (IH Hk2 Hd2). apply andb_prop in IH as [IH1 IH2].
      rewrite IH1, IH2, Hd1. apply negb_true_iff in Hk1.
      rewrite keys_after_set; [reflexivity | exact Hk1 |].
      rewrite text_eqb_sym. exact E.
Qed.

Lemma dict_set_again (k : text) (v1 v2 : json) (d : dict) :
  dict_set k v2 (dict_set k v1 d) = dict_set k v2 d.
Proof.
  induction d as [| [k' v'] d IH]; cbn [dict_set].
  - rewrite text_eqb_refl. reflexivity.
  - destruct (text_eqb k k') eqn:E; cbn [dict_set]; rewrite E; [reflexivity |].
    rewrite IH. reflexivity.
Qed.

Lemma dict_get_set (k k' : text) (v : json) (d : dict) :
  dict_get k (dict_set k' v d) = if text_eqb k k' then Some v else dict_get k d.
Proof.
  induction d as [| [k0 v0] d IH]; cbn [dict_set dict_get].
  - reflexivity.
  - destruct (text_eqb k' k0) eqn:E; cbn [dict_get].
    + apply text_eqb_eq in E. subst k0. destruct (text_eqb k k'); reflexivity.
    + rewrite IH. destruct (text_eqb k k0) eqn:E0; [| reflexivity].
      apply text_eqb_eq in E0. subst k0.
      rewrite text_eqb_sym, E. reflexivity.
Qed.

Lemma history_json_plain (history : list message) :
  plain_value (history_json history) = true.
Proof.
  unfold history_json. cbn [plain_value].
  induction history as [| m history IH]; [reflexivity |].
  cbn [map forallb]. rewrite IH.
  destruct m as [r c [i |]]; reflexivity.
Qed.

Lemma updated_document_stored (fs : files) (path : text) (history : list message)
  (previous : dict) :
  stored_document fs path = Ok (JObj previous) ->
  updated_document fs path history
  = Ok (JObj (dict_set (py "chat_history") (history_json history) previous)).
Proof.
  unfold stored_document, updated_document. intros ->. reflexivity.
Qed.


End Saved.



(** ** Text after a JSON document *)

Lemma digits_literal (ds : text) :
  Forall (fun c => is_digit09 c = true) ds -> Forall (fun c => literal_char c = true) ds.
Proof.
  apply Forall_impl. intros c H. unfold literal_char. rewrite H. reflexivity.
Qed.

Lemma eqb_literal (c k : N) : (c =? k) = true -> literal_char k = true -> literal_char c = true.
Proof. intros H Hk. apply N.eqb_eq in H. congruence. Qed.

Lemma scan_integer_literal (s r ds : text) (neg : bool) :
  scan_integer s = Some (neg, ds, r) ->
  exists p, s = p ++ r /\ p <> [] /\ Forall (fun c => literal_char c = true) p.
Proof.
  unfold scan_integer.
  assert (Hdigits : forall s1,
             match s1 with
             | [] => None
             | c :: s2 =>
                 if c =? 48 then Some (neg, [c], s2)
                 else if is_digit09 c
                      then let (ds0, s3) := span is_digit09 s1 in Some (neg, ds0, s3)
                      else None
             end = Some (neg, ds, r) ->
             exists p, s1 = p ++ r /\ p <> [] /\ Forall (fun c => literal_char c = true) p).
  { intros [| c s2]; [discriminate |].
    destruct (c =? 48) eqn:E0.
    - intros H. inversion H; subst. exists [c]. split; [reflexivity |].
      split; [discriminate |]. repeat constructor. eapply eqb_literal; [exact E0 | reflexivity].
    - destruct (is_digit09 c) eqn:Ed; [| discriminate].
      destruct (span_head is_digit09 c s2 Ed) as [a Ha].
      destruct (span is_digit09 (c :: s2)) as [ds0 s3] eqn:E.
      intros H. inversion H; subst. apply span_split in E as [-> Hd].
      inversion Ha; subst.
      exists (c :: a). split; [reflexivity |]. split; [discriminate |].
      apply digits_literal, Hd. }
  destruct s as [| c s']; [discriminate |].
  destruct (c =? 45) eqn:E.
  - intros H. destruct (Hdigits s') as (p & Hp & _ & Hf).
    { destruct s' as [| c1 s2]; [discriminate |].
      destruct (c1 =? 48); [inversion H; reflexivity |].
      destruct (is_digit09 c1); [| discriminate].
      destruct (span is_digit09 (c1 :: s2)). inversion H. reflexivity. }
    exists (c :: p). rewrite Hp. split; [reflexivity |]. split; [discriminate |].
    constructor; [eapply eqb_literal; [exact E | reflexivity] | exact Hf].
  - intros H. apply Hdigits.
    destruct (c =? 48); [inversion H; reflexivity |].
    destruct (is_digit09 c); [| discriminate].
    destruct (span is_digit09 (c :: s')). inversion H. reflexivity.
Qed.

Lemma scan_frac_literal (s r fs : text) :
  scan_frac s = Some (fs, r) ->
  exists p, s = p ++ r /\ Forall (fun c => literal_char c = true) p.
Proof.
  unfold scan_frac. destruct s as [| c s1]; [discriminate |].
  destruct (c =? 46) eqn:E; [| discriminate].
  destruct (span is_digit09 s1) as [[| d ds] s2] eqn:Es; [discriminate |].
  intros H. inversion H; subst. apply span_split in Es as [-> Hd].
  exists (c :: d :: ds). split; [reflexivity |].
  constructor; [eapply eqb_literal; [exact E | reflexivity] |].
  apply digits_literal, Hd.
Qed.

Lemma scan_exp_literal (s r : text) (e : Z) :
  scan_exp s = Some (e, r) ->
  exists p, s = p ++ r /\ Forall (fun c => literal_char c = true) p.
Proof.
  unfold scan_exp. destruct s as [| c s1]; [discriminate |].
  destruct ((c =? 101) || (c =? 69)) eqn:E; [| discriminate].
  assert (Hc : literal_char c = true).
  { apply orb_prop in E as [E | E]; (eapply eqb_literal; [exact E | reflexivity]). }
  destruct s1 as [| d s2].
  - simpl. discriminate.
  - destruct (d =? 43) eqn:E1; [| destruct (d =? 45) eqn:E2].
    + destruct (span is_digit09 s2) as [[| x ds] s3] eqn:Es; [discriminate |].
      intros H. inversion H; subst. apply span_split in Es as [-> Hd].
      exists (c :: d :: x :: ds). split; [reflexivity |].
      constructor; [exact Hc |].
      constructor; [eapply eqb_literal; [exact E1 | reflexivity] |].
      apply digits_literal, Hd.
    + destruct (span is_digit09 s2) as [[| x ds] s3] eqn:Es; [discriminate |].
      intros H. inversion H; subst. apply span_split in Es as [-> Hd].
      exists (c :: d :: x :: ds). split; [reflexivity |].
      constructor; [exact Hc |].
      constructor; [eapply eqb_literal; [exact E2 | reflexivity] |].
      apply digits_literal, Hd.
    + destruct (span is_digit09 (d :: s2)) as [[| x ds] s3] eqn:Es; [discriminate |].
      intros H. inversion H; subst. apply span_split in Es as [Heq Hd].
      exists (c :: x :: ds). rewrite Heq. split; [reflexivity |].
      constructor; [exact Hc |]. apply digits_literal, Hd.
Qed.

Lemma scan_number_literal (s r : text) (n : number) :
  scan_number s = Some (n, r) ->
  exists p, s = p ++ r /\ p <> [] /\ Forall (fun c => literal_char c = true) p.
Proof.
  unfold scan_number.
  destruct (scan_integer s) as [[[neg ds] s1] |] eqn:Ei; [| discriminate].
  apply scan_integer_literal in Ei as (p1 & -> & Hne & H1).
  assert (Hnil : forall q, p1 ++ q <> []).
  { intros q Hq. apply app_eq_nil in Hq as [Hq _]. contradiction. }
  destruct (scan_frac s1) as [[fs s2] |] eqn:Ef.
  - apply scan_frac_literal in Ef as (p2 & -> & H2).
    destruct (scan_exp s2) as [[e s3] |] eqn:Ee.
    + apply scan_exp_literal in Ee as (p3 & -> & H3).
      intros H. inversion H; subst.
      exists (p1 ++ p2 ++ p3). rewrite <- !app_assoc. split; [reflexivity |].
      split; [apply Hnil |].
      repeat (apply Forall_app; split); assumption.
    + intros H. inversion H; subst.
      exists (p1 ++ p2). rewrite <- !app_assoc. split; [reflexivity |].
      split; [apply Hnil |].
      apply Forall_app; split; assumption.
  - destruct (scan_exp s1) as [[e s3] |] eqn:Ee.
    + apply scan_exp_literal in Ee as (p3 & -> & H3).
      intros H. inversion H; subst.
      exists (p1 ++ p3). rewrite <- !app_assoc. split; [reflexivity |].
      split; [apply Hnil |].
      apply Forall_app; split; assumption.
    + intros H. inversion H; subst. eauto.
Qed.

Lemma keyword_literal (kw s : text) :
  forallb literal_char kw = true -> kw <> [] ->
  starts_with kw s = true ->
  exists p, s = p ++ skipn (length kw) s /\ p <> [] /\
            Forall (fun c => literal_char c = true) p.
Proof.
  intros Hkw Hne H. exists kw. split; [apply starts_with_split, H |].
  split; [exact Hne |].
  apply Forall_forall. intros c Hc.
  rewrite forallb_forall in Hkw. exact (Hkw c Hc).
Qed.

(** A literal is made of literal characters. *)
Lemma scan_keyword_literal (s r : text) (t : token) :
  scan_keyword s = Some (t, r) ->
  exists p, s = p ++ r /\ p <> [] /\ Forall (fun c => literal_char c = true) p.
Proof.
  unfold scan_keyword.
  destruct (starts_with (py "null") s) eqn:E1.
  { intros H. inversion H; subst. apply (keyword_literal (py "null")); easy. }
  destruct (starts_with (py "true") s) eqn:E2.
  { intros H. inversion H; subst. apply (keyword_literal (py "true")); easy. }
  destruct (starts_with (py "false") s) eqn:E3.
  { intros H. inversion H; subst. apply (keyword_literal (py "false")); easy. }
  destruct (scan_number s) as [[n r'] |] eqn:En.
  { intros H. inversion H; subst. eapply scan_number_literal, En. }
  destruct (starts_with (py "NaN") s) eqn:E4.
  { intros H. inversion H; subst. apply (keyword_literal (py "NaN")); easy. }
  destruct (starts_with (py "Infinity") s) eqn:E5.
  { intros H. inversion H; subst. apply (keyword_literal (py "Infinity")); easy. }
  destruct (starts_with (py "-Infinity") s) eqn:E6; [| discriminate].
  intros H. inversion H; subst. apply (keyword_literal (py "-Infinity")); easy.
Qed.

Lemma span_app {A} (p : A -> bool) (s a b y : list A) :
  span p s = (a, b) -> b <> [] -> span p (s ++ y) = (a, b ++ y).
Proof.
  revert a b. induction s as [| x s IH]; simpl; intros a b H Hb.
  - inversion H; subst. congruence.
  - destruct (p x) eqn:Hx.
    + destruct (span p s) as [a' b'] eqn:E. inversion H; subst.
      rewrite (IH a' b eq_refl Hb). reflexivity.
    + inversion H; subst. reflexivity.
Qed.

Lemma cons_to_app (x : N) (o o' : option (text * text)) (str r y : text) :
  (forall str', o = Some (str', r) -> o' = Some (str', r ++ y)) ->
  cons_to x o = Some (str, r) -> cons_to x o' = Some (str, r ++ y).
Proof.
  intros Ho H. destruct o as [[l b] |]; [| discriminate].
  simpl in H. inversion H; subst. rewrite (Ho l eq_refl). reflexivity.
Qed.

(** The escape [\uXXXX] by cases on what follows it. *)
Lemma scanstring_u (h1 h2 h3 h4 uni : N) (s3 : text) :
  decode_uXXXX h1 h2 h3 h4 = Some uni ->
  scanstring (92 :: 117 :: h1 :: h2 :: h3 :: h4 :: s3)
  = if is_high_surrogate uni && starts_with [92; 117] s3 then
      match s3 with
      | _ :: _ :: l1 :: l2 :: l3 :: l4 :: s4 =>
          match decode_uXXXX l1 l2 l3 l4 with
          | None => None
          | Some uni2 =>
              if is_low_surrogate uni2 then
                cons_to (65536 + ((uni - 55296) * 1024 + (uni2 - 56320))) (scanstring s4)
              else cons_to uni (scanstring s3)
          end
      | _ => None
      end
    else cons_to uni (scanstring s3).
Proof.
  intros Hd.
  change (scanstring (92 :: 117 :: h1 :: h2 :: h3 :: h4 :: s3))
    with (match decode_uXXXX h1 h2 h3 h4 with
          | None => None
          | Some uni =>
              match s3 with
              | b :: u :: l1 :: l2 :: l3 :: l4 :: s4 =>
                  if is_high_surrogate uni && (b =? 92) && (u =? 117) then
                    match decode_uXXXX l1 l2 l3 l4 with
                    | None => None
                    | Some uni2 =>
                        if is_low_surrogate uni2 then
                          cons_to (65536 + ((uni - 55296) * 1024 + (uni2 - 56320)))
                                  (scanstring s4)
                        else cons_to uni (scanstring s3)
                    end
                  else cons_to uni (scanstring s3)
              | _ =>
                  if is_high_surrogate uni && starts_with [92; 117] s3 then None
                  else cons_to uni (scanstring s3)
              end
          end).
  rewrite Hd.
  destruct s3 as [| b [| u [| l1 [| l2 [| l3 [| l4 s4]]]]]];
    try (destruct (is_high_surrogate uni && starts_with [92; 117] _); reflexivity).
  cbn [starts_with]. rewrite (N.eqb_sym 92 b), (N.eqb_sym 117 u).
  rewrite andb_true_r, andb_assoc. reflexivity.
Qed.

Lemma no_escape_start (s str r y : text) :
  scanstring s = Some (str, r) ->
  starts_with [92; 117] s = false -> starts_with [92; 117] (s ++ y) = false.
Proof.
  intros H Hs. destruct s as [| b [| u s5]].
  - discriminate.
  - cbn [scanstring] in H. destruct (b =? 34) eqn:Hq.
    + apply N.eqb_eq in Hq. subst b. reflexivity.
    + destruct (b =? 92); [discriminate |].
      destruct (b <? 32); discriminate.
  - exact Hs.
Qed.

(** What [scanstring] does with a string does not depend on the text after
    its closing quote. *)
Lemma scanstring_app (n : nat) :
  forall s str r y,
    (length s <= n)%nat -> scanstring s = Some (str, r) ->
    scanstring (s ++ y) = Some (str, r ++ y).
Proof.
  induction n as [| n IH]; intros s str r y Hlen H.
  - destruct s; [discriminate | simpl in Hlen; lia].
  - destruct s as [| c s1]; [discriminate |].
    simpl in Hlen.
    destruct (c =? 92) eqn:Hb.
    + apply N.eqb_eq in Hb. subst c.
      destruct s1 as [| e s2]; [discriminate |]. simpl in Hlen.
      destruct (e =? 117) eqn:Hu.
      * apply N.eqb_eq in Hu. subst e.
        destruct s2 as [| h1 [| h2 [| h3 [| h4 s3]]]]; try discriminate.
        simpl in Hlen.
        destruct (decode_uXXXX h1 h2 h3 h4) as [uni |] eqn:Hd;
          [| cbn [scanstring] in H; rewrite Hd in H; discriminate].
        rewrite (scanstring_u _ _ _ _ _ _ Hd) in H.
        change ((92 :: 117 :: h1 :: h2 :: h3 :: h4 :: s3) ++ y)
          with (92 :: 117 :: h1 :: h2 :: h3 :: h4 :: (s3 ++ y)).
        rewrite (scanstring_u _ _ _ _ _ _ Hd).
        destruct (is_high_surrogate uni) eqn:Hh; cbn [andb] in *.
        -- destruct (starts_with [92; 117] s3) eqn:Hs.
           ++ rewrite (starts_with_longer _ _ _ Hs).
              destruct s3 as [| b [| u [| l1 [| l2 [| l3 [| l4 s4]]]]]];
                try discriminate.
              cbn [app]. simpl in Hlen.
              destruct (decode_uXXXX l1 l2 l3 l4) as [uni2 |]; [| discriminate].
              destruct (is_low_surrogate uni2).
              ** revert H. apply cons_to_app. intros str' Hs'.
                 apply IH; [lia | exact Hs'].
              ** revert H. apply cons_to_app. intros str' Hs'.
                 apply (IH (b :: u :: l1 :: l2 :: l3 :: l4 :: s4)); [simpl; lia | exact Hs'].
           ++ destruct (cons_to_Some _ _ _ _ H) as [str0 H0].
              rewrite (no_escape_start _ _ _ y H0 Hs).
              revert H. apply cons_to_app. intros str' Hs'.
              apply IH; [lia | exact Hs'].
        -- revert H. apply cons_to_app. intros str' Hs'.
           apply IH; [lia | exact Hs'].
      * cbn [scanstring] in H. cbn [app scanstring].
        rewrite Hu in *. cbn [N.eqb] in *.
        change (92 =? 34) with false in *. change (92 =? 92) with true in *.
        cbv iota in *.
        destruct (backslash e); [| discriminate].
        revert H. apply cons_to_app. intros str' Hs'.
        apply IH; [lia | exact Hs'].
    + cbn [scanstring] in H. cbn [app scanstring]. rewrite Hb in *.
      destruct (c =? 34).
      { inversion H; subst. reflexivity. }
      destruct (c <? 32); [discriminate |].
      revert H. apply cons_to_app. intros str' Hs'.
      apply IH; [lia | exact Hs'].
Qed.

Lemma scan_integer_app (s r ds y : text) (neg : bool) :
  scan_integer s = Some (neg, ds, r) -> r <> [] ->
  scan_integer (s ++ y) = Some (neg, ds, r ++ y).
Proof.
  unfold scan_integer. intros H Hr.
  assert (Hdigits : forall (b : bool) s1,
             match s1 with
             | [] => None
             | c :: s2 =>
                 if c =? 48 then Some (b, [c], s2)
                 else if is_digit09 c
                      then let (ds0, s3) := span is_digit09 s1 in Some (b, ds0, s3)
                      else None
             end = Some (neg, ds, r) ->
             match s1 ++ y with
             | [] => None
             | c :: s2 =>
                 if c =? 48 then Some (b, [c], s2)
                 else if is_digit09 c
                      then let (ds0, s3) := span is_digit09 (s1 ++ y) in Some (b, ds0, s3)
                      else None
             end = Some (neg, ds, r ++ y)).
  { intros b [| c s2]; [discriminate |]. cbn [app].
    destruct (c =? 48).
    - intros K. inversion K; subst. reflexivity.
    - destruct (is_digit09 c); [| discriminate].
      destruct (span is_digit09 (c :: s2)) as [ds0 s3] eqn:E.
      intros K. inversion K; subst.
      change (c :: s2 ++ y) with ((c :: s2) ++ y).
      rewrite (span_app _ _ _ _ y E Hr). reflexivity. }
  destruct s as [| c s']; [discriminate |]. cbn [app].
  destruct (c =? 45) eqn:E.
  - apply (Hdigits true s'). exact H.
  - apply (Hdigits false (c :: s')). exact H.
Qed.

Lemma scan_frac_app (s r fs y : text) :
  scan_frac s = Some (fs, r) -> r <> [] -> scan_frac (s ++ y) = Some (fs, r ++ y).
Proof.
  unfold scan_frac. destruct s as [| c s1]; [discriminate |]. cbn [app].
  destruct (c =? 46); [| discriminate].
  destruct (span is_digit09 s1) as [[| d ds] s2] eqn:Es; [discriminate |].
  intros H Hr. inversion H; subst.
  rewrite (span_app _ _ _ _ y Es Hr). reflexivity.
Qed.

Lemma scan_exp_app (s r y : text) (e : Z) :
  scan_exp s = Some (e, r) -> r <> [] -> scan_exp (s ++ y) = Some (e, r ++ y).
Proof.
  unfold scan_exp. destruct s as [| c s1]; [discriminate |]. cbn [app].
  destruct ((c =? 101) || (c =? 69)); [| discriminate].
  destruct s1 as [| d s2].
  - simpl. discriminate.
  - cbn [app]. destruct (d =? 43); [| destruct (d =? 45)].
    + destruct (span is_digit09 s2) as [[| x ds] s3] eqn:Es; [discriminate |].
      intros H Hr. inversion H; subst.
      rewrite (span_app _ _ _ _ y Es Hr). reflexivity.
    + destruct (span is_digit09 s2) as [[| x ds] s3] eqn:Es; [discriminate |].
      intros H Hr. inversion H; subst.
      rewrite (span_app _ _ _ _ y Es Hr). reflexivity.
    + destruct (span is_digit09 (d :: s2)) as [[| x ds] s3] eqn:Es; [discriminate |].
      intros H Hr. inversion H; subst.
      change (d :: s2 ++ y) with ((d :: s2) ++ y).
      rewrite (span_app _ _ _ _ y Es Hr). reflexivity.
Qed.

Lemma scan_frac_elsewhere (s y : text) :
  match s with c :: _ => c =? 46 | [] => true end = false -> scan_frac (s ++ y) = None.
Proof.
  destruct s as [| c s1]; [discriminate |]. intros H. cbn [app scan_frac].
  rewrite H. reflexivity.
Qed.

Lemma scan_exp_elsewhere (s y : text) :
  match s with c :: _ => (c =? 101) || (c =? 69) | [] => true end = false ->
  scan_exp (s ++ y) = None.
Proof.
  destruct s as [| c s1]; [discriminate |]. intros H. cbn [app scan_exp].
  rewrite H. reflexivity.
Qed.

Lemma ends_literal_frac (r : text) :
  ends_literal r = true -> match r with c :: _ => c =? 46 | [] => true end = false.
Proof.
  destruct r as [| c r]; [discriminate |]. unfold ends_literal.
  destruct (c =? 46); [discriminate | reflexivity].
Qed.

Lemma ends_literal_exp (r : text) :
  ends_literal r = true ->
  match r with c :: _ => (c =? 101) || (c =? 69) | [] => true end = false.
Proof.
  destruct r as [| c r]; [discriminate |]. unfold ends_literal.
  destruct (c =? 46); [discriminate |].
  destruct (c =? 101); [discriminate |].
  destruct (c =? 69); [discriminate | reflexivity].
Qed.

Lemma scan_exp_head (s r : text) (e : Z) :
  scan_exp s = Some (e, r) -> match s with c :: _ => c =? 46 | [] => true end = false.
Proof.
  unfold scan_exp. destruct s as [| c s1]; [discriminate |].
  destruct (N.eqb_spec c 46) as [-> |]; [discriminate | reflexivity].
Qed.

Lemma app_not_nil {A} (p r : list A) : r <> [] -> p ++ r <> [].
Proof. intros Hr H. apply app_eq_nil in H as [_ H]. contradiction. Qed.

(** What [scan_number] does with a literal does not depend on the text
    after the character that ends the literal. *)
Lemma scan_number_app (s r y : text) (n : number) :
  scan_number s = Some (n, r) -> ends_literal r = true ->
  scan_number (s ++ y) = Some (n, r ++ y).
Proof.
  unfold scan_number. intros H Hend.
  assert (Hr : r <> []) by (destruct r; [discriminate | discriminate]).
  destruct (scan_integer s) as [[[neg ds] s1] |] eqn:Ei; [| discriminate].
  destruct (scan_frac s1) as [[fs s2] |] eqn:Ef.
  - destruct (scan_exp s2) as [[e s3] |] eqn:Ee.
    + inversion H; subst.
      destruct (scan_exp_literal _ _ _ Ee) as (p3 & E3 & _).
      destruct (scan_frac_literal _ _ _ Ef) as (p2 & E2 & _).
      assert (H2 : s2 <> []) by (rewrite E3; apply app_not_nil, Hr).
      assert (H1 : s1 <> []) by (rewrite E2; apply app_not_nil, H2).
      rewrite (scan_integer_app _ _ _ y _ Ei H1), (scan_frac_app _ _ _ y Ef H2),
        (scan_exp_app _ _ y _ Ee Hr).
      reflexivity.
    + inversion H; subst.
      destruct (scan_frac_literal _ _ _ Ef) as (p2 & E2 & _).
      assert (H1 : s1 <> []) by (rewrite E2; apply app_not_nil, Hr).
      rewrite (scan_integer_app _ _ _ y _ Ei H1), (scan_frac_app _ _ _ y Ef Hr),
        (scan_exp_elsewhere _ y (ends_literal_exp _ Hend)).
      reflexivity.
  - destruct (scan_exp s1) as [[e s3] |] eqn:Ee.
    + inversion H; subst.
      destruct (scan_exp_literal _ _ _ Ee) as (p3 & E3 & _).
      assert (H1 : s1 <> []) by (rewrite E3; apply app_not_nil, Hr).
      rewrite (scan_integer_app _ _ _ y _ Ei H1),
        (scan_frac_elsewhere _ y (scan_exp_head _ _ _ Ee)), (scan_exp_app _ _ y _ Ee Hr).
      reflexivity.
    + inversion H; subst.
      rewrite (scan_integer_app _ _ _ y _ Ei Hr),
        (scan_frac_elsewhere _ y (ends_literal_frac _ Hend)),
        (scan_exp_elsewhere _ y (ends_literal_exp _ Hend)).
      reflexivity.
Qed.

Lemma keyword_app (kw s y : text) :
  starts_with kw s = true ->
  starts_with kw (s ++ y) = true /\
  skipn (length kw) (s ++ y) = skipn (length kw) s ++ y.
Proof.
  intros H. split; [apply starts_with_longer, H |].
  apply starts_with_split in H.
  rewrite H at 1. rewrite <- app_assoc. apply skipn_length_app.
Qed.

Lemma scan_number_head (c : N) (s r : text) (n : number) :
  scan_number (c :: s) = Some (n, r) -> (c =? 45) || is_digit09 c = true.
Proof.
  unfold scan_number, scan_integer.
  destruct (c =? 45); [reflexivity |].
  destruct (N.eqb_spec c 48) as [-> |]; [reflexivity |].
  destruct (is_digit09 c); [reflexivity | discriminate].
Qed.

Lemma starts_with_other (kw s : text) (c : N) :
  match kw with k :: _ => k =? c | [] => true end = false ->
  starts_with kw (c :: s) = false.
Proof.
  destruct kw as [| k kw]; [discriminate |].
  intros H. cbn [starts_with]. rewrite H. reflexivity.
Qed.

Lemma number_head_no_letter (c k : N) :
  (c =? 45) || is_digit09 c = true -> (k =? 45) || is_digit09 k = false ->
  (k =? c) = false.
Proof.
  intros Hc Hk. destruct (N.eqb_spec k c) as [-> |]; [congruence | reflexivity].
Qed.

(** What [scan_keyword] does with a literal does not depend on the text
    after the character that ends the literal. *)
Lemma scan_keyword_app (s r y : text) (t : token) :
  scan_keyword s = Some (t, r) -> ends_literal r = true ->
  scan_keyword (s ++ y) = Some (t, r ++ y).
Proof.
  unfold scan_keyword. intros H Hend.
  destruct (starts_with (py "null") s) eqn:E1.
  { inversion H; subst.
    destruct (keyword_app _ _ y E1) as [-> K]. f_equal. f_equal. exact K. }
  destruct (starts_with (py "true") s) eqn:E2.
  { inversion H; subst.
    destruct (keyword_app _ _ y E2) as [K1 K].
    destruct s as [| c s0]; [discriminate |].
    cbn [starts_with py] in E2. 
    change (starts_with (py "true") (c :: s0)) with
      ((116 =? c) && starts_with (py "rue") s0) in E2.
    apply andb_prop in E2 as [Ec _]. apply N.eqb_eq in Ec. subst c.
    cbn [app]. rewrite (starts_with_other (py "null") _ 116 eq_refl).
    change ((116 :: s0) ++ y) with (116 :: s0 ++ y) in K1. rewrite K1.
    f_equal. f_equal. exact K. }
  destruct (starts_with (py "false") s) eqn:E3.
  { inversion H; subst.
    destruct (keyword_app _ _ y E3) as [K1 K].
    destruct s as [| c s0]; [discriminate |].
    change (starts_with (py "false") (c :: s0)) with
      ((102 =? c) && starts_with (py "alse") s0) in E3.
    apply andb_prop in E3 as [Ec _]. apply N.eqb_eq in Ec. subst c.
    cbn [app]. rewrite (starts_with_other (py "null") _ 102 eq_refl).
    rewrite (starts_with_other (py "true") _ 102 eq_refl).
    change ((102 :: s0) ++ y) with (102 :: s0 ++ y) in K1. rewrite K1.
    f_equal. f_equal. exact K. }
  destruct (scan_number s) as [[n r'] |] eqn:En.
  { inversion H; subst.
    destruct s as [| c s0]; [discriminate |].
    pose proof (scan_number_head _ _ _ _ En) as Hc.
    cbn [app].
    rewrite (starts_with_other (py "null") _ c (number_head_no_letter c 110 Hc eq_refl)).
    rewrite (starts_with_other (py "true") _ c (number_head_no_letter c 116 Hc eq_refl)).
    rewrite (starts_with_other (py "false") _ c (number_head_no_letter c 102 Hc eq_refl)).
    change (c :: s0 ++ y) with ((c :: s0) ++ y).
    rewrite (scan_number_app _ _ y _ En Hend). reflexivity. }
  destruct (starts_with (py "NaN") s) eqn:E4.
  { inversion H; subst.
    destruct (keyword_app _ _ y E4) as [K1 K].
    destruct s as [| c s0]; [discriminate |].
    change (starts_with (py "NaN") (c :: s0)) with
      ((78 =? c) && starts_with (py "aN") s0) in E4.
    apply andb_prop in E4 as [Ec _]. apply N.eqb_eq in Ec. subst c.
    cbn [app]. rewrite (starts_with_other (py "null") _ 78 eq_refl).
    rewrite (starts_with_other (py "true") _ 78 eq_refl).
    rewrite (starts_with_other (py "false") _ 78 eq_refl).
    change ((78 :: s0) ++ y) with (78 :: s0 ++ y) in K1. rewrite K1.
    change (scan_number (78 :: s0 ++ y)) with (@None (number * text)).
    f_equal. f_equal. exact K. }
  destruct (starts_with (py "Infinity") s) eqn:E5.
  { inversion H; subst.
    destruct (keyword_app _ _ y E5) as [K1 K].
    destruct s as [| c s0]; [discriminate |].
    change (starts_with (py "Infinity") (c :: s0)) with
      ((73 =? c) && starts_with (py "nfinity") s0) in E5.
    apply andb_prop in E5 as [Ec _]. apply N.eqb_eq in Ec. subst c.
    cbn [app]. rewrite (starts_with_other (py "null") _ 73 eq_refl).
    rewrite (starts_with_other (py "true") _ 73 eq_refl).
    rewrite (starts_with_other (py "false") _ 73 eq_refl).
    rewrite (starts_with_other (py "NaN") _ 73 eq_refl).
    change ((73 :: s0) ++ y) with (73 :: s0 ++ y) in K1. rewrite K1.
    change (scan_number (73 :: s0 ++ y)) with (@None (number * text)).
    f_equal. f_equal. exact K. }
  destruct (starts_with (py "-Infinity") s) eqn:E6; [| discriminate].
  inversion H; subst.
  destruct (keyword_app _ _ y E6) as [K1 K].
  destruct s as [| c [| c2 s0]]; try discriminate.
  change (starts_with (py "-Infinity") (c :: c2 :: s0)) with
    ((45 =? c) && ((73 =? c2) && starts_with (py "nfinity") s0)) in E6.
  apply andb_prop in E6 as [Ec E6]. apply andb_prop in E6 as [Ec2 _].
  apply N.eqb_eq in Ec, Ec2. subst c c2.
  cbn [app]. rewrite (starts_with_other (py "null") _ 45 eq_refl).
  rewrite (starts_with_other (py "true") _ 45 eq_refl).
  rewrite (starts_with_other (py "false") _ 45 eq_refl).
  rewrite (starts_with_other (py "NaN") _ 45 eq_refl).
  rewrite (starts_with_other (py "Infinity") _ 45 eq_refl).
  change ((45 :: 73 :: s0) ++ y) with (45 :: 73 :: s0 ++ y) in K1. rewrite K1.
  change (scan_number (45 :: 73 :: s0 ++ y)) with (@None (number * text)).
  f_equal. f_equal. exact K.
Qed.

Lemma ends_with_split (a p r : text) (k : N) :
  a ++ [k] = p ++ r -> r <> [] -> exists r0, r = r0 ++ [k] /\ a = p ++ r0.
Proof.
  intros H Hr. destruct (exists_last Hr) as (r0 & c & ->).
  rewrite app_assoc in H. apply app_inj_tail in H as [-> ->]. eauto.
Qed.

Lemma literal_stops_before (p r a : text) (k : N) :
  a ++ [k] = p ++ r -> Forall (fun c => literal_char c = true) p ->
  literal_char k = false -> exists r0, r = r0 ++ [k] /\ a = p ++ r0.
Proof.
  intros H Hp Hk. apply (ends_with_split a p r k H).
  intros ->. rewrite List.app_nil_r in H. subst p.
  apply Forall_app in Hp as [_ Hp]. inversion Hp; subst. congruence.
Qed.

Lemma tokenize_ends_literal (f : nat) (r : text) (ts : list token) :
  tokenize f r = Some ts -> r <> [] -> ends_literal r = true.
Proof.
  destruct r as [| c r]; [congruence |]. intros H _.
  destruct f as [| f]; [discriminate |].
  unfold ends_literal.
  destruct (N.eqb_spec c 46) as [-> |]; [discriminate |].
  destruct (N.eqb_spec c 101) as [-> |]; [discriminate |].
  destruct (N.eqb_spec c 69) as [-> |]; [discriminate | reflexivity].
Qed.

(** The tokens of a text that ends with a closing brace, followed by more
    text, are its tokens followed by those of the rest. *)
Lemma tokenize_app (f : nat) :
  forall (x : text) (ts1 : list token),
    tokenize f (x ++ [125]) = Some ts1 ->
    forall (F : nat) (y : text),
      (length x + length y + 1 < F)%nat ->
      tokenize F (x ++ 125 :: y) = option_map (app ts1) (tokenize F y).
Proof.
  induction f as [| f IH]; intros x ts1 H F y HF; [discriminate |].
  destruct F as [| F]; [lia |].
  assert (Hy : tokenize F y = tokenize (S F) y).
  { destruct y as [| c y]; [destruct F; [simpl in HF; lia | reflexivity] |].
    apply tokenize_fuel; simpl in *; lia. }
  assert (Hstep : forall (t : token) (x1 : text),
             map_tokens t (tokenize f (x1 ++ [125])) = Some ts1 ->
             (length x1 + length y + 1 < F)%nat ->
             map_tokens t (tokenize F (x1 ++ 125 :: y))
             = option_map (app ts1) (tokenize (S F) y)).
  { intros t x1 K HF1.
    destruct (tokenize f (x1 ++ [125])) as [ts' |] eqn:E; [| discriminate].
    inversion K; subst.
    rewrite (IH _ _ E F y HF1), Hy.
    destruct (tokenize (S F) y); reflexivity. }
  destruct x as [| c x1].
  - cbn [app] in *. cbn [tokenize] in H.
    change (is_json_ws 125) with false in H. cbv iota in H.
    change (125 =? 123) with false in H. change (125 =? 125) with true in H.
    cbv iota in H.
    destruct f as [| f]; [discriminate |]. inversion H; subst.
    change (tokenize (S F) (125 :: y)) with (map_tokens TRBrace (tokenize F y)).
    rewrite Hy. destruct (tokenize (S F) y); reflexivity.
  - cbn [app] in *. simpl in HF.
    change (tokenize (S f) (c :: x1 ++ [125])) with
      (if is_json_ws c then tokenize f (x1 ++ [125])
       else if c =? 123 then map_tokens TLBrace (tokenize f (x1 ++ [125]))
       else if c =? 125 then map_tokens TRBrace (tokenize f (x1 ++ [125]))
       else if c =? 91 then map_tokens TLBrack (tokenize f (x1 ++ [125]))
       else if c =? 93 then map_tokens TRBrack (tokenize f (x1 ++ [125]))
       else if c =? 58 then map_tokens TColon (tokenize f (x1 ++ [125]))
       else if c =? 44 then map_tokens TComma (tokenize f (x1 ++ [125]))
       else if c =? 34 then
         match scanstring (x1 ++ [125]) with
         | Some (str, r) => map_tokens (TStr str) (tokenize f r)
         | None => None
         end
       else
         match scan_keyword (c :: x1 ++ [125]) with
         | Some (t, r) => map_tokens t (tokenize f r)
         | None => None
         end) in H.
    change (tokenize (S F) (c :: x1 ++ 125 :: y)) with
      (if is_json_ws c then tokenize F (x1 ++ 125 :: y)
       else if c =? 123 then map_tokens TLBrace (tokenize F (x1 ++ 125 :: y))
       else if c =? 125 then map_tokens TRBrace (tokenize F (x1 ++ 125 :: y))
       else if c =? 91 then map_tokens TLBrack (tokenize F (x1 ++ 125 :: y))
       else if c =? 93 then map_tokens TRBrack (tokenize F (x1 ++ 125 :: y))
       else if c =? 58 then map_tokens TColon (tokenize F (x1 ++ 125 :: y))
       else if c =? 44 then map_tokens TComma (tokenize F (x1 ++ 125 :: y))
       else if c =? 34 then
         match scanstring (x1 ++ 125 :: y) with
         | Some (str, r) => map_tokens (TStr str) (tokenize F r)
         | None => None
         end
       else
         match scan_keyword (c :: x1 ++ 125 :: y) with
         | Some (t, r) => map_tokens t (tokenize F r)
         | None => None
         end).
    destruct (is_json_ws c).
    { rewrite (IH _ _ H F y) by lia. rewrite Hy. reflexivity. }
    repeat match goal with
           | |- (if ?b then _ else _) = _ =>
               destruct b; [apply Hstep; [exact H | lia] |]
           end.
    destruct (c =? 34) eqn:Hq.
    + destruct (scanstring (x1 ++ [125])) as [[str r] |] eqn:E; [| discriminate].
      pose proof (scanstring_consumes _ _ _ _ (Nat.le_refl _) E) as (p & Hp & _).
      change (p ++ 34 :: r) with (p ++ [34] ++ r) in Hp. rewrite app_assoc in Hp.
      apply ends_with_split in Hp as (r0 & -> & Hx).
      2:{ intros ->. rewrite List.app_nil_r in Hp.
          apply app_inj_tail in Hp as [_ Hp]. discriminate. }
      change (x1 ++ 125 :: y) with (x1 ++ [125] ++ y). rewrite app_assoc.
      rewrite (scanstring_app _ _ _ _ y (Nat.le_refl _) E).
      rewrite <- app_assoc. cbn [app].
      apply Hstep; [exact H |].
      subst x1. rewrite !length_app in HF. simpl in HF. lia.
    + destruct (scan_keyword (c :: x1 ++ [125])) as [[t r] |] eqn:E; [| discriminate].
      pose proof (scan_keyword_literal _ _ _ E) as (p & Hp & Hne & Hlit).
      change (c :: x1 ++ [125]) with ((c :: x1) ++ [125]) in Hp.
      apply literal_stops_before in Hp as (r0 & -> & Hx); [| exact Hlit | reflexivity].
      destruct (tokenize f (r0 ++ [125])) as [ts' |] eqn:Et; [| discriminate].
      assert (Hend : ends_literal (r0 ++ [125]) = true).
      { apply (tokenize_ends_literal f _ ts' Et). destruct r0; discriminate. }
      replace (c :: x1 ++ 125 :: y) with ((c :: x1 ++ [125]) ++ y)
        by (cbn [app]; rewrite <- app_assoc; reflexivity).
      rewrite (scan_keyword_app _ _ y _ E Hend).
      rewrite <- app_assoc. cbn [app].
      apply Hstep; [rewrite Et; exact H |].
      assert (Hl : length (c :: x1) = length (p ++ r0)) by (rewrite Hx; reflexivity).
      rewrite length_app in Hl. simpl in Hl.
      destruct p; [congruence | simpl in *; lia].
Qed.

Lemma parse_nothing (f : nat) :
  parse_value f [] = None /\
  (forall acc, parse_elements f [] acc = None) /\
  (forall acc, parse_members f [] acc = None).
Proof.
  destruct f as [| f]; [repeat split |].
  repeat split; intros; cbn [parse_elements parse_members parse_value].
  destruct f; reflexivity.
Qed.

(** What the parser reads as a value does not depend on the tokens after
    it, nor on fuel it did not need. *)
Lemma parse_app (f : nat) :
  (forall ts v r, parse_value f ts = Some (v, r) ->
                  forall f' y, (f <= f')%nat ->
                               parse_value f' (ts ++ y) = Some (v, r ++ y)) /\
  (forall ts acc v r, parse_elements f ts acc = Some (v, r) ->
                      forall f' y, (f <= f')%nat ->
                                   parse_elements f' (ts ++ y) acc = Some (v, r ++ y)) /\
  (forall ts acc v r, parse_members f ts acc = Some (v, r) ->
                      forall f' y, (f <= f')%nat ->
                                   parse_members f' (ts ++ y) acc = Some (v, r ++ y)).
Proof.
  induction f as [| f (IHv & IHe & IHm)]; [repeat split; discriminate |].
  repeat split.
  - intros ts v r H f' y Hf. destruct f' as [| f']; [lia |].
    cbn [parse_value] in H.
    destruct ts as [| t ts]; [discriminate |]. cbn [app parse_value].
    destruct t; try discriminate; try (inversion H; subst; reflexivity).
    + destruct ts as [| t2 ts2].
      * rewrite (proj2 (proj2 (parse_nothing f))) in H. discriminate.
      * cbn [app].
        destruct t2; try (apply (IHm _ _ _ _ H f' y); lia).
        inversion H; subst. reflexivity.
    + destruct ts as [| t2 ts2].
      * rewrite (proj1 (proj2 (parse_nothing f))) in H. discriminate.
      * cbn [app].
        destruct t2; try (apply (IHe _ _ _ _ H f' y); lia).
        inversion H; subst. reflexivity.
  - intros ts acc v r H f' y Hf. destruct f' as [| f']; [lia |].
    cbn [parse_elements] in *.
    destruct (parse_value f ts) as [[v' [| t r']] |] eqn:E; try discriminate.
    rewrite (IHv _ _ _ E f' y) by lia. cbn [app].
    destruct t; try discriminate.
    + inversion H; subst. reflexivity.
    + apply (IHe _ _ _ _ H f' y). lia.
  - intros ts acc v r H f' y Hf. destruct f' as [| f']; [lia |].
    cbn [parse_members] in *.
    destruct ts as [| [] [| [] ts]]; try discriminate. cbn [app].
    destruct (parse_value f ts) as [[v' [| t r']] |] eqn:E; try discriminate.
    rewrite (IHv _ _ _ E f' y) by lia. cbn [app].
    destruct t; try discriminate.
    + inversion H; subst. reflexivity.
    + apply (IHm _ _ _ _ H f' y). lia.
Qed.

Lemma no_token_no_brace (f : nat) (y : text) :
  tokenize f y = Some [] -> Forall (fun c => c <> 125) y.
Proof.
  revert y. induction f as [| f IH]; intros y H; [discriminate |].
  destruct y as [| c y]; [constructor |].
  cbn [tokenize] in H.
  destruct (is_json_ws c) eqn:Hws.
  - constructor; [intros -> ; discriminate | apply IH, H].
  - exfalso.
    repeat match type of H with
           | (if ?b then _ else _) = _ => destruct b
           | map_tokens _ ?o = _ => destruct o; discriminate
           end.
    + destruct (scanstring y) as [[str r] |]; [| discriminate].
      destruct (tokenize f r); discriminate.
    + destruct (scan_keyword (c :: y)) as [[t r] |]; [| discriminate].
      destruct (tokenize f r); discriminate.
Qed.

(** A JSON document that ends with a closing brace, followed by text that
    holds another closing brace, is not a JSON document. *)
Lemma loads_extra_data (x y : text) (v : json) :
  json_loads (x ++ [125]) = Ok v ->
  json_loads (x ++ [125] ++ y ++ [125]) = Raise JSONDecodeError.
Proof.
  unfold json_loads. intros H.
  destruct (tokenize (S (length (x ++ [125]))) (x ++ [125])) as [ts1 |] eqn:Et;
    [| discriminate].
  destruct (parse_value (2 * length ts1 + 2) ts1) as [[v' [| t r]] |] eqn:Ep;
    try discriminate.
  cbn [app].
  rewrite (tokenize_app _ _ _ Et).
  2:{ rewrite !length_app. simpl. rewrite length_app. simpl. lia. }
  destruct (tokenize _ (y ++ [125])) as [ts2 |] eqn:E2; [| reflexivity].
  cbn [option_map].
  rewrite (proj1 (parse_app _) _ _ _ Ep _ ts2).
  2:{ rewrite length_app. lia. }
  cbn [app]. destruct ts2 as [| t2 ts2]; [| reflexivity].
  apply no_token_no_brace in E2. apply Forall_app in E2 as [_ E2].
  inversion E2; subst. congruence.
Qed.

(** X13. A response in which a complete JSON object is followed, anywhere
    later, by another closing brace gives nothing: the text from the first
    opening brace to the last closing brace is then a document followed by
    more text, which [json.loads] refuses, and [postprocess] returns no
    shape.  This is so for a JSON list of two or more detections, although
    the same response with the first object alone gives that object. *)
Theorem second_object_voids_the_response (py_str : json -> text)
  (a m1 m2 b : text) (v : json) (w h : Z) :
  Forall (fun c => c <> 123) a -> Forall (fun c => c <> 125) b ->
  json_loads ([123] ++ m1 ++ [125]) = Ok v ->
  extract_json_from_response (a ++ [123] ++ m1 ++ [125] ++ b) = Some v /\
  extract_json_from_response (a ++ [123] ++ m1 ++ [125] ++ m2 ++ [125] ++ b) = None /\
  postprocess py_str (a ++ [123] ++ m1 ++ [125] ++ m2 ++ [125] ++ b) w h = [].
Proof.
  intros Ha Hb Hv.
  assert (H1 : extract_json_from_response (a ++ [123] ++ m1 ++ [125] ++ b) = Some v).
  { unfold extract_json_from_response.
    change brace_pattern with (delimited 123 125). cbn [app].
    rewrite search_delimited by assumption.
    unfold loads_or_none. cbn [app] in Hv. rewrite Hv. reflexivity. }
  assert (H2 : extract_json_from_response
                 (a ++ [123] ++ m1 ++ [125] ++ m2 ++ [125] ++ b) = None).
  { unfold extract_json_from_response.
    change brace_pattern with (delimited 123 125). cbn [app].
    change (a ++ 123 :: m1 ++ 125 :: m2 ++ 125 :: b)
      with (a ++ 123 :: m1 ++ [125] ++ m2 ++ 125 :: b).
    rewrite (app_assoc m1), (app_assoc _ m2).
    rewrite search_delimited by assumption.
    unfold loads_or_none.
    replace (123 :: ((m1 ++ [125]) ++ m2) ++ [125])
      with ((123 :: m1) ++ [125] ++ m2 ++ [125])
      by (cbn [app]; rewrite <- !app_assoc; reflexivity).
    rewrite (loads_extra_data (123 :: m1) m2 v Hv). reflexivity. }
  split; [exact H1 |]. split; [exact H2 |].
  unfold postprocess. rewrite H2. reflexivity.
Qed.

Lemma second_object_voids_the_response_witness :
  extract_json_from_response
    (py "[" ++ [123] ++ pyq "'label': 'cat', 'bbox': [1, 2, 3, 4]" ++ [125]
     ++ pyq ", {'label': 'dog', 'bbox': [5, 6, 7, 8]" ++ [125] ++ py "]")
  = None.
Proof.
  exact (proj1 (proj2
    (second_object_voids_the_response (fun _ => [])
       (py "[") (pyq "'label': 'cat', 'bbox': [1, 2, 3, 4]")
       (pyq ", {'label': 'dog', 'bbox': [5, 6, 7, 8]") (py "]")
       (box_object "cat" (JNum (PyInt 1)) (JNum (PyInt 2)) (JNum (PyInt 3))
          (JNum (PyInt 4)))
       100 100
       ltac:(repeat constructor; discriminate)
       ltac:(repeat constructor; discriminate)
       eq_refl))).
Defined.

(** ** The history as a shared list object *)

Lemma lookup_inserted {A} (l : list (list A)) (a : nat) (x : list A) :
  (a < length l)%nat -> default [] (<[a := x]> l !! a) = x.
Proof.
  intros H. rewrite list_lookup_insert.
  destruct (decide (a = a /\ (a < length l)%nat)) as [_ | K]; [reflexivity |].
  exfalso. apply K. split; [reflexivity | exact H].
Qed.

Lemma lookup_not_inserted {A} (l : list (list A)) (a b : nat) (x : list A) :
  a <> b -> default [] (<[a := x]> l !! b) = default [] (l !! b).
Proof. intros H. rewrite list_lookup_insert_ne by exact H. reflexivity. Qed.

Lemma lookup_appended {A} (l rest : list (list A)) (x : list A) :
  default [] ((l ++ x :: rest) !! length l) = x.
Proof. rewrite list_lookup_middle by reflexivity. reflexivity. Qed.

Lemma lookup_kept {A} (l rest : list (list A)) (a : nat) :
  (a < length l)%nat -> default [] ((l ++ rest) !! a) = default [] (l !! a).
Proof. intros H. rewrite lookup_app_l by exact H. reflexivity. Qed.

(** The history of the dialog, in the store, is that of the value model. *)
Lemma history_add_message (r : role) (content : text) (delete_last_message : bool)
      (s : Shared.state) (loading : option (option text)) (busy : bool) :
  Shared.allocated s ->
  Shared.history (Shared.add_message r content delete_last_message s)
  = chat_history (add_message r content delete_last_message (Shared.view s loading busy)).
Proof.
  intros [Hself _].
  unfold Shared.add_message, add_message, Shared.view, Shared.new_message.
  cbn [chat_history filename].
  destruct delete_last_message.
  - rewrite andb_false_r.
    destruct r;
      try destruct (contains (py "@image") content || contains (py "<image>") content);
      unfold Shared.history, Shared.the_list; cbn; apply lookup_appended.
  - rewrite andb_true_r.
    destruct r;
      try destruct (contains (py "@image") content || contains (py "<image>") content);
      try destruct (Shared.has_filename s);
      unfold Shared.history, Shared.the_list; cbn;
      rewrite lookup_inserted by exact Hself; reflexivity.
Qed.

Lemma history_appended (r : role) (content : text) (s : Shared.state) :
  Shared.allocated s ->
  Shared.history (Shared.add_message r content false s)
  = Shared.history s ++ [Shared.new_message r content (Shared.parent_filename s)].
Proof.
  intros [Hself _]. unfold Shared.add_message. rewrite andb_true_r.
  destruct (Shared.is_assistant r && Shared.has_filename s);
    unfold Shared.history at 1, Shared.the_list; cbn;
    apply lookup_inserted, Hself.
Qed.

Lemma history_rolled_back (r : role) (content : text) (s : Shared.state) :
  Shared.history (Shared.add_message r content true s) = removelast (Shared.history s).
Proof.
  unfold Shared.add_message. rewrite andb_false_r.
  unfold Shared.history at 1, Shared.the_list. cbn. apply lookup_appended.
Qed.

Lemma add_message_allocated (r : role) (content : text) (delete_last_message : bool)
      (s : Shared.state) :
  Shared.allocated s -> Shared.allocated (Shared.add_message r content delete_last_message s).
Proof.
  intros [Hself Hother]. unfold Shared.add_message, Shared.allocated.
  destruct delete_last_message.
  - rewrite andb_false_r. cbn. rewrite length_app. cbn. split; [lia |].
    destruct (Shared.other_chat_history s); [lia | exact I].
  - rewrite andb_true_r.
    destruct (Shared.is_assistant r && Shared.has_filename s); cbn;
      rewrite length_insert; split; try exact Hself; try exact Hother.
Qed.

Lemma add_message_filename (r : role) (content : text) (delete_last_message : bool)
      (s : Shared.state) :
  Shared.parent_filename (Shared.add_message r content delete_last_message s)
  = Shared.parent_filename s.
Proof.
  unfold Shared.add_message.
  destruct delete_last_message, (Shared.is_assistant r && Shared.has_filename s);
    reflexivity.
Qed.

Lemma add_message_has_filename (r : role) (content : text) (delete_last_message : bool)
      (s : Shared.state) :
  Shared.has_filename (Shared.add_message r content delete_last_message s)
  = Shared.has_filename s.
Proof. unfold Shared.has_filename. rewrite add_message_filename. reflexivity. Qed.

Lemma add_message_widgets (r : role) (content : text) (delete_last_message : bool)
      (s : Shared.state) :
  Shared.message_widgets (Shared.add_message r content delete_last_message s)
  = S (Shared.message_widgets s).
Proof.
  unfold Shared.add_message.
  destruct delete_last_message, (Shared.is_assistant r && Shared.has_filename s);
    reflexivity.
Qed.

(** A stored answer makes the data of the parent refer to the list of the
    dialog. *)
Lemma answer_shares_the_list (content : text) (s : Shared.state) :
  Shared.has_filename s = true ->
  Shared.other_chat_history (Shared.add_message Assistant content false s)
  = Some (Shared.self_chat_history (Shared.add_message Assistant content false s)).
Proof.
  intros Hf. unfold Shared.add_message. rewrite Hf. reflexivity.
Qed.

(** A question is appended to the list both refer to. *)
Lemma question_keeps_the_list (content : text) (s : Shared.state) :
  Shared.other_chat_history s = Some (Shared.self_chat_history s) ->
  Shared.other_chat_history (Shared.add_message User content false s)
  = Some (Shared.self_chat_history (Shared.add_message User content false s)).
Proof. intros H. unfold Shared.add_message. cbn. exact H. Qed.

Lemma shared_history (s : Shared.state) :
  Shared.other_chat_history s = Some (Shared.self_chat_history s) ->
  Shared.parent_history s = Some (Shared.history s).
Proof. intros H. unfold Shared.parent_history. rewrite H. reflexivity. Qed.

(** The error message of a failed turn leaves the data of the parent on the
    list object it referred to. *)
Lemma rollback_leaves_parent (r : role) (content : text) (s : Shared.state) :
  Shared.allocated s ->
  Shared.parent_history (Shared.add_message r content true s) = Shared.parent_history s.
Proof.
  intros [_ Hother]. unfold Shared.add_message. rewrite andb_false_r.
  unfold Shared.parent_history. cbn.
  destruct (Shared.other_chat_history s) as [a |]; [| reflexivity].
  cbn. f_equal. unfold Shared.the_list. cbn. apply lookup_kept, Hother.
Qed.

Lemma answered_turn_history (q a : text) (s : Shared.state) :
  Shared.allocated s -> Shared.has_filename s = true ->
  Shared.parent_history (Shared.answered_turn q a s)
  = Some (Shared.history (Shared.answered_turn q a s)) /\
  Shared.history (Shared.answered_turn q a s)
  = Shared.history s ++ [Shared.new_message User q (Shared.parent_filename s);
                         Shared.new_message Assistant a (Shared.parent_filename s)].
Proof.
  intros Ha Hf. unfold Shared.answered_turn. split.
  - apply shared_history, answer_shares_the_list.
    rewrite add_message_has_filename. exact Hf.
  - rewrite history_appended by (apply add_message_allocated, Ha).
    rewrite history_appended by exact Ha.
    rewrite add_message_filename, <- app_assoc. reflexivity.
Qed.

(** X14. The history of the dialog and the [chat_history] of the parent's
    [other_data] are one list object once an answer has been stored, so a
    question is in the parent's data as soon as it is asked.  When the turn
    then fails, the dialog takes the question back by binding its history to
    a slice, and the parent's data keeps the list with the question in it.
    The next stored answer makes both refer to one list again. *)
Theorem failed_question_stays_in_parent_data (s0 : Shared.state)
  (q0 a0 q e q2 a2 : text) :
  Shared.allocated s0 -> Shared.has_filename s0 = true ->
  let s := Shared.answered_turn q0 a0 s0 in
  let asked := Shared.add_message User q false s in
  let failed := Shared.failed_turn q e s in
  let next := Shared.answered_turn q2 a2 failed in
  let question := Shared.new_message User q (Shared.parent_filename s0) in
  Shared.parent_history s = Some (Shared.history s) /\
  Shared.history asked = Shared.history s ++ [question] /\
  Shared.parent_history asked = Some (Shared.history s ++ [question]) /\
  Shared.history failed = Shared.history s /\
  Shared.parent_history failed = Some (Shared.history s ++ [question]) /\
  Shared.parent_history next = Some (Shared.history next) /\
  Shared.history next
  = Shared.history s ++ [Shared.new_message User q2 (Shared.parent_filename s0);
                         Shared.new_message Assistant a2 (Shared.parent_filename s0)].
Proof.
  intros Ha0 Hf0 s asked failed next question.
  assert (Ha : Shared.allocated s).
  { apply add_message_allocated, add_message_allocated, Ha0. }
  assert (Hf : Shared.has_filename s = true).
  { unfold s, Shared.answered_turn. rewrite !add_message_has_filename. exact Hf0. }
  assert (Hn : Shared.parent_filename s = Shared.parent_filename s0).
  { unfold s, Shared.answered_turn. rewrite !add_message_filename. reflexivity. }
  assert (Hshared : Shared.other_chat_history s = Some (Shared.self_chat_history s)).
  { apply answer_shares_the_list. rewrite add_message_has_filename. exact Hf0. }
  assert (Hasked : Shared.history asked = Shared.history s ++ [question]).
  { unfold asked, question. rewrite history_appended by exact Ha. rewrite Hn. reflexivity. }
  assert (Hparent : Shared.parent_history asked = Some (Shared.history s ++ [question])).
  { rewrite <- Hasked. apply shared_history, question_keeps_the_list, Hshared. }
  assert (Hfa : Shared.allocated failed).
  { apply add_message_allocated, add_message_allocated, Ha. }
  assert (Hff : Shared.has_filename failed = true).
  { unfold failed, Shared.failed_turn. rewrite !add_message_has_filename. exact Hf. }
  assert (Hfailed : Shared.history failed = Shared.history s).
  { unfold failed, Shared.failed_turn. rewrite history_rolled_back.
    fold asked. rewrite Hasked. apply removelast_last. }
  split; [apply shared_history, Hshared |].
  split; [exact Hasked |]. split; [exact Hparent |].
  split; [exact Hfailed |].
  split.
  { unfold failed, Shared.failed_turn.
    rewrite rollback_leaves_parent by (apply add_message_allocated, Ha).
    exact Hparent. }
  destruct (answered_turn_history q2 a2 failed Hfa Hff) as [K1 K2].
  split; [exact K1 |].
  fold next in K2. rewrite K2, Hfailed.
  unfold failed, Shared.failed_turn. rewrite !add_message_filename, Hn. reflexivity.
Qed.

Lemma failed_question_stays_in_parent_data_witness :
  Shared.history
    (Shared.failed_turn (py "and here?") (py "timeout")
       (Shared.answered_turn (py "what is this?") (py "a cat") sample_state))
  = [user_says "what is this?"; assistant_says "a cat"] /\
  Shared.parent_history
    (Shared.failed_turn (py "and here?") (py "timeout")
       (Shared.answered_turn (py "what is this?") (py "a cat") sample_state))
  = Some [user_says "what is this?"; assistant_says "a cat"; user_says "and here?"].
Proof.
  pose proof (failed_question_stays_in_parent_data sample_state
                (py "what is this?") (py "a cat") (py "and here?") (py "timeout")
                (py "next") (py "answer")
                ltac:(split; [repeat constructor | exact I]) eq_refl) as H.
  cbv zeta in H. destruct H as (_ & _ & _ & H4 & H5 & _).
  split; [rewrite H4 | rewrite H5]; reflexivity.
Defined.

(** ** Widgets and messages *)

Lemma clear_messages_after_history (index : nat) (s : Shared.state) :
  Shared.history (Shared.clear_messages_after index s)
  = if (index <? Shared.message_widgets s)%nat
    then firstn index (Shared.history s) else Shared.history s.
Proof.
  unfold Shared.clear_messages_after.
  destruct (index <? Shared.message_widgets s)%nat; [| reflexivity].
  unfold Shared.history at 1, Shared.the_list. cbn. apply lookup_appended.
Qed.

Lemma clear_messages_after_widgets (index : nat) (s : Shared.state) :
  Shared.message_widgets (Shared.clear_messages_after index s)
  = Nat.min index (Shared.message_widgets s).
Proof.
  unfold Shared.clear_messages_after.
  destruct (index <? Shared.message_widgets s)%nat eqn:E; cbn.
  - apply Nat.ltb_lt in E. lia.
  - apply Nat.ltb_ge in E. lia.
Qed.

Lemma failed_turn_counts (q e : text) (s : Shared.state) :
  Shared.allocated s ->
  Shared.history (Shared.failed_turn q e s) = Shared.history s /\
  Shared.message_widgets (Shared.failed_turn q e s) = S (S (Shared.message_widgets s)).
Proof.
  intros Ha. unfold Shared.failed_turn. split.
  - rewrite history_rolled_back, history_appended by exact Ha. apply removelast_last.
  - rewrite !add_message_widgets. reflexivity.
Qed.

Lemma answered_turn_counts (q a : text) (s : Shared.state) :
  Shared.allocated s ->
  Shared.history (Shared.answered_turn q a s)
  = Shared.history s ++ [Shared.new_message User q (Shared.parent_filename s);
                         Shared.new_message Assistant a (Shared.parent_filename s)] /\
  Shared.message_widgets (Shared.answered_turn q a s) = S (S (Shared.message_widgets s)).
Proof.
  intros Ha. unfold Shared.answered_turn. split.
  - rewrite history_appended by (apply add_message_allocated, Ha).
    rewrite history_appended by exact Ha.
    rewrite add_message_filename, <- app_assoc. reflexivity.
  - rewrite !add_message_widgets. reflexivity.
Qed.

(** X15. [clear_messages_after] cuts the history at an index counted on the
    message widgets.  As long as every widget stands for one message of the
    history (which adding messages, clearing and [clear_conversation] keep),
    clearing at index [i] leaves the first [i] messages, and regenerating
    the last answer removes it from the history.  A failed turn adds two
    widgets, the question and the error message, and no message: from then
    on the indices are two too large, and regenerating the last answer
    removes its widget but leaves the answer in the history. *)
Theorem widgets_index_the_history (s : Shared.state) :
  Shared.allocated s -> Shared.in_step s ->
  (forall r content, Shared.in_step (Shared.add_message r content false s)) /\
  (forall i, Shared.in_step (Shared.clear_messages_after i s) /\
             Shared.history (Shared.clear_messages_after i s)
             = firstn i (Shared.history s)) /\
  Shared.in_step (Shared.clear_conversation s) /\
  (forall q a,
      let t := Shared.answered_turn q a s in
      Shared.history (Shared.clear_messages_after (Shared.message_widgets t - 1) t)
      = Shared.history s ++ [Shared.new_message User q (Shared.parent_filename s)]) /\
  (forall q e q2 a,
      let f := Shared.failed_turn q e s in
      let t := Shared.answered_turn q2 a f in
      Shared.message_widgets f = (length (Shared.history f) + 2)%nat /\
      Shared.message_widgets (Shared.clear_messages_after (Shared.message_widgets t - 1) t)
      = (Shared.message_widgets t - 1)%nat /\
      Shared.history (Shared.clear_messages_after (Shared.message_widgets t - 1) t)
      = Shared.history t).
Proof.
  intros Ha Hs. unfold Shared.in_step in *.
  split; [| split; [| split; [| split]]].
  - intros r content. rewrite add_message_widgets, history_appended by exact Ha.
    rewrite length_app. cbn. lia.
  - intros i. rewrite clear_messages_after_widgets, clear_messages_after_history.
    destruct (i <? Shared.message_widgets s)%nat eqn:E.
    + apply Nat.ltb_lt in E. rewrite length_firstn. split; [lia | reflexivity].
    + apply Nat.ltb_ge in E. split; [lia |].
      rewrite firstn_all2 by lia. reflexivity.
  - unfold Shared.clear_conversation.
    destruct (Shared.has_filename s); unfold Shared.history, Shared.the_list; cbn;
      rewrite lookup_appended; reflexivity.
  - intros q a. set (t := Shared.answered_turn q a s).
    destruct (answered_turn_counts q a s Ha) as [Hh Hw]. fold t in Hh, Hw.
    rewrite clear_messages_after_history, Hw, Hh.
    replace (S (S (Shared.message_widgets s)) - 1)%nat
      with (S (Shared.message_widgets s)) by lia.
    rewrite (proj2 (Nat.ltb_lt _ _)) by lia.
    rewrite Hs.
    change [Shared.new_message User q (Shared.parent_filename s);
            Shared.new_message Assistant a (Shared.parent_filename s)]
      with ([Shared.new_message User q (Shared.parent_filename s)]
            ++ [Shared.new_message Assistant a (Shared.parent_filename s)]).
    rewrite app_assoc.
    rewrite firstn_app.
    match goal with
    | |- context [(S (length ?h) - length (?h ++ [?m]))%nat] =>
        replace (S (length h) - length (h ++ [m]))%nat with 0%nat
          by (rewrite length_app; cbn; lia)
    end.
    rewrite firstn_all2 by (rewrite length_app; cbn; lia).
    cbn. apply List.app_nil_r.
  - intros q e q2 a. set (f := Shared.failed_turn q e s).
    set (t := Shared.answered_turn q2 a f).
    destruct (failed_turn_counts q e s Ha) as [Hfh Hfw]. fold f in Hfh, Hfw.
    assert (Hfa : Shared.allocated f).
    { apply add_message_allocated, add_message_allocated, Ha. }
    destruct (answered_turn_counts q2 a f Hfa) as [Hh Hw]. fold t in Hh, Hw.
    split; [rewrite Hfw, Hfh; lia |].
    rewrite clear_messages_after_widgets, clear_messages_after_history.
    rewrite Hw, Hfw.
    split; [lia |].
    rewrite (proj2 (Nat.ltb_lt _ _)) by lia.
    apply firstn_all2. rewrite Hh, length_app, Hfh. cbn. lia.
Qed.

Lemma widgets_index_the_history_witness :
  Shared.history
    (Shared.clear_messages_after 3
       (Shared.answered_turn (py "again") (py "a dog")
          (Shared.failed_turn (py "what is this?") (py "timeout") sample_state)))
  = [user_says "again"; assistant_says "a dog"].
Proof.
  pose proof (proj2 (proj2 (proj2 (proj2
                (widgets_index_the_history sample_state
                   ltac:(split; [repeat constructor | exact I]) eq_refl))))
                (py "what is this?") (py "timeout") (py "again") (py "a dog")) as H.
  cbv zeta in H. destruct H as (_ & _ & H). 
  change (Shared.message_widgets
            (Shared.answered_turn (py "again") (py "a dog")
               (Shared.failed_turn (py "what is this?") (py "timeout") sample_state)) - 1)%nat
    with 3%nat in H.
  rewrite H. reflexivity.
Defined.

(** ** Going through the images *)

Lemma getitem_In {A} (l : list A) (i : Z) (x : A) : getitem l i = Some x -> In x l.
Proof.
  unfold getitem.
  destruct (0 <=? i)%Z; [apply nth_error_In |].
  destruct (- Z.of_nat (length l) <=? i)%Z; [apply nth_error_In | discriminate].
Qed.

Lemma getitem_nat {A} (l : list A) (n : nat) : getitem l (Z.of_nat n) = nth_error l n.
Proof.
  unfold getitem. rewrite (proj2 (Z.leb_le _ _)) by lia. rewrite Nat2Z.id. reflexivity.
Qed.

Lemma list_index_first (p rest : list text) (f : text) :
  ~ In f p -> list_index f (p ++ f :: rest) = Some (length p).
Proof.
  induction p as [| y p IH]; intros Hp; cbn [app list_index length].
  - rewrite text_eqb_refl. reflexivity.
  - destruct (text_eqb f y) eqn:E.
    + exfalso. apply Hp. left. symmetry. apply text_eqb_eq, E.
    + rewrite IH by (intros K; apply Hp; right; exact K). reflexivity.
Qed.

Lemma list_index_none (l : list text) (f : text) :
  ~ In f l -> list_index f l = None.
Proof.
  induction l as [| y l IH]; intros Hl; cbn [list_index]; [reflexivity |].
  destruct (text_eqb f y) eqn:E.
  - exfalso. apply Hl. left. symmetry. apply text_eqb_eq, E.
  - rewrite IH by (intros K; apply Hl; right; exact K). reflexivity.
Qed.

Lemma nth_error_middle {A} (p rest : list A) (x : A) :
  nth_error (p ++ x :: rest) (length p) = Some x.
Proof. induction p as [| y p IH]; [reflexivity | exact IH]. Qed.

Lemma is_empty_middle {A} (p rest : list A) (x : A) : is_empty (p ++ x :: rest) = false.
Proof. destruct p; reflexivity. Qed.

(** The file after the first occurrence of the current one. *)
Lemma navigate_next (p rest : list text) (f g : text) :
  ~ In f p ->
  navigate_image (p ++ f :: g :: rest) (Some f) (py "next") None = Some g.
Proof.
  intros Hp. unfold navigate_image.
  rewrite is_empty_middle, list_index_first by exact Hp.
  change (text_eqb (py "next") (py "prev")) with false.
  change (text_eqb (py "next") (py "next")) with true.
  cbn [andb].
  rewrite (proj2 (Nat.ltb_lt _ _)) by (rewrite length_app; cbn; lia).
  replace (Z.of_nat (length p) + 1)%Z with (Z.of_nat (length (p ++ [f]))) 
    by (rewrite length_app; cbn; lia).
  rewrite getitem_nat.
  change (p ++ f :: g :: rest) with (p ++ [f] ++ g :: rest). rewrite app_assoc.
  apply nth_error_middle.
Qed.

(** The file before the first occurrence of the current one. *)
Lemma navigate_prev (p rest : list text) (f g : text) :
  ~ In g (p ++ [f]) ->
  navigate_image (p ++ f :: g :: rest) (Some g) (py "prev") None = Some f.
Proof.
  intros Hp. unfold navigate_image.
  rewrite is_empty_middle.
  change (p ++ f :: g :: rest) with (p ++ [f] ++ g :: rest). rewrite app_assoc.
  rewrite list_index_first by exact Hp.
  change (text_eqb (py "prev") (py "prev")) with true.
  rewrite (proj2 (Nat.ltb_lt _ _)) by (rewrite length_app; cbn; lia).
  cbn [andb].
  replace (Z.of_nat (length (p ++ [f])) - 1)%Z with (Z.of_nat (length p))
    by (rewrite length_app; cbn; lia).
  rewrite getitem_nat, <- app_assoc. apply nth_error_middle.
Qed.

Lemma NoDup_middle (p rest : list text) (f : text) :
  NoDup (p ++ f :: rest) -> ~ In f p /\ ~ In f rest.
Proof.
  intros H. apply NoDup_remove_2 in H. split; intros K; apply H, in_or_app; auto.
Qed.

Lemma list_index_split (l : list text) (f : text) (i : nat) :
  list_index f l = Some i ->
  exists p rest, l = p ++ f :: rest /\ length p = i /\ ~ In f p.
Proof.
  revert i. induction l as [| y l IH]; intros i H; [discriminate |].
  cbn [list_index] in H. destruct (text_eqb f y) eqn:E.
  - inversion H; subst. apply text_eqb_eq in E. subst y.
    exists [], l. repeat split. intros [].
  - destruct (list_index f l) as [j |] eqn:Ej; [| discriminate].
    inversion H; subst.
    destruct (IH j eq_refl) as (p & rest & -> & Hlen & Hp).
    exists (y :: p), rest. cbn. repeat split; [congruence |].
    intros [K | K]; [| exact (Hp K)].
    subst y. rewrite text_eqb_refl in E. discriminate.
Qed.


(** ** Exporting and importing a dataset *)

Lemma export_messages_from (history : list message) (name : text)
      (messages : list json) (images : list text) :
  export_messages (map message_json history) name messages images
  = Some (messages ++ map exported_message history,
          if existsb shows_image history
             && negb (existsb (text_eqb (py "images/" ++ name)) images)
          then images ++ [py "images/" ++ name] else images).
Proof.
  revert messages images. induction history as [| m history IH]; intros messages images.
  - cbn. rewrite List.app_nil_r. reflexivity.
  - cbn [map existsb]. unfold message_json at 1. cbn [export_messages].
    rewrite IH. f_equal. f_equal.
    + rewrite <- app_assoc. reflexivity.
    + change (get_default "image" JNull _)
        with (match msg_image m with Some i => JStr i | None => JNull end).
      assert (Ht : truthy (match msg_image m with Some i => JStr i | None => JNull end)
                   = shows_image m).
      { unfold shows_image. destruct (msg_image m) as [[| c i] |]; reflexivity. }
      rewrite Ht.
      destruct (shows_image m); cbn [andb orb].
      * destruct (existsb (text_eqb (py "images/" ++ name)) images) eqn:E;
          cbn [negb andb]; rewrite ?E; cbn [negb andb].
        -- rewrite andb_false_r. reflexivity.
        -- rewrite existsb_app, E. cbn [existsb orb]. rewrite text_eqb_refl.
           cbn [negb orb]. rewrite andb_false_r. reflexivity.
      * reflexivity.
Qed.

Lemma import_step (r c local : text) (rest : list json) :
  import_chat_history (JObj [(py "role", JStr r); (py "content", JStr c)] :: rest) local
  = match import_chat_history rest local with
    | Some chat_history =>
        Some (JObj [(py "role", JStr r); (py "content", JStr c);
                    (py "image",
                     if text_eqb r (py "user") && contains (py "<image>") c
                     then JStr local else JNull)]
              :: chat_history)
    | None => None
    end.
Proof.
  cbn [import_chat_history].
  change (get_default "role" (JStr []) [(py "role", JStr r); (py "content", JStr c)])
    with (JStr r).
  change (get_default "content" (JStr []) [(py "role", JStr r); (py "content", JStr c)])
    with (JStr c).
  cbn [is_str py_in].
  destruct (text_eqb r (py "user")); cbn [andb];
    [destruct (contains (py "<image>") c) |];
    destruct (import_chat_history rest local); reflexivity.
Qed.

Lemma import_exported (history : list message) (local : text) :
  import_chat_history (map exported_message history) local
  = Some (map message_json (map (reattached local) history)).
Proof.
  induction history as [| m history IH]; [reflexivity |].
  cbn [map]. unfold exported_message at 1. rewrite import_step, IH.
  f_equal. f_equal.
  destruct m as [[] content image]; try reflexivity.
  unfold reattached, message_json. cbn [msg_role msg_content msg_image role_name].
  change (text_eqb (py "user") (py "user")) with true. cbn [andb].
  destruct (contains (py "<image>") content); reflexivity.
Qed.

(** X17. [export_dataset] keeps the role and the content of every message
    of a chat, in order, and lists the image of the label file once if some
    message shows an image, and not at all otherwise.  [import_dataset]
    makes of the exported messages the same roles and contents, with the
    local image attached to exactly the user messages that hold the
    [<image>] tag: a history that [add_message] made for that image comes
    back unchanged.  A record without image is not imported. *)
Theorem export_then_import (history : list message) (name local : text) :
  export_messages (map message_json history) name [] []
  = Some (map exported_message history,
          if existsb shows_image history then [py "images/" ++ name] else []) /\
  import_chat_history (map exported_message history) local
  = Some (map message_json (map (reattached local) history)) /\
  (forall d r content,
      filename d = Some local ->
      map (reattached local) (chat_history d) = chat_history d ->
      map (reattached local) (chat_history (add_message r content false d))
      = chat_history (add_message r content false d)) /\
  imported (JArr (map exported_message history))
    (JArr (map JStr (if existsb shows_image history then [py "images/" ++ name] else [])))
  = existsb shows_image history.
Proof.
  split; [| split; [| split]].
  - rewrite export_messages_from. cbn [existsb negb app]. rewrite andb_true_r.
    reflexivity.
  - apply import_exported.
  - intros d r content Hf Hd. unfold add_message.
    destruct r.
    + cbv beta iota zeta. cbn [chat_history]. rewrite map_app, Hd. reflexivity.
    + destruct (contains (py "@image") content || contains (py "<image>") content) eqn:E;
        cbv beta iota zeta; cbn [chat_history]; rewrite map_app, Hd; cbn [map];
        unfold reattached; cbn [msg_role msg_content msg_image].
      * change (py "<image>") with image_tag in *.
        change (py "@image") with image_token in *.
        rewrite tag_survives_strip, sub_has_tag by exact E. rewrite Hf. reflexivity.
      * apply orb_false_elim in E as [_ E]. rewrite E. reflexivity.
    + cbv beta iota zeta. cbn [chat_history]. rewrite map_app, Hd. reflexivity.
  - unfold imported. destruct history as [| m history]; [reflexivity |].
    destruct (existsb shows_image (m :: history)); reflexivity.
Qed.

(** ** The entries of the JSONL file *)

Lemma replace_entry_result (existing : list json) (image_name : text) (entry : json) :
  forallb is_object existing = true ->
  entry_of image_name entry = true ->
  exists entries found,
    replace_entry existing image_name entry = Some (entries, found) /\
    found = existsb (entry_of image_name) existing /\
    filter (fun e => negb (entry_of image_name e)) entries
    = filter (fun e => negb (entry_of image_name e)) existing /\
    (found = true ->
     find (entry_of image_name) entries = Some entry /\
     length (filter (entry_of image_name) entries)
     = length (filter (entry_of image_name) existing) /\
     replace_entry entries image_name entry = Some (entries, true)).
Proof.
  intros Hobj Hentry.
  assert (Hself : is_entry_of image_name entry = Some true).
  { unfold entry_of in Hentry.
    destruct (is_entry_of image_name entry) as [[] |]; congruence. }
  induction existing as [| e existing IH].
  - exists [], false. repeat split; discriminate.
  - cbn [forallb] in Hobj. apply andb_prop in Hobj as [He Hobj].
    destruct (IH Hobj) as (entries & found & Hr & Hfound & Hother & Hsame).
    destruct e as [| | | | | d]; try discriminate.
    assert (Hd : is_entry_of image_name (JObj d)
                 = Some (entry_of image_name (JObj d))) by reflexivity.
    cbn [replace_entry existsb filter]. rewrite Hd.
    destruct (entry_of image_name (JObj d)) eqn:E; cbn [orb negb].
    + exists (entry :: existing), true.
      split; [reflexivity |]. split; [reflexivity |].
      split; [cbn [filter]; rewrite Hentry; reflexivity |].
      intros _. cbn [find filter replace_entry]. rewrite Hentry, Hself.
      repeat split; reflexivity.
    + rewrite Hr. exists (JObj d :: entries), found.
      split; [reflexivity |]. split; [exact Hfound |].
      split; [cbn [filter]; rewrite E, Hother; reflexivity |].
      intros Hf. destruct (Hsame Hf) as (K1 & K2 & K3).
      cbn [find filter replace_entry]. rewrite Hd, E, K3. repeat split; assumption.
Qed.

Lemma filter_none {A} (p : A -> bool) (l : list A) :
  existsb p l = false -> filter p l = [].
Proof.
  induction l as [| x l IH]; [reflexivity |]. cbn.
  destruct (p x); [discriminate | exact IH].
Qed.

Lemma replace_entry_unfound (existing : list json) (image_name : text) (entry : json)
      (entries : list json) :
  replace_entry existing image_name entry = Some (entries, false) -> entries = existing.
Proof.
  revert entries. induction existing as [| e existing IH]; intros entries H.
  - inversion H. reflexivity.
  - cbn [replace_entry] in H.
    destruct (is_entry_of image_name e) as [[] |]; try discriminate.
    destruct (replace_entry existing image_name entry) as [[l found] |]; [| discriminate].
    inversion H; subst. f_equal. apply IH. reflexivity.
Qed.

Lemma replace_entry_app (existing : list json) (image_name : text) (entry : json)
      (more : list json) :
  replace_entry existing image_name entry = Some (existing, false) ->
  replace_entry (existing ++ more) image_name entry
  = match replace_entry more image_name entry with
    | Some (entries, found) => Some (existing ++ entries, found)
    | None => None
    end.
Proof.
  induction existing as [| e existing IH]; intros H.
  - cbn [app]. destruct (replace_entry more image_name entry) as [[l f] |]; reflexivity.
  - cbn [replace_entry app] in *.
    destruct (is_entry_of image_name e) as [[] |]; try discriminate.
    destruct (replace_entry existing image_name entry) as [[l found] |] eqn:E;
      [| discriminate].
    inversion H; subst. rewrite IH by reflexivity.
    destruct (replace_entry more image_name entry) as [[l2 f2] |]; reflexivity.
Qed.

(** X18. Updating the JSONL file with the entry of an image, when the
    entries read are all objects: the first entry of that image is replaced
    in place, or the entry is added at the end if the image has none; every
    entry of another image stays where it was; the image has as many
    entries as before, or one; and updating again with the same entry
    changes nothing.  The entries read are those of the lines before the
    first line that is not a JSON document: the lines after it are not
    read, and are lost when the file is written back. *)
Theorem entry_update_is_in_place (existing : list json) (image_name : text)
  (conversations : list json) :
  forallb is_object existing = true ->
  let entry := vlm_r1_ovd_entry image_name conversations in
  (exists updated,
      updated_entries existing image_name entry = Some updated /\
      find (entry_of image_name) updated = Some entry /\
      filter (fun e => negb (entry_of image_name e)) updated
      = filter (fun e => negb (entry_of image_name e)) existing /\
      length (filter (entry_of image_name) updated)
      = Nat.max 1 (length (filter (entry_of image_name) existing)) /\
      (existsb (entry_of image_name) existing = false -> updated = existing ++ [entry]) /\
      updated_entries updated image_name entry = Some updated) /\
  (forall good bad rest,
      read_entries good = existing ->
      is_empty (strip bad) = false ->
      json_loads (strip bad) = Raise JSONDecodeError ->
      read_entries (good ++ bad :: rest) = existing).
Proof.
  intros Hobj entry.
  assert (Hentry : entry_of image_name entry = true).
  { unfold entry, vlm_r1_ovd_entry, entry_of, is_entry_of.
    change (get_default "image" JNull _) with (JStr image_name).
    cbn [is_str]. apply text_eqb_refl. }
  split.
  - destruct (replace_entry_result existing image_name entry Hobj Hentry)
      as (entries & found & Hr & Hfound & Hother & Hsame).
    unfold updated_entries. rewrite Hr. destruct found.
    + destruct (Hsame eq_refl) as (K1 & K2 & K3).
      exists entries. split; [reflexivity |]. split; [exact K1 |].
      split; [exact Hother |]. split.
      { rewrite K2.
        destruct (filter (entry_of image_name) existing) as [| x l] eqn:Ef; [| cbn; lia].
        exfalso. symmetry in Hfound. apply existsb_exists in Hfound as (x & Hin & Hx).
        assert (K : In x (filter (entry_of image_name) existing))
          by (apply filter_In; auto).
        rewrite Ef in K. exact K. }
      split; [intros K; rewrite K in Hfound; discriminate |].
      rewrite K3. reflexivity.
    + pose proof (replace_entry_unfound _ _ _ _ Hr) as ->.
      exists (existing ++ [entry]). split; [reflexivity |].
      symmetry in Hfound.
      split.
      { clear - Hfound Hentry. induction existing as [| x l IH].
        - cbn [app find]. rewrite Hentry. reflexivity.
        - cbn [app find existsb] in *.
          destruct (entry_of image_name x); [discriminate | auto]. }
      split.
      { rewrite filter_app. cbn [filter]. rewrite Hentry. cbn [negb].
        apply List.app_nil_r. }
      split.
      { rewrite filter_app, length_app, (filter_none _ _ Hfound).
        cbn [filter]. rewrite Hentry. reflexivity. }
      split; [reflexivity |].
      rewrite (replace_entry_app _ _ _ [entry] Hr).
      cbn [replace_entry]. unfold entry_of in Hentry.
      destruct (is_entry_of image_name entry) as [[] |]; try discriminate.
      reflexivity.
  - intros good bad rest Hgood Hne Hbad. rewrite <- Hgood.
    clear Hgood Hobj. induction good as [| line good IH].
    + cbn [app read_entries]. rewrite Hne, Hbad. reflexivity.
    + cbn [app read_entries].
      destruct (is_empty (strip line)); [exact IH |].
      destruct (json_loads (strip line)) as [v | e]; [| reflexivity].
      rewrite IH. reflexivity.
Qed.

Lemma entry_update_is_in_place_witness :
  forallb is_object [vlm_r1_ovd_entry (py "a.png") []; vlm_r1_ovd_entry (py "b.png") []]
  = true /\
  exists updated,
    updated_entries [vlm_r1_ovd_entry (py "a.png") []; vlm_r1_ovd_entry (py "b.png") []]
      (py "a.png") (vlm_r1_ovd_entry (py "a.png") [JNull])
    = Some updated /\
    find (entry_of (py "a.png")) updated = Some (vlm_r1_ovd_entry (py "a.png") [JNull]).
Proof.
  split; [reflexivity |].
  destruct (proj1 (entry_update_is_in_place
                     [vlm_r1_ovd_entry (py "a.png") []; vlm_r1_ovd_entry (py "b.png") []]
                     (py "a.png") [JNull] eq_refl))
    as (updated & H1 & H2 & _).
  exists updated. split; assumption.
Defined.

(** ** The answer that is converted *)

Lemma conversation_of_message (m : message) :
  conversation_of (message_json m)
  = Some (JObj [(py "from",
                 JStr (match msg_role m with
                       | System => py "system"
                       | User => py "human"
                       | Assistant => py "assistant"
                       end));
                (py "value", JStr (msg_content m))]).
Proof. destruct m as [[] content image]; reflexivity. Qed.

(** X19. The entry of an image holds one conversation for each message of
    the chat history, in order, [user] becoming [human]; and the answer the
    converters take from the entry is the content of the first message of
    the assistant, whatever follows it: a later answer of the same chat is
    never converted. *)
Theorem first_answer_is_converted (history : list message) :
  exists conversations,
    conversations_of (map message_json history) = Some conversations /\
    length conversations = length history /\
    assistant_content conversations = Some (JStr (first_answer_of history)) /\
    (forall before m after,
        history = before ++ m :: after ->
        msg_role m = Assistant ->
        Forall (fun x => msg_role x <> Assistant) before ->
        assistant_content conversations = Some (JStr (msg_content m))).
Proof.
  assert (H : exists conversations,
             conversations_of (map message_json history) = Some conversations /\
             length conversations = length history /\
             assistant_content conversations = Some (JStr (first_answer_of history))).
  { induction history as [| m history (conversations & H1 & H2 & H3)].
    - exists []. repeat split.
    - cbn [map conversations_of]. rewrite conversation_of_message, H1.
      eexists. split; [reflexivity |]. split; [cbn; congruence |].
      unfold first_answer_of in *. cbn [find assistant_content].
      destruct m as [[] content image]; cbn [msg_role msg_content];
        first [exact H3 | reflexivity]. }
  destruct H as (conversations & H1 & H2 & H3).
  exists conversations. repeat split; try assumption.
  intros before m after -> Hm Hbefore. rewrite H3. do 2 f_equal.
  unfold first_answer_of. clear - Hm Hbefore.
  induction Hbefore as [| x before Hx Hb IH]; cbn [app find].
  - rewrite Hm. reflexivity.
  - destruct (msg_role x); [exact IH | exact IH | congruence].
Qed.

(** ** Answers in a fenced block or in an answer tag *)

Lemma scan_keyword_token (s r : text) (t : token) :
  scan_keyword s = Some (t, r) -> t <> TLBrack /\ t <> TLBrace.
Proof.
  unfold scan_keyword.
  repeat match goal with
         | |- (if ?b then _ else _) = _ -> _ => destruct b
         | |- Some _ = Some _ -> _ => intros H; inversion H; subst; split; discriminate
         | |- None = Some _ -> _ => discriminate
         end.
  destruct (scan_number s) as [[n r'] |].
  - intros H; inversion H; subst; split; discriminate.
  - repeat match goal with
           | |- (if ?b then _ else _) = _ -> _ => destruct b
           | |- Some _ = Some _ -> _ => intros H; inversion H; subst; split; discriminate
           | |- None = Some _ -> _ => discriminate
           end.
Qed.

(** The first token is an opening bracket or brace only if the text opens
    a container. *)
Lemma tokenize_first (f : nat) :
  forall (s : text) (t : token) (ts : list token),
    tokenize f s = Some (t :: ts) -> t = TLBrack \/ t = TLBrace ->
    opens_container s = true.
Proof.
  induction f as [| f IH]; intros s t ts H Ht; [discriminate |].
  destruct s as [| c s1]; [discriminate |].
  cbn [tokenize opens_container] in *.
  destruct (is_json_ws c); [eapply IH; eassumption |].
  destruct (c =? 123) eqn:E123; [apply orb_true_r |].
  destruct (c =? 125).
  { destruct (tokenize f s1); inversion H; subst. destruct Ht; discriminate. }
  destruct (c =? 91) eqn:E91; [reflexivity |].
  exfalso.
  repeat match type of H with
         | (if ?b then _ else _) = _ => destruct b
         | map_tokens _ ?o = _ =>
             destruct o; inversion H; subst; destruct Ht; discriminate
         end.
  - destruct (scanstring s1) as [[str r] |]; [| discriminate].
    destruct (tokenize f r); inversion H; subst. destruct Ht; discriminate.
  - destruct (scan_keyword (c :: s1)) as [[t' r] |] eqn:Ek; [| discriminate].
    apply scan_keyword_token in Ek as [K1 K2].
    destruct (tokenize f r); inversion H; subst. destruct Ht; congruence.
Qed.

Lemma parse_first (f : nat) (ts : list token) (v : json) (r : list token) :
  parse_value f ts = Some (v, r) ->
  match v with JArr _ | JObj _ => True | _ => False end ->
  exists t ts', ts = t :: ts' /\ (t = TLBrack \/ t = TLBrace).
Proof.
  destruct f as [| f]; [discriminate |]. cbn [parse_value].
  destruct ts as [| t ts']; [discriminate |].
  destruct t; intros H Hv; try (inversion H; subst; contradiction); eauto; discriminate.
Qed.

(** A text that does not open a container holds no detection as a whole. *)
Lemma stage1_without_container (s : text) :
  opens_container s = false -> stage1 s = Ok [].
Proof.
  intros Hs. unfold stage1, try_loads.
  destruct (json_loads s) as [v | e] eqn:E.
  - cbn. f_equal. unfold json_loads in E.
    destruct (tokenize (S (length s)) s) as [ts |] eqn:Et; [| discriminate].
    destruct (parse_value (2 * length ts + 2) ts) as [[v' [| t r]] |] eqn:Ep;
      try discriminate.
    inversion E; subst v'.
    destruct v; try reflexivity.
    + destruct (parse_first _ _ _ _ Ep I) as (t & ts' & -> & Ht).
      rewrite (tokenize_first _ _ _ _ Et Ht) in Hs. discriminate.
    + destruct (parse_first _ _ _ _ Ep I) as (t & ts' & -> & Ht).
      rewrite (tokenize_first _ _ _ _ Et Ht) in Hs. discriminate.
  - apply json_loads_raises in E. subst e. reflexivity.
Qed.

Lemma opens_container_app (a b : text) (c : N) :
  is_json_ws c = false ->
  opens_container (a ++ c :: b) = opens_container (a ++ [c]).
Proof.
  intros Hc. induction a as [| x a IH]; cbn [app opens_container].
  - rewrite Hc. reflexivity.
  - destruct (is_json_ws x); [exact IH | reflexivity].
Qed.

(** A repetition fails when its continuation refuses every place it can
    stop at. *)
Lemma rep_none {R} (greedy : bool) (p : N -> bool) (s : text) (k : text -> option R) :
  (forall a b, s = a ++ b -> Forall (fun c => p c = true) a -> k b = None) ->
  rep greedy p s k = None.
Proof.
  induction s as [| c s IH]; intros Hk; cbn [rep].
  - apply (Hk [] []); [reflexivity | constructor].
  - assert (Hhere : k (c :: s) = None) by (apply (Hk []); [reflexivity | constructor]).
    destruct (p c) eqn:Hc; [| exact Hhere].
    assert (Hrest : rep greedy p s k = None).
    { apply IH. intros a b -> Ha. apply (Hk (c :: a)); [reflexivity |].
      constructor; assumption. }
    destruct greedy; rewrite Hrest, Hhere; reflexivity.
Qed.

Lemma last_app_cons {A} (a b : list A) (x d : A) : last (a ++ x :: b) d = last (x :: b) d.
Proof.
  induction a as [| y a IH]; [reflexivity |].
  cbn [app]. rewrite <- IH. destruct (a ++ x :: b) eqn:E; [| reflexivity].
  destruct a; discriminate.
Qed.

(** White space taken from the head of a text that does not end with
    white space leaves some of it. *)
Lemma space_prefix_leaves (l rest a b : text) :
  l <> [] -> is_space (last l 0) = false ->
  l ++ rest = a ++ b -> Forall (fun c => is_space c = true) a ->
  exists t' a', b = t' ++ rest /\ t' <> [] /\ l = a' ++ t'.
Proof.
  revert a. induction l as [| x l IH]; intros a Hne Hlast Hab Ha; [congruence |].
  destruct a as [| y a].
  - exists (x :: l), []. cbn in Hab. repeat split; [symmetry; exact Hab | discriminate].
  - cbn [app] in Hab. injection Hab as <- Hab. inversion Ha; subst.
    destruct l as [| x2 l].
    + cbn in Hlast. congruence.
    + destruct (IH a) as (t' & a' & Hb & Ht & Hl);
        [discriminate | exact Hlast | exact Hab | assumption |].
      exists t', (x :: a'). rewrite Hl. repeat split; assumption.
Qed.

Section Answers.

Variable unicode_alnum : N -> bool.
Variable unicode_decimal : N -> option N.

Local Abbreviation is_word := (is_word unicode_alnum).
Local Abbreviation extract := (extract_bbox_data unicode_alnum unicode_decimal).

(** Inside a body without backquote that does not end with white space,
    the closing part of the pattern (white space, fence) matches nowhere. *)
Lemma no_close_before_end {R} (body rest : text) (k : text -> text -> option R) :
  Forall (fun c => c <> 96) body ->
  (body <> [] -> is_space (last body 0) = false) ->
  (forall stop c s, c <> 96 -> k stop (c :: s) = None) ->
  all_tails (fun t => rep true is_space (t ++ rest) (k (t ++ rest)) = None) body.
Proof.
  intros Hbody Hlast Hk. induction Hbody as [| c body Hc Hbody IH]; [exact I |].
  split.
  - apply rep_none. intros a b Hab Ha.
    destruct (space_prefix_leaves (c :: body) rest a b) as (t' & a' & -> & Hne & Hl);
      [discriminate | apply Hlast; discriminate | exact Hab | exact Ha |].
    assert (Ht' : Forall (fun x => x <> 96) t').
    { assert (Hall : Forall (fun x => x <> 96) (c :: body)) by (constructor; assumption).
      rewrite Hl in Hall. apply Forall_app in Hall as [_ Hall]. exact Hall. }
    destruct Ht' as [| x t' Hx Ht']; [congruence |]. apply Hk, Hx.
  - apply IH. intros Hne. specialize (Hlast ltac:(discriminate)).
    destruct body as [| x body]; [congruence |]. exact Hlast.
Qed.

Lemma fits_block_parts (body : text) :
  fits_block unicode_alnum body = true ->
  stops_at is_word body /\ stops_at is_space body /\ body <> [] /\
  is_space (last body 0) = false /\ Forall (fun c => c <> 96) body.
Proof.
  unfold fits_block. intros H.
  apply andb_prop in H as [H H3]. apply andb_prop in H as [H1 H2].
  destruct body as [| c body]; [discriminate |].
  apply andb_prop in H1 as [Hw Hs].
  apply negb_true_iff in Hw, Hs, H2.
  repeat split; try assumption; try discriminate.
  apply Forall_forall. intros x Hx. rewrite forallb_forall in H3.
  specialize (H3 x Hx). apply negb_true_iff, N.eqb_neq in H3. exact H3.
Qed.

(** The pattern of code blocks, at a fence, captures the body of the
    block. *)
Lemma code_block_body (lang ws1 body ws2 after : text) :
  Forall (fun c => is_word c = true) lang ->
  Forall (fun c => is_space c = true) ws1 ->
  fits_block unicode_alnum body = true ->
  Forall (fun c => is_space c = true) ws2 ->
  match_here (code_block_pattern unicode_alnum)
    (fence ++ lang ++ ws1 ++ body ++ ws2 ++ fence ++ after)
  = Some (after, [body]).
Proof.
  intros Hlang Hws1 Hbody Hws2.
  destruct (fits_block_parts body Hbody) as (Hw & Hs & Hne & Hlast & Hq).
  unfold match_here, code_block_pattern. cbn [rmatch].
  rewrite starts_with_app, skipn_length_app.
  apply tag_and_space; try assumption.
  { destruct body; [congruence | exact Hw]. }
  { destruct body; [congruence | exact Hs]. }
  apply rep_lazy_run.
  - apply Forall_forall. reflexivity.
  - apply (no_close_before_end body (ws2 ++ fence ++ after)
             (fun stop s'' =>
                if starts_with fence s''
                then Some (skipn (length fence) s'',
                           [] ++ [firstn (length (body ++ ws2 ++ fence ++ after)
                                          - length stop)
                                    (body ++ ws2 ++ fence ++ after)])
                else None)); [exact Hq | intros _; exact Hlast |].
    intros stop c s Hc. rewrite no_fence_at by exact Hc. reflexivity.
  - erewrite rep_greedy_run; [reflexivity | exact Hws2 | reflexivity |].
    rewrite starts_with_app, skipn_length_app.
    rewrite (firstn_length_diff body (ws2 ++ fence ++ after)).
    reflexivity.
Qed.

(** X20. An answer that holds a fenced block (a fence, an optional
    language tag, white space, a JSON document, white space, a fence)
    between any prose gives the detections of that document, for every
    document that begins with neither a word character nor white space,
    does not end with white space and holds no backquote, as long as the
    answer as a whole does not begin with a bracket or brace and no fence
    opens in the prose before the block.  What follows the block plays no
    part. *)
Theorem fenced_document_is_extracted (before lang ws1 body ws2 after : text)
  (data : json) :
  opens_container (before ++ fence) = false ->
  opens_no_fence before = true ->
  forallb is_word lang = true ->
  forallb is_space ws1 = true ->
  fits_block unicode_alnum body = true ->
  forallb is_space ws2 = true ->
  json_loads body = Ok data ->
  let answer := before ++ fenced lang ws1 body ws2 ++ after in
  stage1 answer = Ok [] /\
  stage2 unicode_alnum answer = Ok (collect data) /\
  (collect data <> [] -> extract answer = Ok (collect data)).
Proof.
  intros Hopen Hbefore Hlang Hws1 Hbody Hws2 Hdata answer.
  rewrite forallb_forall, <- Forall_forall in Hlang, Hws1, Hws2.
  assert (Hanswer : answer
                    = before ++ fence ++ lang ++ ws1 ++ body ++ ws2 ++ fence ++ after).
  { unfold answer, fenced. rewrite <- !app_assoc. reflexivity. }
  assert (H1 : stage1 answer = Ok []).
  { apply stage1_without_container. rewrite Hanswer, fence_chars in *.
    cbn [app] in *. rewrite opens_container_app by reflexivity.
    rewrite <- Hopen. symmetry.
    change (before ++ [96; 96; 96]) with (before ++ 96 :: [96; 96]).
    apply opens_container_app. reflexivity. }
  assert (H2 : stage2 unicode_alnum answer = Ok (collect data)).
  { unfold stage2, code_blocks. rewrite Hanswer.
    destruct (findall_first (code_block_pattern unicode_alnum) before
                (fence ++ lang ++ ws1 ++ body ++ ws2 ++ fence ++ after)
                after [body]) as [more ->].
    - eapply all_tails_impl;
        [| apply (no_fence_opens before
                    (lang ++ ws1 ++ body ++ ws2 ++ fence ++ after)), Hbefore].
      intros t Ht. unfold match_here, code_block_pattern. cbn [rmatch].
      rewrite Ht. reflexivity.
    - rewrite fence_chars. discriminate.
    - apply code_block_body; assumption.
    - cbn [map first_block]. unfold group1 at 1. cbn [nth].
      unfold try_loads. rewrite Hdata. reflexivity. }
  split; [exact H1 |]. split; [exact H2 |].
  intros Hne. unfold extract_bbox_data. rewrite H1. cbn. rewrite H2. cbn.
  destruct (collect data); [congruence | reflexivity].
Qed.

Lemma starts_with_enough (p x y : text) :
  (length p <= length x)%nat -> starts_with p (x ++ y) = starts_with p x.
Proof.
  revert x. induction p as [| c p IH]; intros x H; [reflexivity |].
  destruct x as [| d x]; [cbn in H; lia |].
  cbn [app starts_with]. rewrite IH by (cbn in H; lia). reflexivity.
Qed.

(** Where a text holds no occurrence of a tag, even one that its last
    character would complete, the tag that follows is the first. *)
Lemma no_tag_opens (p : text) (z : N) (a rest : text) :
  contains (p ++ [z]) (a ++ p) = false ->
  all_tails (fun t => starts_with (p ++ [z]) (t ++ (p ++ [z]) ++ rest) = false) a.
Proof.
  induction a as [| c a IH]; cbn [app contains all_tails]; intros H; [exact I |].
  apply orb_false_elim in H as [Hc H]. split; [| exact (IH H)].
  rewrite <- Hc.
  change (c :: a ++ (p ++ [z]) ++ rest) with ((c :: a) ++ (p ++ [z]) ++ rest).
  rewrite <- (app_assoc p), (app_assoc (c :: a) p).
  apply starts_with_enough. cbn [length]. rewrite !length_app. cbn [length]. lia.
Qed.

(** The pattern of answer tags, at an opening tag, captures the text up to
    the first closing tag. *)
Lemma answer_body (body after : text) :
  closes_no_answer body = true ->
  match_here answer_pattern (answer_open ++ body ++ answer_close ++ after)
  = Some (after, [body]).
Proof.
  intros Hbody. unfold closes_no_answer in Hbody. apply negb_true_iff in Hbody.
  unfold match_here, answer_pattern. cbn [rmatch].
  fold answer_open answer_close.
  rewrite starts_with_app, skipn_length_app.
  apply rep_lazy_run.
  - apply Forall_forall. reflexivity.
  - eapply all_tails_impl;
      [| apply (no_tag_opens (py "</answer") 62 body after), Hbody].
    intros t Ht. cbv beta.
    change (py "</answer" ++ [62]) with answer_close in Ht. rewrite Ht. reflexivity.
  - rewrite starts_with_app, skipn_length_app.
    rewrite (firstn_length_diff body (answer_close ++ after)). reflexivity.
Qed.

(** X21. An answer that holds [<answer>], a JSON document, [</answer>]
    between any prose gives the detections of that document, as long as
    the answer as a whole does not begin with a bracket or brace, holds no
    code fence, no opening tag starts in the prose before and no closing
    tag in the document.  What follows the closing tag plays no part, later
    answer tags included. *)
Theorem answer_tag_is_extracted (before body after : text) (data : json) :
  opens_container (before ++ answer_open) = false ->
  contains fence (before ++ answer_open ++ body ++ answer_close ++ after) = false ->
  opens_no_answer before = true ->
  closes_no_answer body = true ->
  json_loads body = Ok data ->
  let answer := before ++ answer_open ++ body ++ answer_close ++ after in
  stage1 answer = Ok [] /\
  stage2 unicode_alnum answer = Ok [] /\
  stage3 unicode_alnum answer = Ok (collect data) /\
  extract answer = Ok (collect data).
Proof.
  intros Hopen Hfence Hbefore Hbody Hdata answer.
  assert (H1 : stage1 answer = Ok []).
  { apply stage1_without_container. unfold answer.
    change answer_open with (60 :: py "answer>") in *.
    cbn [app] in *. rewrite opens_container_app by reflexivity.
    rewrite <- Hopen. symmetry. apply opens_container_app. reflexivity. }
  assert (H2 : stage2 unicode_alnum answer = Ok []).
  { unfold stage2, code_blocks, findall, code_block_pattern.
    rewrite contains_no_match by exact Hfence. reflexivity. }
  assert (H3 : stage3 unicode_alnum answer = Ok (collect data)).
  { unfold stage3, answer.
    destruct (findall_first answer_pattern before
                (answer_open ++ body ++ answer_close ++ after) after [body])
      as [more ->].
    - unfold opens_no_answer in Hbefore. apply negb_true_iff in Hbefore.
      eapply all_tails_impl;
        [| apply (no_tag_opens (py "<answer") 62 before
                    (body ++ answer_close ++ after)), Hbefore].
      intros t Ht. unfold match_here, answer_pattern. cbn [rmatch].
      change (py "<answer" ++ [62]) with (py "<answer>") in Ht.
      fold answer_open in Ht |- *. rewrite Ht. reflexivity.
    - discriminate.
    - apply answer_body, Hbody.
    - cbn [map first_answer]. unfold group1 at 1. cbn [nth].
      unfold try_loads. rewrite Hdata. reflexivity. }
  split; [exact H1 |]. split; [exact H2 |]. split; [exact H3 |].
  unfold extract_bbox_data. rewrite H1. cbn. rewrite H2. cbn. rewrite H3. cbn.
  destruct (collect data); [apply stage4_yields_nothing | reflexivity].
Qed.

End Answers.

Lemma fenced_document_is_extracted_witness :
  extract_bbox_data (fun _ => false) (fun _ => None)
    ((py "Here are the boxes:" ++ [10])
     ++ fenced (py "json") [10]
          two_boxes_json
          [10]
     ++ py " Done.")
  = Ok [detection (py "cat")
          (JArr [JNum (PyInt 10); JNum (PyInt 20); JNum (PyInt 30); JNum (PyInt 40)]);
        detection (py "dog")
          (JArr [JNum (PyInt 1); JNum (PyInt 2); JNum (PyInt 3); JNum (PyInt 4)])].
Proof.
  apply (proj2 (proj2
    (fenced_document_is_extracted (fun _ => false) (fun _ => None)
       (py "Here are the boxes:" ++ [10]) (py "json") [10]
       two_boxes_json
       [10] (py " Done.")
       (JArr [detection (py "cat")
                (JArr [JNum (PyInt 10); JNum (PyInt 20); JNum (PyInt 30); JNum (PyInt 40)]);
              detection (py "dog")
                (JArr [JNum (PyInt 1); JNum (PyInt 2); JNum (PyInt 3); JNum (PyInt 4)])])
       eq_refl eq_refl eq_refl eq_refl eq_refl eq_refl eq_refl))).
  discriminate.
Defined.

Lemma answer_tag_is_extracted_witness :
  extract_bbox_data (fun _ => false) (fun _ => None)
    ((py "<think>I see a cat.</think>" ++ [10])
     ++ answer_open ++ pyq "[{'label': 'cat', 'bbox_2d': [10, 20, 30, 40]}]"
     ++ answer_close ++ [])
  = Ok [detection (py "cat")
          (JArr [JNum (PyInt 10); JNum (PyInt 20); JNum (PyInt 30); JNum (PyInt 40)])].
Proof.
  exact (proj2 (proj2 (proj2
    (answer_tag_is_extracted (fun _ => false) (fun _ => None)
       (py "<think>I see a cat.</think>" ++ [10])
       (pyq "[{'label': 'cat', 'bbox_2d': [10, 20, 30, 40]}]") []
       (JArr [detection (py "cat")
                (JArr [JNum (PyInt 10); JNum (PyInt 20); JNum (PyInt 30); JNum (PyInt 40)])])
       eq_refl eq_refl eq_refl eq_refl eq_refl)))).
Defined.
